(** * Earthly: target references and the indentation lexer

    A shallow embedding of [domain/target.go] (target references: parse,
    render, canonical render, join) and of [earthfile2llb/lexer.go] (the
    wrapper around the generated lexer that synthesises INDENT / DEDENT
    tokens and captures here-documents), with the properties of the
    specification stated and settled against them.

    Go strings are byte strings: they are modelled by [string] (a list of
    8-bit [ascii]).  The ANTLR character stream and the regexp matcher
    read a string as runes, with the conversions of [unicode/utf8].
    Go's [int] is modelled by [Z] with the 64-bit
    wrap-around written out where the code does arithmetic.  A Go function
    that returns [(T, error)] and may also panic returns a [result]. *)

From Stdlib Require Import String Ascii List Bool Arith ZArith Lia.
Import ListNotations.
Open Scope string_scope.

(** ** Outcomes: a value, a returned [error], or a panic *)

Inductive result (A : Type) : Type :=
| Ok (a : A)
| Err (msg : string)
| Panicked (msg : string).
Arguments Ok {A} a.
Arguments Err {A} msg.
Arguments Panicked {A} msg.

Definition bind {A B : Type} (m : result A) (k : A -> result B) : result B :=
  match m with
  | Ok a => k a
  | Err e => Err e
  | Panicked e => Panicked e
  end.

Notation "x <- m ;; k" := (bind m (fun x => k))
  (at level 61, m at next level, right associativity).
Notation "m ;;; k" := (bind m (fun _ => k))
  (at level 61, right associativity).

(** [panic(msg)]: the statements that follow are never run. *)
Definition panic (msg : string) : result unit := Panicked msg.

(** ** Package [strings] of the Go library *)

Module strings.

(** [strings.HasPrefix(s, prefix)]. *)
Definition HasPrefix (s pre : string) : bool := String.prefix pre s.

(** [s[n:]] for [n <= len(s)]. *)
Fixpoint slice_from (n : nat) (s : string) : string :=
  match n, s with
  | O, _ => s
  | S n', String _ s' => slice_from n' s'
  | S _, EmptyString => EmptyString
  end.

(** [s[:n]] for [n <= len(s)]. *)
Fixpoint slice_to (n : nat) (s : string) : string :=
  match n, s with
  | O, _ => EmptyString
  | S n', String c s' => String c (slice_to n' s')
  | S _, EmptyString => EmptyString
  end.

(** [strings.Index(s, substr)]: the byte offset of the first occurrence,
    [None] where Go returns -1. *)
Fixpoint Index (s substr : string) : option nat :=
  if String.prefix substr s then Some O
  else match s with
       | EmptyString => None
       | String _ s' => option_map S (Index s' substr)
       end.

(** The loop of [genSplit]: at most [n] cuts, the rest is the last piece. *)
Fixpoint genSplit_loop (s sep : string) (n : nat) : list string :=
  match n with
  | O => [s]
  | S n' =>
      match Index s sep with
      | None => [s]
      | Some m => slice_to m s :: genSplit_loop (slice_from (m + String.length sep) s) sep n'
      end
  end.

(** [strings.SplitN(s, sep, n)] for [n >= 0] and a non-empty [sep]:
    [n] is capped at [len(s)+1], then [n-1] cuts are made. *)
Definition SplitN (s sep : string) (n : nat) : list string :=
  match n with
  | O => []
  | S n' => genSplit_loop s sep (Nat.min n' (String.length s))
  end.

End strings.

(** ** Package [unicode/utf8] of the Go library, and the conversions
    between a string and a slice of runes *)

Module utf8.

(** A rune is a code point (Go's [int32]; the runes met here are never
    negative). *)
Definition rune := N.

(** [utf8.RuneError], U+FFFD. *)
Definition RuneError : rune := 65533%N.

(** [lo <= b && b <= hi] on a byte. *)
Definition between (lo hi : N) (b : ascii) : bool :=
  ((lo <=? N_of_ascii b) && (N_of_ascii b <=? hi))%N.

(** [utf8.DecodeRuneInString]: the first rune of [s] and its width in
    bytes.  A byte that begins no valid encoding, and an encoding cut
    short, is [RuneError] of width 1. *)
Definition DecodeRuneInString (s : string) : rune * nat :=
  match s with
  | EmptyString => (RuneError, 0)
  | String s0 rest =>
      let x := N_of_ascii s0 in
      if (x <? 128)%N then (x, 1)
      else if (x <? 194)%N then (RuneError, 1)      (* 0x80-0xC1 *)
      else if (x <? 224)%N then                      (* 0xC2-0xDF, two bytes *)
        match rest with
        | String s1 _ =>
            if between 128 191 s1
            then (N.lor (N.shiftl (N.land x 31) 6) (N.land (N_of_ascii s1) 63), 2)
            else (RuneError, 1)
        | _ => (RuneError, 1)
        end
      else if (x <? 240)%N then                      (* 0xE0-0xEF, three bytes *)
        let lo := if (x =? 224)%N then 160%N else 128%N in
        let hi := if (x =? 237)%N then 159%N else 191%N in
        match rest with
        | String s1 (String s2 _) =>
            if between lo hi s1 && between 128 191 s2
            then (N.lor (N.shiftl (N.land x 15) 12)
                    (N.lor (N.shiftl (N.land (N_of_ascii s1) 63) 6)
                       (N.land (N_of_ascii s2) 63)), 3)
            else (RuneError, 1)
        | _ => (RuneError, 1)
        end
      else if (x <? 245)%N then                      (* 0xF0-0xF4, four bytes *)
        let lo := if (x =? 240)%N then 144%N else 128%N in
        let hi := if (x =? 244)%N then 143%N else 191%N in
        match rest with
        | String s1 (String s2 (String s3 _)) =>
            if between lo hi s1 && between 128 191 s2 && between 128 191 s3
            then (N.lor (N.shiftl (N.land x 7) 18)
                    (N.lor (N.shiftl (N.land (N_of_ascii s1) 63) 12)
                       (N.lor (N.shiftl (N.land (N_of_ascii s2) 63) 6)
                          (N.land (N_of_ascii s3) 63))), 4)
            else (RuneError, 1)
        | _ => (RuneError, 1)
        end
      else (RuneError, 1)
  end.

(** The runes of [s], each with its width: the loop of [for range s],
    with [skip] the bytes of the last rune that are still to pass. *)
Fixpoint runes_from (skip : nat) (s : string) : list (rune * nat) :=
  match s with
  | EmptyString => []
  | String s0 rest =>
      match skip with
      | S skip' => runes_from skip' rest
      | O =>
          let rw := DecodeRuneInString (String s0 rest) in
          rw :: runes_from (snd rw - 1) rest
      end
  end.

(** The conversion [[]rune(s)]. *)
Definition runes (s : string) : list rune := map fst (runes_from 0 s).

(** [utf8.EncodeRune]: a surrogate and a rune past U+10FFFF are written
    as [RuneError]. *)
Definition EncodeRune (r : rune) : string :=
  if (r <=? 127)%N then String (ascii_of_N r) EmptyString
  else if (r <=? 2047)%N then
    String (ascii_of_N (N.lor 192 (N.shiftr r 6)))
      (String (ascii_of_N (N.lor 128 (N.land r 63))) EmptyString)
  else
    let r := if (1114111 <? r)%N || ((55296 <=? r) && (r <=? 57343))%N
             then RuneError else r in
    if (r <=? 65535)%N then
      String (ascii_of_N (N.lor 224 (N.shiftr r 12)))
        (String (ascii_of_N (N.lor 128 (N.land (N.shiftr r 6) 63)))
           (String (ascii_of_N (N.lor 128 (N.land r 63))) EmptyString))
    else
      String (ascii_of_N (N.lor 240 (N.shiftr r 18)))
        (String (ascii_of_N (N.lor 128 (N.land (N.shiftr r 12) 63)))
           (String (ascii_of_N (N.lor 128 (N.land (N.shiftr r 6) 63)))
              (String (ascii_of_N (N.lor 128 (N.land r 63))) EmptyString))).

(** The conversion [string(rs)] of a slice of runes. *)
Fixpoint string_of_runes (rs : list rune) : string :=
  match rs with
  | [] => EmptyString
  | r :: rs' => EncodeRune r ++ string_of_runes rs'
  end.

End utf8.

(** ** Package [path] of the Go library (slash-separated, lexical) *)

Module path.

Definition slash : ascii := "/"%char.
Definition dot : ascii := "."%char.

(** [path.IsAbs]: [len(path) > 0 && path[0] == '/']. *)
Definition IsAbs (p : string) : bool :=
  match p with
  | String c _ => Ascii.eqb c slash
  | EmptyString => false
  end.

(** The output buffer of [Clean] is kept last byte first, so that its
    length is the write index [w]. *)
Definition lazybuf := list ascii.

Fixpoint string_of_lazybuf_acc (out : lazybuf) (acc : string) : string :=
  match out with
  | [] => acc
  | c :: out' => string_of_lazybuf_acc out' (String c acc)
  end.

Definition string_of_lazybuf (out : lazybuf) : string :=
  string_of_lazybuf_acc out EmptyString.

(** The [..] case when [out.w > dotdot]:
    [out.w--; for out.w > dotdot && out.index(out.w) != '/' { out.w-- }]. *)
Fixpoint backtrack (dotdot : nat) (out : lazybuf) : lazybuf :=
  match out with
  | [] => []
  | c :: out' =>
      if Nat.ltb dotdot (List.length out') && negb (Ascii.eqb c slash)
      then backtrack dotdot out'
      else out'
  end.

(** Is the byte at the read index the end of an element: [r == n] or
    [path[r] == '/']. *)
Definition at_elem_end (p : string) : bool :=
  match p with
  | EmptyString => true
  | String c _ => Ascii.eqb c slash
  end.

(** The byte added before a real path element:
    [if rooted && out.w != 1 || !rooted && out.w != 0 { out.append('/') }]. *)
Definition add_slash (rooted : bool) (out : lazybuf) : lazybuf :=
  if (rooted && negb (Nat.eqb (List.length out) 1))
     || (negb rooted && negb (Nat.eqb (List.length out) 0))
  then slash :: out else out.

(** The [..] element: back to the last slash when there is an element to
    drop, else one more [..] when the path is not rooted. *)
Definition dotdot_elem (rooted : bool) (out : lazybuf) (dotdot : nat) : lazybuf * nat :=
  if Nat.ltb dotdot (List.length out) then (backtrack dotdot out, dotdot)
  else if negb rooted then
    let out1 := if Nat.ltb 0 (List.length out) then slash :: out else out in
    let out2 := dot :: dot :: out1 in
    (out2, List.length out2)
  else (out, dotdot).

(** The loop [for r < n] of [Clean]; [p] is [path[r:]].  [copy_elem] is
    the inner loop that copies a real element; on the slash that ends the
    element it hands over to the outer loop, which skips that slash. *)
Fixpoint clean_loop (rooted : bool) (p : string) (out : lazybuf) (dotdot : nat)
  {struct p} : lazybuf :=
  match p with
  | EmptyString => out
  | String c rest =>
      if Ascii.eqb c slash then
        (* empty path element *)
        clean_loop rooted rest out dotdot
      else if Ascii.eqb c dot && at_elem_end rest then
        (* . element *)
        clean_loop rooted rest out dotdot
      else
        match rest with
        | String c2 rest2 =>
            if Ascii.eqb c dot && Ascii.eqb c2 dot && at_elem_end rest2 then
              (* .. element: remove to last / *)
              let '(out', dotdot') := dotdot_elem rooted out dotdot in
              clean_loop rooted rest2 out' dotdot'
            else
              (* real path element *)
              copy_elem rooted rest (c :: add_slash rooted out) dotdot
        | EmptyString =>
            copy_elem rooted rest (c :: add_slash rooted out) dotdot
        end
  end
with copy_elem (rooted : bool) (q : string) (o : lazybuf) (dotdot : nat)
  {struct q} : lazybuf :=
  match q with
  | EmptyString => o
  | String a q' =>
      if Ascii.eqb a slash then clean_loop rooted q' o dotdot
      else copy_elem rooted q' (a :: o) dotdot
  end.

(** [path.Clean]. *)
Definition Clean (p : string) : string :=
  match p with
  | EmptyString => "."
  | String c rest =>
      let rooted := Ascii.eqb c slash in
      let out :=
        if rooted then clean_loop true rest [slash] 1
        else clean_loop false p [] 0 in
      match out with
      | [] => "."
      | _ => string_of_lazybuf out
      end
  end.

(** [path.Join(elem...)]: the non-empty prefix of the elements is glued
    with slashes and cleaned; all elements empty gives the empty string. *)
Definition Join (elem : list string) : string :=
  let size := fold_left (fun n e => n + String.length e) elem 0 in
  if Nat.eqb size 0 then EmptyString
  else
    let buf :=
      fold_left
        (fun buf e =>
           if Nat.ltb 0 (String.length buf) || negb (String.eqb e EmptyString)
           then (if Nat.ltb 0 (String.length buf) then buf ++ "/" else buf) ++ e
           else buf)
        elem EmptyString in
    Clean buf.

(** [path.Base], on the bytes of the path read from its end: the trailing
    slashes are dropped, then the bytes down to the last slash are kept. *)
Fixpoint drop_slashes (l : list ascii) : list ascii :=
  match l with
  | c :: l' => if Ascii.eqb c slash then drop_slashes l' else l
  | [] => []
  end.

Fixpoint take_elem (l : list ascii) : list ascii :=
  match l with
  | c :: l' => if Ascii.eqb c slash then [] else c :: take_elem l'
  | [] => []
  end.

Definition Base (p : string) : string :=
  match p with
  | EmptyString => "."
  | _ =>
      (* strip trailing slashes, find the last element *)
      let last := take_elem (drop_slashes (rev (list_ascii_of_string p))) in
      match last with
      | [] => "/"   (* it had only slashes *)
      | _ => string_of_lazybuf last
      end
  end.

End path.

(** ** Package [regexp] of the Go library, for the syntax the matchers use

    The patterns of [parseGitURLandPath] are built from literal ASCII
    characters, [.] (any character but a newline) and [[^c]+].  [Compile]
    reads that fragment of the RE2 syntax; [FindString] is the leftmost
    match, a [+] taking as many characters as it can and giving them back
    one at a time (leftmost-first).  A character of the input is a rune:
    the matcher reads the input with [utf8.DecodeRuneInString], so that a
    byte which begins no valid encoding is [RuneError], one byte wide.
    The lengths are counted in bytes. *)

Module regexp.

Inductive class : Type :=
| AnyCharNotNL
| Literal (c : ascii)
| NegatedChar (c : ascii).

Inductive item : Type :=
| Once (k : class)
| Plus (k : class).

Definition Regexp := list item.

Definition is_meta (c : ascii) : bool :=
  existsb (Ascii.eqb c)
    ["\"%char; "*"%char; "+"%char; "?"%char; "("%char; ")"%char; "|"%char;
     "["%char; "]"%char; "{"%char; "}"%char; "^"%char; "$"%char].

(** [regexp.Compile] on the fragment; [None] for a pattern outside it. *)
Fixpoint Compile (pat : string) : option Regexp :=
  match pat with
  | EmptyString => Some []
  | String c rest =>
      let atom :=
        (* a literal ASCII character or [.], with its repetition mark *)
        if is_meta c || negb (N_of_ascii c <? 128)%N then None
        else
          let k := if Ascii.eqb c "."%char then AnyCharNotNL else Literal c in
          match rest with
          | String c1 rest1 =>
              if Ascii.eqb c1 "+"%char
              then option_map (cons (Plus k)) (Compile rest1)
              else option_map (cons (Once k)) (Compile rest)
          | EmptyString => Some [Once k]
          end in
      match rest with
      | String c1 (String c2 (String c3 rest3)) =>
          if Ascii.eqb c "["%char && Ascii.eqb c1 "^"%char
             && negb (is_meta c2) && (N_of_ascii c2 <? 128)%N
             && Ascii.eqb c3 "]"%char
          then
            (* [^c] with its repetition mark *)
            match rest3 with
            | String r rest4 =>
                if Ascii.eqb r "+"%char
                then option_map (cons (Plus (NegatedChar c2))) (Compile rest4)
                else option_map (cons (Once (NegatedChar c2))) (Compile rest3)
            | EmptyString => Some [Once (NegatedChar c2)]
            end
          else atom
      | _ => atom
      end
  end.

Definition newline : ascii := Ascii.ascii_of_nat 10.

Definition class_matches (k : class) (c : utf8.rune) : bool :=
  match k with
  | AnyCharNotNL => negb (N.eqb c (N_of_ascii newline))
  | Literal a => N.eqb c (N_of_ascii a)
  | NegatedChar a => negb (N.eqb c (N_of_ascii a))
  end.

(** The length in bytes of the preferred match of [r] at the start of
    [s], a list of runes with their widths. *)
Fixpoint match_here (r : Regexp) (s : list (utf8.rune * nat)) {struct r}
  : option nat :=
  match r with
  | [] => Some O
  | Once k :: r' =>
      match s with
      | (c, w) :: s' =>
          if class_matches k c then option_map (Nat.add w) (match_here r' s')
          else None
      | [] => None
      end
  | Plus k :: r' =>
      (fix more (t : list (utf8.rune * nat)) : option nat :=
         match t with
         | [] => None
         | (c, w) :: t' =>
             if class_matches k c then
               match more t' with
               | Some n => Some (w + n)
               | None => option_map (Nat.add w) (match_here r' t')
               end
             else None
         end) s
  end.

(** The search for the leftmost match: [rs] is the runes of [s]; without
    a match at the start the search goes on behind the first rune. *)
Fixpoint FindString_from (r : Regexp) (rs : list (utf8.rune * nat)) (s : string)
  : string :=
  match match_here r rs with
  | Some n => strings.slice_to n s
  | None =>
      match rs with
      | [] => EmptyString
      | (_, w) :: rs' => FindString_from r rs' (strings.slice_from w s)
      end
  end.

(** [Regexp.FindString]: the text of the leftmost match, the empty
    string when there is none. *)
Definition FindString (r : Regexp) (s : string) : string :=
  FindString_from r (utf8.runes_from 0 s) s.

End regexp.

(** ** Package [domain]: [target.go] *)

Module domain.

(** [type Target struct].  The field that Go also calls [Target] is
    [TargetName] here, the record taking the name. *)
Record Target : Type := mkTarget {
  GitURL : string;      (* "github.com/earthly/earthly" *)
  GitPath : string;     (* "examples/go" *)
  Tag : string;         (* "main" *)
  LocalPath : string;
  TargetName : string
}.

(** The zero value [Target{}]. *)
Definition zero : Target := mkTarget "" "" "" "" "".

Definition IsLocalInternal (et : Target) : bool :=
  String.eqb (LocalPath et) ".".

Definition IsLocalExternal (et : Target) : bool :=
  negb (String.eqb (LocalPath et) ".") && negb (String.eqb (LocalPath et) "").

Definition IsRemote (et : Target) : bool :=
  negb (IsLocalExternal et) && negb (IsLocalInternal et).

Definition IsExternal (et : Target) : bool :=
  IsRemote et || IsLocalExternal et.

(** [Target.String]. *)
Definition Target_String (et : Target) : string :=
  if IsLocalExternal et then LocalPath et ++ "+" ++ TargetName et
  else if IsRemote et then
    let tag := ":" ++ Tag et in
    let tag := if String.eqb (Tag et) "" then "" else tag in
    GitURL et ++ "/" ++ GitPath et ++ tag ++ "+" ++ TargetName et
  else "+" ++ TargetName et.

Definition StringCanonical (et : Target) : string :=
  if negb (String.eqb (GitURL et) "") then
    let tag := ":" ++ Tag et in
    let tag := if String.eqb (Tag et) "" then "" else tag in
    GitURL et ++ "/" ++ GitPath et ++ tag ++ "+" ++ TargetName et
  else Target_String et.

(** [Target.ProjectCanonical]. *)
Definition ProjectCanonical (et : Target) : string :=
  if negb (String.eqb (GitURL et) "") then
    let tag := ":" ++ Tag et in
    let tag := if String.eqb (Tag et) "" then "" else tag in
    GitURL et ++ "/" ++ GitPath et ++ tag
  else if String.eqb (LocalPath et) "." then ""
  else path.Base (LocalPath et).

Record gitMatcher : Type := mkGitMatcher {
  pattern : string;
  user : string;
  suffix : string
}.

Definition matchers : list gitMatcher :=
  [ mkGitMatcher "github.com/[^/]+/[^/]+" "git" ".git";
    mkGitMatcher "gitlab.com/[^/]+/[^/]+" "git" ".git";
    mkGitMatcher "bitbucket.com/[^/]+/[^/]+" "git" ".git";
    mkGitMatcher "192.168.0.116/my/test/path/[^/]+" "alex" ".git" ].

(** The loop [for _, m := range matchers] and the statement after it
    (the prints to standard output are left out). *)
Fixpoint parseGitURLandPath_range (ms : list gitMatcher) (p : string)
  : result (string * string) :=
  match ms with
  | [] => Ok ("", "")
  | m :: ms' =>
      match regexp.Compile (pattern m) with
      | None => Panicked ("regexp: Compile(" ++ pattern m ++ ")")
      | Some r =>
          let match_ := regexp.FindString r p in
          if negb (String.eqb match_ "") then
            let subPath := strings.slice_from (String.length match_) p in
            Ok (match_, subPath)
          else parseGitURLandPath_range ms' p
      end
  end.

Definition parseGitURLandPath (p : string) : result (string * string) :=
  parseGitURLandPath_range matchers p.

(** [ParseTarget]. *)
Definition ParseTarget (fullTargetName : string) : result Target :=
  let partsPlus := strings.SplitN fullTargetName "+" 2 in
  match partsPlus with
  | [partsPlus0; partsPlus1] =>
      if String.eqb partsPlus0 "" then
        (* Local target. *)
        Ok (mkTarget "" "" "" "." partsPlus1)
      else if strings.HasPrefix partsPlus0 "." || strings.HasPrefix partsPlus0 "/" then
        (* Local external target. *)
        let localPath := partsPlus0 in
        let localPath :=
          if path.IsAbs localPath then path.Clean localPath
          else
            let localPath := path.Clean localPath in
            if negb (strings.HasPrefix localPath ".") then "./" ++ localPath
            else localPath in
        Ok (mkTarget "" "" "" localPath partsPlus1)
      else
        (* Remote target. *)
        let tag := "" in
        let partsColon := strings.SplitN partsPlus0 ":" 2 in
        let tag := match partsColon with [_; t] => t | _ => tag end in
        gp <- parseGitURLandPath (hd "" partsColon) ;;
        let '(gitURL, gitPath) := gp in
        Ok (mkTarget gitURL gitPath tag "" partsPlus1)
  | _ => Err ("Invalid target ref " ++ fullTargetName)
  end.

Definition set_Tag (t : Target) (v : string) : Target :=
  mkTarget (GitURL t) (GitPath t) v (LocalPath t) (TargetName t).

Definition set_LocalPath (t : Target) (v : string) : Target :=
  mkTarget (GitURL t) (GitPath t) (Tag t) v (TargetName t).

(** [JoinTargets].  Under a remote [target1] a non-remote [target2] meets
    [panic("TODO")] first; the statements after it are kept as they are
    written and are never run. *)
Definition JoinTargets (target1 target2 : Target) : result Target :=
  let ret := target2 in
  if IsRemote target1 then
    (* target1 is remote. Turn relative targets into remote targets. *)
    if negb (IsRemote ret) then
      panic "TODO" ;;;
      let ret := set_Tag ret (Tag target1) in
      if IsLocalExternal ret then
        if path.IsAbs (LocalPath ret) then
          Err ("Absolute path " ++ LocalPath ret
               ++ " not supported as reference in external target context")
        else
          let ret := set_LocalPath ret "" in
          Ok ret
      else if IsLocalInternal ret then
        let ret := set_LocalPath ret "" in
        Ok ret
      else Ok ret
    else Ok ret
  else
    if IsLocalExternal ret then
      if path.IsAbs (LocalPath ret) then
        Ok (set_LocalPath ret (path.Clean (LocalPath ret)))
      else
        let ret := set_LocalPath ret (path.Join [LocalPath target1; LocalPath ret]) in
        if negb (strings.HasPrefix (LocalPath ret) ".") then
          Ok (set_LocalPath ret ("./" ++ LocalPath ret))
        else Ok ret
    else if IsLocalInternal ret then
      Ok (set_LocalPath ret (LocalPath target1))
    else Ok ret.

End domain.

(** ** Go's [int] *)

Definition int_wrap (z : Z) : Z :=
  ((z + 2 ^ 63) mod 2 ^ 64 - 2 ^ 63)%Z.

Definition int_add (a b : Z) : Z := int_wrap (a + b).
Definition int_sub (a b : Z) : Z := int_wrap (a - b).

(** The one-byte string ["\n"]. *)
Definition nl : string := String (Ascii.ascii_of_nat 10) EmptyString.

(** ** The ANTLR runtime: character stream, tokens, the lexer's mode stack *)

Module antlr.

(** [InputStream].  [data] is the text given to [NewInputStream]; the
    stream holds the runes of that text, [utf8.runes data], and every
    position of the stream counts runes. *)
Record InputStream : Type := mkInputStream {
  data : string;
  index : Z
}.

Definition Size (is_ : InputStream) : Z :=
  Z.of_nat (List.length (utf8.runes (data is_))).

(** [InputStream.GetText(start, stop)], [stop] inclusive and clamped to
    the size: the runes of the interval, converted to a string; the slice
    expression panics on bounds out of range. *)
Definition GetText (is_ : InputStream) (start stop : Z) : result string :=
  let stop := if (Size is_ <=? stop)%Z then (Size is_ - 1)%Z else stop in
  if (Size is_ <=? start)%Z then Ok EmptyString
  else if (start <? 0)%Z || (stop + 1 <? start)%Z
  then Panicked "slice bounds out of range"
  else Ok (utf8.string_of_runes
             (firstn (Z.to_nat (stop + 1 - start))
                (skipn (Z.to_nat start) (utf8.runes (data is_))))).

(** [InputStream.Seek(index)]: backwards as asked, forwards up to the size. *)
Definition Seek (is_ : InputStream) (i : Z) : InputStream :=
  if (i <=? index is_)%Z then mkInputStream (data is_) i
  else mkInputStream (data is_) (Z.min i (Size is_)).

(** The token types the wrapper tells apart; every other type of the
    generated lexer is an [Other]. *)
Inductive TokenType : Type :=
| EarthLexerWS
| EarthLexerNL
| EarthLexerHereDoc
| EarthLexerAtom
| EarthLexerINDENT
| EarthLexerDEDENT
| TokenEOF
| Other (n : nat).

(** [CommonToken]: [text] is the text set on the token, empty when the
    token reads its text from the stream. *)
Record Token : Type := mkToken {
  tokenType : TokenType;
  text : string;
  channel : Z;
  start : Z;
  stop : Z;
  line : Z;
  column : Z
}.

(** [CommonToken.GetText]: the text set on it, else the stream's text of
    its interval, else ["<EOF>"]. *)
Definition Token_GetText (input : InputStream) (t : Token) : result string :=
  if negb (String.eqb (text t) EmptyString) then Ok (text t)
  else if (start t <? Size input)%Z && (stop t <? Size input)%Z
  then GetText input (start t) (stop t)
  else Ok "<EOF>".

Definition SetText (t : Token) (s : string) : Token :=
  mkToken (tokenType t) s (channel t) (start t) (stop t) (line t) (column t).

(** [CommonTokenFactory.Create] of the default factory (no copy of the
    text): the text is set only when the argument is not empty. *)
Definition Create (ttype : TokenType) (text_ : string)
  (channel_ start_ stop_ line_ column_ : Z) : Token :=
  mkToken ttype text_ channel_ start_ stop_ line_ column_.

(** The part of [BaseLexer] that the wrapper reads and writes. *)
Record BaseLexer : Type := mkBaseLexer {
  input : InputStream;
  TokenStartCharIndex : Z;
  mode : Z;
  modeStack : list Z
}.

(** [BaseLexer.PopMode]: the top of the stack is the last mode pushed. *)
Definition PopMode (b : BaseLexer) : result BaseLexer :=
  match modeStack b with
  | [] => Panicked "Empty Stack"
  | m :: st => Ok (mkBaseLexer (input b) (TokenStartCharIndex b) m st)
  end.

Definition PushMode (b : BaseLexer) (m : Z) : BaseLexer :=
  mkBaseLexer (input b) (TokenStartCharIndex b) m (mode b :: modeStack b).

Definition set_input (b : BaseLexer) (i : InputStream) : BaseLexer :=
  mkBaseLexer i (TokenStartCharIndex b) (mode b) (modeStack b).

Definition set_TokenStartCharIndex (b : BaseLexer) (i : Z) : BaseLexer :=
  mkBaseLexer (input b) i (mode b) (modeStack b).

(** [NewBaseLexer(input)]: default mode, empty mode stack. *)
Definition NewBaseLexer (i : InputStream) : BaseLexer :=
  mkBaseLexer i (-1) 0 [].

End antlr.

(** ** Package [earthfile2llb]: [lexer.go] *)

Module earthfile2llb.
Import antlr.

(** [type lexer struct]; [EarthLexer] is the embedded generated lexer. *)
Record lexer : Type := mkLexer {
  EarthLexer : BaseLexer;
  prevIndentLevel : Z;
  indentLevel : Z;
  afterNewLine : bool;
  tokenQueue : list Token;
  wsChannel : Z;
  wsStart : Z;
  wsStop : Z;
  wsLine : Z;
  wsColumn : Z
}.

Definition set_EarthLexer (l : lexer) (b : BaseLexer) : lexer :=
  mkLexer b (prevIndentLevel l) (indentLevel l) (afterNewLine l) (tokenQueue l)
    (wsChannel l) (wsStart l) (wsStop l) (wsLine l) (wsColumn l).

Definition set_prevIndentLevel (l : lexer) (v : Z) : lexer :=
  mkLexer (EarthLexer l) v (indentLevel l) (afterNewLine l) (tokenQueue l)
    (wsChannel l) (wsStart l) (wsStop l) (wsLine l) (wsColumn l).

Definition set_indentLevel (l : lexer) (v : Z) : lexer :=
  mkLexer (EarthLexer l) (prevIndentLevel l) v (afterNewLine l) (tokenQueue l)
    (wsChannel l) (wsStart l) (wsStop l) (wsLine l) (wsColumn l).

Definition set_afterNewLine (l : lexer) (v : bool) : lexer :=
  mkLexer (EarthLexer l) (prevIndentLevel l) (indentLevel l) v (tokenQueue l)
    (wsChannel l) (wsStart l) (wsStop l) (wsLine l) (wsColumn l).

Definition set_tokenQueue (l : lexer) (v : list Token) : lexer :=
  mkLexer (EarthLexer l) (prevIndentLevel l) (indentLevel l) (afterNewLine l) v
    (wsChannel l) (wsStart l) (wsStop l) (wsLine l) (wsColumn l).

Definition set_ws (l : lexer) (t : Token) : lexer :=
  mkLexer (EarthLexer l) (prevIndentLevel l) (indentLevel l) (afterNewLine l)
    (tokenQueue l) (channel t) (start t) (stop t) (line t) (column t).

(** [newLexer(input)]: the zero values around a new generated lexer. *)
Definition newLexer (i : InputStream) : lexer :=
  mkLexer (NewBaseLexer i) 0 0 false [] 0 0 0 0 0.

(** The synthetic token the wrapper creates, at the place of the last
    whitespace token. *)
Definition synthetic (l : lexer) (ttype : TokenType) : Token :=
  Create ttype "" (wsChannel l) (wsStart l) (wsStop l) (wsLine l) (wsColumn l).

(** The end of [NextToken]: with tokens queued, [peek] joins the queue
    and the head of the queue is returned. *)
Definition flush (l : lexer) (peek ret : Token) : Token * lexer :=
  match tokenQueue l with
  | [] => (ret, l)
  | q0 :: q => (q0, set_tokenQueue l (q ++ [peek]))
  end.

(** The here-document branch: the delimiter is the constant ["EOF"] and
    the window read after the opening line is 19 runes wide; the place
    behind the delimiter is the start of the window plus a number of
    bytes. *)
Definition heredoc_branch (l : lexer) (peek : Token) : result (Token * lexer) :=
  let ret := peek in
  let heredoc := "EOF" in
  let start_ := start peek in
  let start_ := int_add start_ (Z.of_nat (String.length ("<<" ++ heredoc ++ nl))) in
  let n := 19%Z in
  let end_ := int_add start_ (int_sub n 1) in
  let is_ := input (EarthLexer l) in
  s <- GetText is_ start_ end_ ;;
  match strings.Index s "EOF" with
  | None => Panicked "EOF not found"
  | Some n =>
      let s := strings.slice_to n s in
      let n := int_add (Z.of_nat n) (Z.of_nat (String.length "EOF")) in
      let l := set_EarthLexer l
                 (set_TokenStartCharIndex (EarthLexer l) (int_add start_ n)) in
      let ret := SetText ret s in
      let l := set_EarthLexer l
                 (set_input (EarthLexer l)
                    (Seek (input (EarthLexer l)) (int_add start_ n))) in
      b <- PopMode (EarthLexer l) ;;   (* Pop COMMAND *)
      let l := set_EarthLexer l b in
      Ok (ret, l)
  end.

(** The indentation step of the [default] case. *)
Definition indentation (l : lexer) : result lexer :=
  l <- (if afterNewLine l then
          if (prevIndentLevel l <? indentLevel l)%Z then
            Ok (set_tokenQueue l (tokenQueue l ++ [synthetic l EarthLexerINDENT]))
          else if (indentLevel l <? prevIndentLevel l)%Z then
            let l := set_tokenQueue l (tokenQueue l ++ [synthetic l EarthLexerDEDENT]) in
            b <- PopMode (EarthLexer l) ;;   (* Pop RECIPE mode. *)
            Ok (set_EarthLexer l b)
          else Ok l
        else Ok l) ;;
  let l := set_prevIndentLevel l (indentLevel l) in
  let l := set_afterNewLine l false in
  Ok l.

Definition is_Atom (t : TokenType) : bool :=
  match t with EarthLexerAtom => true | _ => false end.

(** The token types of the [default] case of [NextToken]. *)
Definition is_content (t : TokenType) : bool :=
  match t with
  | EarthLexerWS | EarthLexerNL | EarthLexerHereDoc => false
  | _ => true
  end.

(** A token of the [default] case that does not open a here-document:
    not an atom, or an atom whose text does not begin with [<<]. *)
Definition plain_content (b : BaseLexer) (peek : Token) : bool :=
  is_content (tokenType peek)
  && (if is_Atom (tokenType peek)
      then match Token_GetText (input b) peek with
           | Ok s => negb (strings.HasPrefix s "<<")
           | _ => false
           end
      else true).

Section Lexer.

(** [EarthLexer.NextToken] of the generated lexer. *)
Variable EarthLexer_NextToken : BaseLexer -> Token * BaseLexer.

(** [lexer.NextToken] (the prints to standard output are left out). *)
Definition NextToken (l : lexer) : result (Token * lexer) :=
  let '(peek, b) := EarthLexer_NextToken (EarthLexer l) in
  let l := set_EarthLexer l b in
  let ret := peek in
  let tokenType_ := tokenType peek in
  match tokenType_ with
  | EarthLexerWS =>
      let l := if afterNewLine l
               then set_indentLevel l (int_add (indentLevel l) 1) else l in
      let l := set_ws l peek in
      Ok (flush l peek ret)
  | EarthLexerNL =>
      let l := set_indentLevel l 0 in
      let l := set_afterNewLine l true in
      Ok (flush l peek ret)
  | EarthLexerHereDoc =>
      panic "TODO" ;;; Ok (flush l peek ret)
  | _ =>
      s <- (if is_Atom tokenType_
            then Token_GetText (input (EarthLexer l)) peek
            else Ok EmptyString) ;;
      if is_Atom tokenType_ && strings.HasPrefix s "<<" then
        heredoc_branch l peek
      else
        l <- indentation l ;;
        Ok (flush l peek ret)
  end.

(** The first [n] tokens the wrapper hands out. *)
Fixpoint tokens (n : nat) (l : lexer) : result (list Token * lexer) :=
  match n with
  | O => Ok ([], l)
  | S n' =>
      r <- NextToken l ;;
      rs <- tokens n' (snd r) ;;
      Ok (fst r :: fst rs, snd rs)
  end.

End Lexer.


(** The tokens the generated lexer hands to the wrapper during its first
    [n] calls, each with the state of the generated lexer after it. *)
Fixpoint generated (next : BaseLexer -> Token * BaseLexer) (n : nat) (l : lexer)
  : list (Token * BaseLexer) :=
  match n with
  | O => []
  | S n' =>
      next (EarthLexer l)
      :: match NextToken next l with
         | Ok (_, l') => generated next n' l'
         | _ => []
         end
  end.

(** A generated token that goes through the queue: whitespace, a newline,
    or a token of the [default] case that opens no here-document; the
    types INDENT and DEDENT are the wrapper's own. *)
Definition passes_through (pb : Token * BaseLexer) : bool :=
  match tokenType (fst pb) with
  | EarthLexerWS | EarthLexerNL => true
  | EarthLexerHereDoc | EarthLexerINDENT | EarthLexerDEDENT => false
  | _ => plain_content (snd pb) (fst pb)
  end.

Definition is_generated (t : Token) : bool :=
  match tokenType t with
  | EarthLexerINDENT | EarthLexerDEDENT => false
  | _ => true
  end.

(** An instance of the generated lexer for the examples, given by a token
    table: each entry is a token with its interval in the stream and the
    modes its rule pushes.  The next token is the first one that starts at
    or after the cursor; past the last one it is the end-of-file token. *)
Definition table := list (Token * list Z).

Definition table_NextToken (tb : table) (b : BaseLexer) : Token * BaseLexer :=
  match find (fun e => (index (input b) <=? start (fst e))%Z) tb with
  | Some (t, pushed) =>
      let b := set_TokenStartCharIndex b (start t) in
      let b := set_input b (mkInputStream (data (input b)) (stop t + 1)) in
      (t, fold_left PushMode pushed b)
  | None =>
      let n := Size (input b) in
      (mkToken TokenEOF EmptyString 0 n (n - 1) 0 0,
       set_input b (mkInputStream (data (input b)) n))
  end.

End earthfile2llb.

(** ** Package [main]: the checks of [actionBuild] on the mode flags, and
    [processSecrets] *)

Module main.

(** The fields of [cliFlags] that the start of [actionBuild] reads and
    writes. *)
Record cliFlags : Type := mkCliFlags {
  artifactMode : bool;
  imageMode : bool;
  push : bool;
  ci : bool;
  noOutput : bool;
  remoteCache : string;
  saveInlineCache : bool;
  useInlineCache : bool
}.

(** The start of [actionBuild], up to the declaration of [target]. *)
Definition actionBuild_flags (app : cliFlags) : result cliFlags :=
  let app :=
    if ci app then
      let app := mkCliFlags (artifactMode app) (imageMode app) (push app) (ci app)
                   (noOutput app) (remoteCache app) (saveInlineCache app) true in
      let app := mkCliFlags (artifactMode app) (imageMode app) (push app) (ci app)
                   true (remoteCache app) (saveInlineCache app) (useInlineCache app) in
      if String.eqb (remoteCache app) "" && push app then
        mkCliFlags (artifactMode app) (imageMode app) (push app) (ci app)
          (noOutput app) (remoteCache app) true (useInlineCache app)
      else app
    else app in
  if imageMode app && artifactMode app then
    Err "both image and artifact modes cannot be active at the same time"
  else if (imageMode app && noOutput app) || (artifactMode app && noOutput app) then
    if ci app then
      Ok (mkCliFlags (artifactMode app) (imageMode app) (push app) (ci app)
            false (remoteCache app) (saveInlineCache app) (useInlineCache app))
    else Err "cannot use --no-output with image or artifact modes"
  else Ok app.

(** A Go [map[string][]byte] as a list of bindings, the newest first;
    [get] reads the newest binding of a key. *)
Definition Map := list (string * string).

Fixpoint get (m : Map) (k : string) : option string :=
  match m with
  | [] => None
  | (k', v) :: m' => if String.eqb k' k then Some v else get m' k
  end.

Definition set (m : Map) (k v : string) : Map := (k, v) :: m.

(** The errors of [processSecrets], by the message they format. *)
Inductive secretsError : Type :=
| EnvVarNotSet (secret : string)
| AlreadyContainsValue (key : string)
| UnableToParseSecretFile (secret : string)
| FailedToOpen (file : string) (err : string).

Section ProcessSecrets.

(** [os.LookupEnv] and [ioutil.ReadFile] ([inr] is the error). *)
Variable LookupEnv : string -> option string.
Variable ReadFile : string -> string + string.

(** [for k, v := range dotEnvMap { finalSecrets[k] = []byte(v) }]. *)
Definition copy_dotEnv (dotEnvMap : Map) (finalSecrets : Map) : Map :=
  fold_left (fun m kv => set m (fst kv) (snd kv)) dotEnvMap finalSecrets.

(** [for _, secret := range secrets]. *)
Fixpoint range_secrets (secrets : list string) (finalSecrets : Map)
  : Map + secretsError :=
  match secrets with
  | [] => inl finalSecrets
  | secret :: secrets' =>
      let parts := strings.SplitN secret "=" 2 in
      let key := hd "" parts in
      match
        (match parts with
         | [_; v] => inl v   (* secret value passed as argument *)
         | _ =>
             (* Not set. Use environment to fetch it. *)
             match LookupEnv secret with
             | Some value => inl value
             | None => inr (EnvVarNotSet secret)
             end
         end)
      with
      | inr e => inr e
      | inl data =>
          match get finalSecrets key with
          | Some _ => inr (AlreadyContainsValue key)
          | None => range_secrets secrets' (set finalSecrets key data)
          end
      end
  end.

(** [for _, secret := range secretFiles]. *)
Fixpoint range_secretFiles (secretFiles : list string) (finalSecrets : Map)
  : Map + secretsError :=
  match secretFiles with
  | [] => inl finalSecrets
  | secret :: secretFiles' =>
      match strings.SplitN secret "=" 2 with
      | [k; file] =>
          match ReadFile file with
          | inr err => inr (FailedToOpen file err)
          | inl data =>
              match get finalSecrets k with
              | Some _ => inr (AlreadyContainsValue k)
              | None => range_secretFiles secretFiles' (set finalSecrets k data)
              end
          end
      | _ => inr (UnableToParseSecretFile secret)
      end
  end.

(** [processSecrets]. *)
Definition processSecrets (secrets secretFiles : list string) (dotEnvMap : Map)
  : Map + secretsError :=
  let finalSecrets := copy_dotEnv dotEnvMap [] in
  match range_secrets secrets finalSecrets with
  | inr e => inr e
  | inl finalSecrets => range_secretFiles secretFiles finalSecrets
  end.

End ProcessSecrets.

End main.

(** ** The specification's reading of whitespace and indentation *)

Module Spec.

Definition is_space (c : ascii) : bool :=
  Ascii.eqb c " "%char || Ascii.eqb c (Ascii.ascii_of_nat 9)
  || Ascii.eqb c (Ascii.ascii_of_nat 10) || Ascii.eqb c (Ascii.ascii_of_nat 13).

(** Whitespace squeezed: every run of whitespace bytes becomes its first
    byte. *)
Fixpoint squeeze (s : string) : string :=
  match s with
  | EmptyString => EmptyString
  | String c s' =>
      match s' with
      | String c' _ =>
          if is_space c && is_space c' then squeeze s' else String c (squeeze s')
      | EmptyString => String c EmptyString
      end
  end.






End Spec.

(** ** The shape of a cleaned path

    The output buffer of [Clean] is, at every turn of the loop, a base (the
    root slash of a rooted path, or the leading [..] elements of a path
    that is not rooted) followed by real elements.  Buffers and elements
    are written last byte first, as the buffer is. *)

(** A real path element: not empty, no slash, neither [.] nor [..]. *)
Definition seg_ok (s : list ascii) : Prop :=
  s <> [] /\ ~ In path.slash s /\ s <> [path.dot] /\ s <> [path.dot; path.dot].

(** [k] elements [..] with slashes between them. *)
Fixpoint dots (k : nat) : path.lazybuf :=
  match k with
  | O => []
  | S k' =>
      path.dot :: path.dot
      :: (if Nat.ltb 0 (List.length (dots k')) then path.slash :: dots k' else dots k')
  end.

(** The buffer that holds [base] and then the elements [segs], the last
    one first. *)
Fixpoint buf (r : bool) (base : path.lazybuf) (segs : list (list ascii)) : path.lazybuf :=
  match segs with
  | [] => base
  | s :: segs' => (s ++ path.add_slash r (buf r base segs'))%list
  end.

Definition is_base (r : bool) (base : path.lazybuf) : Prop :=
  if r then base = [path.slash] else exists k, base = dots k.

Definition good_seg (A : ascii -> Prop) (s : list ascii) : Prop :=
  seg_ok s /\ Forall A s.

(** The invariant of the loop; [A] holds of every byte of the elements. *)
Definition nf (A : ascii -> Prop) (r : bool) (out : path.lazybuf) (dd : nat) : Prop :=
  exists base segs,
    is_base r base /\ dd = List.length base /\ Forall (good_seg A) segs
    /\ out = buf r base segs.

(** The bytes of [q] up to its first slash, and what follows that slash. *)
Fixpoint elem_of (q : string) : list ascii :=
  match q with
  | EmptyString => []
  | String a q' => if Ascii.eqb a path.slash then [] else a :: elem_of q'
  end.

Fixpoint after_elem (q : string) : string :=
  match q with
  | EmptyString => EmptyString
  | String a q' => if Ascii.eqb a path.slash then q' else after_elem q'
  end.

(** The byte [c] and the bytes after it begin a [..] element. *)
Definition is_dotdot (c : ascii) (rest : string) : bool :=
  match rest with
  | String c2 rest2 =>
      Ascii.eqb c path.dot && Ascii.eqb c2 path.dot && path.at_elem_end rest2
  | EmptyString => false
  end.

Definition string_tail (s : string) : string :=
  match s with String _ s' => s' | EmptyString => EmptyString end.

Definition string_of_bytes (f : list ascii) : string := string_of_list_ascii f.

(** The buffer [Clean] ends with, for a path that is not empty. *)
Definition clean_out (p : string) : path.lazybuf :=
  if path.IsAbs p then path.clean_loop true p [path.slash] 1
  else path.clean_loop false p [] 0.

(** ** Byte counting, used to state where a string is split *)

Fixpoint count_byte (c : ascii) (s : string) : nat :=
  match s with
  | EmptyString => 0
  | String a s' => (if Ascii.eqb a c then 1 else 0) + count_byte c s'
  end.

Definition plus : ascii := "+"%char.
Definition colon : ascii := ":"%char.

(** The local path [ParseTarget] stores for a prefix that begins with
    [.] or [/]. *)
Definition stored_local_path (p : string) : string :=
  if path.IsAbs p then path.Clean p
  else
    let c := path.Clean p in
    if negb (strings.HasPrefix c ".") then "./" ++ c else c.

(** No pattern of the matcher list finds a match in [p]. *)
Definition no_matcher_accepts (p : string) : bool :=
  forallb
    (fun m => match regexp.Compile (domain.pattern m) with
              | Some r => String.eqb (regexp.FindString r p) ""
              | None => false
              end)
    domain.matchers.

(** ** Concrete references and recipes of the scenarios *)

Module Examples.
Import domain antlr earthfile2llb.

(** The caller of scenario S4 and its two references. *)
Definition s4_caller : Target :=
  mkTarget "github.com/acme/widgets" "examples/go" "main" "" "".
Definition s4_ref : Target := mkTarget "" "" "" "./sub" "t".
Definition s4_ref_abs : Target := mkTarget "" "" "" "/sub" "t".

(** The reference of scenario S3. *)
Definition s3_input : string := "github.com/acme/widgets:v1.2+release".
Definition s3_ref : Target :=
  mkTarget "github.com/acme/widgets" "" "v1.2" "" "release".

(** A remote reference on a host that no matcher knows. *)
Definition unknown_host_input : string := "example.org/foo/bar+build".

(** A token of the table lexer: its type and its interval. *)
Definition tk (ty : TokenType) (a b : Z) : Token := mkToken ty "" 0 a b 0 0.

(** A recipe of four lines: a header [a:] at column 0, a body line [b]
    after 4 blanks, a body line [c] after 8 blanks, and a line [d] at
    column 0.  The header atom pushes the recipe mode. *)
Definition recipe : string :=
  "a:" ++ nl ++ "    b" ++ nl ++ "        c" ++ nl ++ "d" ++ nl.

Definition recipe_table : table :=
  [ (tk EarthLexerAtom 0 1, [1%Z]); (tk EarthLexerNL 2 2, []);
    (tk EarthLexerWS 3 6, []); (tk EarthLexerAtom 7 7, []);
    (tk EarthLexerNL 8 8, []);
    (tk EarthLexerWS 9 16, []); (tk EarthLexerAtom 17 17, []);
    (tk EarthLexerNL 18 18, []);
    (tk EarthLexerAtom 19 19, []); (tk EarthLexerNL 20 20, []) ].

(** A command with a here-document; the command word pushes the command
    mode, and the last token of the table is the atom [<<TAG]. *)
Definition heredoc_table : table :=
  [ (tk (Other 0) 0 2, [2%Z]); (tk EarthLexerWS 3 3, []);
    (tk EarthLexerAtom 4 6, []); (tk EarthLexerWS 7 7, []);
    (tk EarthLexerAtom 8 12, []) ].

Definition heredoc_END : string :=
  "RUN cat <<END" ++ nl ++ "hello" ++ nl ++ "END" ++ nl.

Definition heredoc_EOF : string :=
  "RUN cat <<EOF" ++ nl ++ "hello" ++ nl ++ "EOF" ++ nl.

Definition heredoc_EOF_long : string :=
  "RUN cat <<EOF" ++ nl ++ "0123456789abcdefghij" ++ nl ++ "EOF" ++ nl.

(** The wrapper once the four tokens before the atom [<<TAG] are out. *)
Definition before_heredoc (src : string) : lexer :=
  mkLexer (mkBaseLexer (mkInputStream src 8) 7 2 [0%Z]) 0 0 false [] 0 7 7 0 0.


End Examples.

(** ** Definitions used to state the further properties *)

(** The last byte of the string is a slash. *)
Definition ends_with_slash (s : string) : bool :=
  match rev (list_ascii_of_string s) with
  | c :: _ => Ascii.eqb c path.slash
  | [] => false
  end.

(** The local path of the reference [JoinTargets] returns under a local
    caller. *)
Definition joined_local_path (target1 target2 : domain.Target) : string :=
  if domain.IsLocalExternal target2 then
    if path.IsAbs (domain.LocalPath target2) then path.Clean (domain.LocalPath target2)
    else
      let joined := path.Join [domain.LocalPath target1; domain.LocalPath target2] in
      if strings.HasPrefix joined "." then joined else "./" ++ joined
  else if domain.IsLocalInternal target2 then domain.LocalPath target1
  else domain.LocalPath target2.

(** Every byte of the string is below 128: the string is its own list of
    runes. *)
Definition is_ascii (s : string) : bool :=
  forallb (fun b => (N_of_ascii b <? 128)%N) (list_ascii_of_string s).

(** The number of INDENT and DEDENT tokens in a list. *)
Definition synthetic_count (ts : list antlr.Token) : nat :=
  List.length (filter (fun t => negb (earthfile2llb.is_generated t)) ts).

(** A command with a here-document whose body holds nine times the
    two-byte letter U+00E9: 28 runes in 37 bytes. *)
Definition e_acute : string :=
  String (Ascii.ascii_of_nat 195) (String (Ascii.ascii_of_nat 169) EmptyString).

Definition heredoc_accents : string :=
  "RUN cat <<EOF" ++ nl
  ++ e_acute ++ e_acute ++ e_acute ++ e_acute ++ e_acute
  ++ e_acute ++ e_acute ++ e_acute ++ e_acute ++ nl
  ++ "EOF" ++ nl.

Definition equals : ascii := "="%char.

(** The keys of a list of [--secret] or [--secret-file] arguments:
    [parts[0]] of each. *)
Definition secret_keys (args : list string) : list string :=
  map (fun secret => hd "" (strings.SplitN secret "=" 2)) args.

(** Where a binding made by the loop over [secrets] comes from: the
    argument [k=v], or the argument [k] with [v] read from the environment. *)
Definition from_secret (LookupEnv : string -> option string)
  (secret k v : string) : Prop :=
  (count_byte equals k = 0 /\ secret = k ++ "=" ++ v)
  \/ (count_byte equals k = 0 /\ secret = k /\ LookupEnv k = Some v).

(** Where a binding made by the loop over [secretFiles] comes from: the
    argument [k=file], with [v] the content of the file. *)
Definition from_secretFile (ReadFile : string -> string + string)
  (secret k v : string) : Prop :=
  exists file, count_byte equals k = 0 /\ secret = k ++ "=" ++ file
               /\ ReadFile file = inl v.

Module MainExamples.
Definition env (name : string) : option string :=
  if String.eqb name "HOME" then Some "/root" else None.
Definition files (file : string) : string + string :=
  if String.eqb file "/run/token" then inl "s3cr3t" else inr "no such file".
Definition secrets : list string := ["user=alice=bob"; "HOME"].
Definition secretFiles : list string := ["token=/run/token"].
Definition dotEnvMap : main.Map := [("region", "eu")].
End MainExamples.

(** * Properties of the [strings] model *)

Section StringFacts.

Lemma append_nil_r (s : string) : s ++ "" = s.
Proof. induction s as [|a s IH]; simpl; [reflexivity | now rewrite IH]. Qed.

Lemma append_assoc (a b c : string) : (a ++ b) ++ c = a ++ (b ++ c).
Proof. induction a as [|x a IH]; simpl; [reflexivity | now rewrite IH]. Qed.

Lemma length_append (a b : string) :
  String.length (a ++ b) = String.length a + String.length b.
Proof. induction a as [|x a IH]; simpl; [reflexivity | now rewrite IH]. Qed.

Lemma append_cancel_r (a b c : string) : a ++ c = b ++ c -> a = b.
Proof.
  revert b; induction a as [|x a IH]; intros [|y b] H; simpl in H.
  - reflexivity.
  - apply (f_equal String.length) in H; simpl in H.
    rewrite length_append in H; lia.
  - apply (f_equal String.length) in H; simpl in H.
    rewrite length_append in H; lia.
  - injection H as -> H. f_equal. now apply IH.
Qed.

Lemma slice_to_append (p x : string) :
  strings.slice_to (String.length p) (p ++ x) = p.
Proof. induction p as [|a p IH]; simpl; [now destruct x | now rewrite IH]. Qed.

Lemma slice_from_append (p x : string) :
  strings.slice_from (String.length p) (p ++ x) = x.
Proof. induction p as [|a p IH]; simpl; [now destruct x | exact IH]. Qed.

Lemma count_byte_append (c : ascii) (a b : string) :
  count_byte c (a ++ b) = count_byte c a + count_byte c b.
Proof. induction a as [|x a IH]; simpl; [reflexivity | rewrite IH; lia]. Qed.

(** A one-byte separator is a prefix exactly when it is the first byte. *)
Lemma prefix_byte (c a : ascii) (s : string) :
  String.prefix (String c "") (String a s) = Ascii.eqb a c.
Proof.
  simpl. destruct (Ascii.ascii_dec c a) as [->|Hne].
  - rewrite Ascii.eqb_refl. now destruct s.
  - symmetry. apply Ascii.eqb_neq. congruence.
Qed.

(** [strings.Index] finds a one-byte separator at the end of the longest
    prefix that is free of it. *)
Lemma Index_byte (c : ascii) (p n : string) :
  count_byte c p = 0 ->
  strings.Index (p ++ String c n) (String c "") = Some (String.length p).
Proof.
  induction p as [|a p IH]; intros Hc.
  - cbn [append strings.Index]. rewrite prefix_byte, Ascii.eqb_refl. reflexivity.
  - cbn [append strings.Index]. rewrite prefix_byte.
    simpl in Hc. destruct (Ascii.eqb a c); [discriminate|].
    rewrite IH by exact Hc. reflexivity.
Qed.

Lemma Index_byte_none (c : ascii) (s : string) :
  count_byte c s = 0 -> strings.Index s (String c "") = None.
Proof.
  induction s as [|a s IH]; intros Hc.
  - reflexivity.
  - cbn [strings.Index]. rewrite prefix_byte.
    simpl in Hc. destruct (Ascii.eqb a c); [discriminate|].
    rewrite IH by exact Hc. reflexivity.
Qed.

(** [SplitN(s, sep, 2)] cuts at the first separator only. *)
Lemma SplitN_2_first (c : ascii) (p n : string) :
  count_byte c p = 0 ->
  strings.SplitN (p ++ String c n) (String c "") 2 = [p; n].
Proof.
  intros Hc. unfold strings.SplitN.
  rewrite length_append. cbn [String.length].
  replace (Nat.min 1 (String.length p + S (String.length n))) with 1 by lia.
  cbn [strings.genSplit_loop]. rewrite Index_byte by exact Hc.
  rewrite slice_to_append.
  replace (String.length p + String.length (String c ""))
    with (String.length (p ++ String c "")) by (rewrite length_append; reflexivity).
  replace (p ++ String c n) with ((p ++ String c "") ++ n)
    by (rewrite append_assoc; reflexivity).
  rewrite slice_from_append. reflexivity.
Qed.

Lemma SplitN_2_none (c : ascii) (s : string) :
  count_byte c s = 0 -> strings.SplitN s (String c "") 2 = [s].
Proof.
  intros Hc. unfold strings.SplitN.
  destruct (Nat.min 1 (String.length s)); cbn [strings.genSplit_loop];
    [reflexivity | now rewrite Index_byte_none].
Qed.

(** A string that holds the byte splits around its first occurrence. *)
Lemma first_occurrence (c : ascii) (s : string) :
  1 <= count_byte c s ->
  exists p n, s = p ++ String c n /\ count_byte c p = 0
              /\ count_byte c s = S (count_byte c n).
Proof.
  induction s as [|a s IH]; simpl; intros H; [lia|].
  destruct (Ascii.eqb a c) eqn:E.
  - apply Ascii.eqb_eq in E; subst a.
    exists "", s. repeat split.
  - destruct (IH H) as (p & n & -> & Hp & Hn).
    exists (String a p), n. simpl. rewrite E. repeat split; assumption.
Qed.

End StringFacts.

(** * Target references *)

Section TargetFacts.
Import domain.

(** The three origins are told apart by [LocalPath] alone: every value
    is of exactly one of them. *)
Lemma origin_exclusive (et : Target) :
  (IsLocalInternal et = true /\ IsLocalExternal et = false /\ IsRemote et = false)
  \/ (IsLocalInternal et = false /\ IsLocalExternal et = true /\ IsRemote et = false)
  \/ (IsLocalInternal et = false /\ IsLocalExternal et = false /\ IsRemote et = true).
Proof.
  unfold IsRemote, IsLocalExternal, IsLocalInternal.
  destruct (String.eqb (LocalPath et) ".") eqn:E1;
    destruct (String.eqb (LocalPath et) "") eqn:E2; simpl; auto.
Qed.

Lemma IsRemote_iff (et : Target) : IsRemote et = true <-> LocalPath et = "".
Proof.
  unfold IsRemote, IsLocalExternal, IsLocalInternal. split.
  - intros H. destruct (String.eqb (LocalPath et) "") eqn:E2.
    + now apply String.eqb_eq in E2.
    + destruct (String.eqb (LocalPath et) "."); simpl in H; discriminate.
  - intros ->. reflexivity.
Qed.

(** [path.Clean] never returns the empty string. *)
Lemma string_of_lazybuf_acc_nonempty (out : path.lazybuf) (acc : string) :
  (out <> [] \/ acc <> "") -> path.string_of_lazybuf_acc out acc <> "".
Proof.
  revert acc; induction out as [|c out IH]; intros acc H; simpl.
  - destruct H as [H|H]; [contradiction | exact H].
  - apply IH. right. discriminate.
Qed.

Lemma Clean_nonempty (p : string) : path.Clean p <> "".
Proof.
  unfold path.Clean. destruct p as [|c rest]; [discriminate|].
  match goal with |- context [match ?o with [] => _ | _ => _ end] => destruct o eqn:E end.
  - discriminate.
  - apply string_of_lazybuf_acc_nonempty. left. discriminate.
Qed.

Lemma stored_local_path_nonempty (p : string) : stored_local_path p <> "".
Proof.
  unfold stored_local_path.
  destruct (path.IsAbs p); [apply Clean_nonempty|].
  cbv zeta. destruct (negb (strings.HasPrefix (path.Clean p) "."));
    [discriminate | apply Clean_nonempty].
Qed.

(** Every pattern of the matcher list is in the fragment [Compile] reads. *)
Lemma matchers_compile :
  forallb (fun m => match regexp.Compile (pattern m) with Some _ => true | None => false end)
    matchers = true.
Proof. vm_compute. reflexivity. Qed.

(** [parseGitURLandPath] has no failing path: it returns a pair and a
    nil error for every input, the empty pair when nothing matches. *)
Lemma parseGitURLandPath_range_total (ms : list gitMatcher) (p : string) :
  forallb (fun m => match regexp.Compile (pattern m) with Some _ => true | None => false end)
    ms = true ->
  exists gitURL gitPath, parseGitURLandPath_range ms p = Ok (gitURL, gitPath).
Proof.
  induction ms as [|m ms IH]; simpl; intros H.
  - now exists "", "".
  - apply andb_true_iff in H as [Hm Hms].
    destruct (regexp.Compile (pattern m)) as [r|]; [|discriminate].
    destruct (negb (String.eqb (regexp.FindString r p) "")).
    + eauto.
    + apply IH, Hms.
Qed.

Lemma parseGitURLandPath_total (p : string) :
  exists gitURL gitPath, parseGitURLandPath p = Ok (gitURL, gitPath).
Proof. apply parseGitURLandPath_range_total, matchers_compile. Qed.

(** [ParseTarget] on a string with a [+], branch by branch. *)
Lemma ParseTarget_local_internal (n : string) :
  ParseTarget ("+" ++ n) = Ok (mkTarget "" "" "" "." n).
Proof.
  unfold ParseTarget.
  change ("+" ++ n) with ("" ++ String plus n).
  rewrite SplitN_2_first by reflexivity. reflexivity.
Qed.

Lemma ParseTarget_local_external (p n : string) :
  count_byte plus p = 0 ->
  strings.HasPrefix p "." || strings.HasPrefix p "/" = true ->
  ParseTarget (p ++ "+" ++ n) = Ok (mkTarget "" "" "" (stored_local_path p) n).
Proof.
  intros Hp Hl. unfold ParseTarget.
  change (p ++ "+" ++ n) with (p ++ String plus n).
  rewrite SplitN_2_first by exact Hp.
  destruct p as [|a p']; [discriminate Hl|].
  cbn [String.eqb]. rewrite Hl. reflexivity.
Qed.

Lemma ParseTarget_remote (p n : string) :
  count_byte plus p = 0 ->
  p <> "" ->
  strings.HasPrefix p "." || strings.HasPrefix p "/" = false ->
  ParseTarget (p ++ "+" ++ n) =
    (let partsColon := strings.SplitN p ":" 2 in
     gp <- parseGitURLandPath (hd "" partsColon) ;;
     Ok (mkTarget (fst gp) (snd gp)
           (match partsColon with [_; t] => t | _ => "" end) "" n)).
Proof.
  intros Hp Hne Hl. unfold ParseTarget.
  change (p ++ "+" ++ n) with (p ++ String plus n).
  rewrite SplitN_2_first by exact Hp.
  destruct p as [|a p']; [contradiction|].
  cbn [String.eqb]. rewrite Hl. cbv zeta.
  destruct (parseGitURLandPath _) as [[g sp]| |]; reflexivity.
Qed.

(** A string with a [+] always parses. *)
Lemma ParseTarget_total (p n : string) :
  count_byte plus p = 0 ->
  exists t, ParseTarget (p ++ "+" ++ n) = Ok t /\ TargetName t = n.
Proof.
  intros Hp.
  destruct p as [|a p'] eqn:Ep.
  - change ("" ++ "+" ++ n) with ("+" ++ n).
    rewrite ParseTarget_local_internal. eauto.
  - rewrite <- Ep in *.
    destruct (strings.HasPrefix p "." || strings.HasPrefix p "/") eqn:Hl.
    + rewrite ParseTarget_local_external by assumption. eauto.
    + rewrite ParseTarget_remote by (subst; try assumption; discriminate).
      cbv zeta.
      destruct (parseGitURLandPath_total (hd "" (strings.SplitN p ":" 2)))
        as (g & sp & ->).
      simpl. eauto.
Qed.

End TargetFacts.

(** * Cleaned paths

    [path.Clean] always ends with a buffer of the shape above, and a path
    of that shape is cleaned to itself: [Clean] is idempotent, and so is
    the local path that [ParseTarget] stores. *)

Section CleanFacts.
Import path domain.
Local Open Scope list_scope.

Lemma clean_loop_nil r out dd : clean_loop r "" out dd = out.
Proof. reflexivity. Qed.

(** The inner loop copies the bytes up to the next slash and hands over
    to the outer loop behind it. *)
Lemma copy_elem_spec r q : forall o dd,
  copy_elem r q o dd = clean_loop r (after_elem q) (rev (elem_of q) ++ o)%list dd.
Proof.
  induction q as [|a q IH]; intros o dd; simpl.
  - reflexivity.
  - destruct (Ascii.eqb a slash); [reflexivity|].
    rewrite IH. simpl. rewrite <- app_assoc. reflexivity.
Qed.

Lemma after_elem_length q : String.length (after_elem q) <= String.length q.
Proof.
  induction q as [|a q IH]; simpl; [lia|].
  destruct (Ascii.eqb a slash); lia.
Qed.

Lemma elem_of_no_slash q : ~ In slash (elem_of q).
Proof.
  induction q as [|a q IH]; simpl; [tauto|].
  destruct (Ascii.eqb a slash) eqn:E; simpl; [tauto|].
  intros [H|H]; [|tauto]. subst. rewrite Ascii.eqb_refl in E. discriminate.
Qed.

Lemma elem_of_nil q : elem_of q = [] <-> at_elem_end q = true.
Proof.
  destruct q as [|a q]; simpl; [tauto|].
  destruct (Ascii.eqb a slash); split; intros; congruence.
Qed.

(** One turn of the outer loop, by the kind of element at the read
    index: empty, [.], [..] or real. *)
Lemma clean_loop_step r c rest out dd :
  clean_loop r (String c rest) out dd =
  if Ascii.eqb c slash then clean_loop r rest out dd
  else if Ascii.eqb c dot && at_elem_end rest then clean_loop r rest out dd
  else if is_dotdot c rest then
    clean_loop r (string_tail rest) (fst (dotdot_elem r out dd)) (snd (dotdot_elem r out dd))
  else clean_loop r (after_elem rest) (rev (elem_of rest) ++ c :: add_slash r out)%list dd.
Proof.
  cbn [clean_loop].
  destruct (Ascii.eqb c slash); [reflexivity|].
  destruct (Ascii.eqb c dot && at_elem_end rest); [reflexivity|].
  destruct rest as [|c2 rest2]; cbn [is_dotdot string_tail].
  - reflexivity.
  - destruct (Ascii.eqb c dot && Ascii.eqb c2 dot && at_elem_end rest2).
    + destruct (dotdot_elem r out dd); reflexivity.
    + apply copy_elem_spec.
Qed.

Lemma add_slash_length r o : List.length o <= List.length (add_slash r o).
Proof. unfold add_slash. destruct (_ || _); simpl; lia. Qed.

Lemma buf_length r base segs : List.length base <= List.length (buf r base segs).
Proof.
  induction segs as [|s segs IH]; simpl; [lia|].
  rewrite length_app. pose proof (add_slash_length r (buf r base segs)). lia.
Qed.

Lemma backtrack_slash dd s o :
  s <> [] -> ~ In slash s -> dd <= List.length o ->
  backtrack dd (s ++ slash :: o) = o.
Proof.
  induction s as [|x s IH]; intros Hne Hs Hdd; [contradiction|].
  assert (Hx : Ascii.eqb x slash = false).
  { apply Ascii.eqb_neq. intros ->. apply Hs. now left. }
  cbn [app backtrack]. rewrite Hx.
  replace (Nat.ltb dd (List.length (s ++ slash :: o))) with true
    by (symmetry; apply Nat.ltb_lt; rewrite length_app; simpl; lia).
  cbn [negb andb].
  destruct s as [|y s'].
  - cbn [app backtrack]. rewrite Ascii.eqb_refl, andb_false_r. reflexivity.
  - apply IH; [discriminate| |exact Hdd]. intros H; apply Hs; now right.
Qed.

Lemma backtrack_noslash dd s o :
  s <> [] -> ~ In slash s -> List.length o = dd ->
  backtrack dd (s ++ o) = o.
Proof.
  induction s as [|x s IH]; intros Hne Hs Hdd; [contradiction|].
  cbn [app backtrack].
  destruct s as [|y s'].
  - cbn [app]. replace (Nat.ltb dd (List.length o)) with false
      by (symmetry; apply Nat.ltb_ge; lia). reflexivity.
  - assert (Hx : Ascii.eqb x slash = false).
    { apply Ascii.eqb_neq. intros ->. apply Hs. now left. }
    rewrite Hx.
    replace (Nat.ltb dd (List.length ((y :: s') ++ o))) with true
      by (symmetry; apply Nat.ltb_lt; rewrite length_app; simpl; lia).
    cbn [negb andb]. apply IH; [discriminate| |exact Hdd].
    intros H; apply Hs; now right.
Qed.

Lemma is_base_length r base : is_base r base -> r = true -> List.length base = 1.
Proof. intros H ->. simpl in H. subst. reflexivity. Qed.

(** Dropping the last element of a buffer of the shape gives the buffer
    without it. *)
Lemma backtrack_buf r base segs s :
  is_base r base -> s <> [] -> ~ In slash s ->
  backtrack (List.length base) (s ++ add_slash r (buf r base segs)) = buf r base segs.
Proof.
  intros Hb Hne Hs. pose proof (buf_length r base segs) as Hl.
  unfold add_slash.
  destruct ((r && negb (Nat.eqb (List.length (buf r base segs)) 1))
            || (negb r && negb (Nat.eqb (List.length (buf r base segs)) 0))) eqn:E.
  - apply backtrack_slash; assumption.
  - apply backtrack_noslash; try assumption.
    apply orb_false_iff in E as [E1 E2].
    destruct r; simpl in *.
    + apply negb_false_iff, Nat.eqb_eq in E1. subst base. simpl in *. lia.
    + apply negb_false_iff, Nat.eqb_eq in E2. lia.
Qed.

Section NormalForm.
Variable A : ascii -> Prop.

Lemma elem_of_Forall q : Forall A (list_ascii_of_string q) -> Forall A (elem_of q).
Proof.
  induction q as [|a q IH]; simpl; intros H; [constructor|].
  inversion H; subst. destruct (Ascii.eqb a slash); [constructor|].
  constructor; auto.
Qed.

Lemma after_elem_Forall q :
  Forall A (list_ascii_of_string q) -> Forall A (list_ascii_of_string (after_elem q)).
Proof.
  induction q as [|a q IH]; simpl; intros H; [constructor|].
  inversion H; subst. destruct (Ascii.eqb a slash); auto.
Qed.

Lemma dots_length_step k :
  dots (S k) = dot :: dot :: (if Nat.ltb 0 (List.length (dots k)) then slash :: dots k else dots k).
Proof. reflexivity. Qed.

Lemma nf_dotdot r out dd :
  nf A r out dd ->
  nf A r (fst (dotdot_elem r out dd)) (snd (dotdot_elem r out dd)).
Proof.
  intros (base & segs & Hb & -> & Hs & ->).
  unfold dotdot_elem.
  destruct segs as [|s segs].
  - cbn [buf]. rewrite Nat.ltb_irrefl.
    destruct r; cbn [negb fst snd].
    + exists base, []. repeat split; auto.
    + destruct Hb as [k ->].
      exists (dots (S k)), []. repeat split; [now exists (S k) | constructor].
  - cbn [buf].
    inversion Hs as [|? ? [(Hne & Hsl & _) _] Hs']; subst.
    replace (Nat.ltb (List.length base)
               (List.length (s ++ add_slash r (buf r base segs)))) with true.
    + cbn [fst snd]. rewrite backtrack_buf by assumption.
      exists base, segs. repeat split; auto.
    + symmetry. apply Nat.ltb_lt. rewrite length_app.
      pose proof (add_slash_length r (buf r base segs)).
      pose proof (buf_length r base segs).
      destruct s; [contradiction|simpl; lia].
Qed.

Lemma real_elem_ok c rest :
  Ascii.eqb c slash = false ->
  Ascii.eqb c dot && at_elem_end rest = false ->
  is_dotdot c rest = false ->
  seg_ok (rev (elem_of rest) ++ [c]).
Proof.
  intros Hc Hd Hdd. repeat split.
  - destruct (rev (elem_of rest)); discriminate.
  - intros H. apply in_app_or in H as [H|[H|[]]].
    + apply in_rev in H. now apply elem_of_no_slash in H.
    + subst. rewrite Ascii.eqb_refl in Hc. discriminate.
  - intros H.
    assert (Hl : List.length (rev (elem_of rest) ++ [c]) = 1) by now rewrite H.
    rewrite length_app, length_rev in Hl. simpl in Hl.
    assert (He : elem_of rest = []) by (destruct (elem_of rest); [reflexivity | simpl in Hl; lia]).
    rewrite He in H. simpl in H. injection H as ->.
    apply elem_of_nil in He. rewrite He, Ascii.eqb_refl in Hd. discriminate.
  - intros H.
    destruct rest as [|c2 rest2]; [discriminate H|].
    cbn [elem_of] in H. cbn [is_dotdot] in Hdd.
    destruct (Ascii.eqb c2 slash) eqn:E2; [discriminate H|].
    cbn [rev] in H.
    assert (Hl : List.length ((rev (elem_of rest2) ++ [c2]) ++ [c]) = 2) by now rewrite H.
    rewrite !length_app, length_rev in Hl. simpl in Hl.
    assert (He : elem_of rest2 = []) by (destruct (elem_of rest2); [reflexivity | simpl in Hl; lia]).
    rewrite He in H. simpl in H. injection H as -> ->.
    apply elem_of_nil in He. rewrite He, !Ascii.eqb_refl in Hdd. discriminate.
Qed.

Lemma tail_Forall q :
  Forall A (list_ascii_of_string q) -> Forall A (list_ascii_of_string (string_tail q)).
Proof. destruct q; simpl; intros H; [constructor | now inversion H]. Qed.

(** The loop keeps the shape of the buffer, whatever the input. *)
Lemma clean_loop_nf (n : nat) : forall p r out dd,
  String.length p <= n ->
  Forall A (list_ascii_of_string p) ->
  nf A r out dd ->
  exists dd', nf A r (clean_loop r p out dd) dd'.
Proof.
  induction n as [|n IH]; intros p r out dd Hlen HA Hnf.
  - destruct p; [|simpl in Hlen; lia]. exists dd. exact Hnf.
  - destruct p as [|c rest]; [exists dd; exact Hnf|].
    simpl in Hlen. inversion HA as [|? ? Hc Hrest]; subst.
    rewrite clean_loop_step.
    destruct (Ascii.eqb c slash) eqn:Ec; [apply IH; auto; lia|].
    destruct (Ascii.eqb c dot && at_elem_end rest) eqn:Ed; [apply IH; auto; lia|].
    destruct (is_dotdot c rest) eqn:Edd.
    + apply IH.
      * destruct rest; simpl in *; lia.
      * now apply tail_Forall.
      * now apply nf_dotdot.
    + apply IH.
      * pose proof (after_elem_length rest). lia.
      * now apply after_elem_Forall.
      * destruct Hnf as (base & segs & Hb & -> & Hs & ->).
        exists base, ((rev (elem_of rest) ++ [c]) :: segs).
        repeat split; auto.
        -- constructor; [|exact Hs]. split.
           ++ now apply real_elem_ok.
           ++ apply Forall_app. split; [|now constructor].
              apply Forall_rev. now apply elem_of_Forall.
        -- cbn [buf]. rewrite <- app_assoc. reflexivity.
Qed.

End NormalForm.

Lemma text_acc_rev s acc :
  string_of_lazybuf_acc s acc = (string_of_bytes (rev s) ++ acc)%string.
Proof.
  revert acc; induction s as [|c s IH]; intros acc; cbn [string_of_lazybuf_acc rev].
  - reflexivity.
  - rewrite IH. unfold string_of_bytes. generalize (rev s). intros l.
    induction l as [|x l IHl]; cbn [app string_of_list_ascii append];
      [reflexivity | now rewrite IHl].
Qed.

Lemma text_acc_app x y acc :
  string_of_lazybuf_acc (x ++ y) acc
  = string_of_lazybuf_acc y (string_of_lazybuf_acc x acc).
Proof. revert acc; induction x as [|c x IH]; intros acc; simpl; [reflexivity|apply IH]. Qed.

Lemma elem_of_app f rest :
  ~ In slash f -> at_elem_end rest = true -> elem_of (string_of_bytes f ++ rest)%string = f.
Proof.
  induction f as [|a f IH]; intros Hs Hr; simpl.
  - now apply elem_of_nil.
  - assert (Ha : Ascii.eqb a slash = false).
    { apply Ascii.eqb_neq. intros ->. apply Hs. now left. }
    rewrite Ha. f_equal. apply IH; [|exact Hr]. intros H; apply Hs; now right.
Qed.

Lemma after_elem_app f rest :
  ~ In slash f -> after_elem (string_of_bytes f ++ rest)%string = after_elem rest.
Proof.
  induction f as [|a f IH]; intros Hs; simpl; [reflexivity|].
  assert (Ha : Ascii.eqb a slash = false).
  { apply Ascii.eqb_neq. intros ->. apply Hs. now left. }
  rewrite Ha. apply IH. intros H; apply Hs; now right.
Qed.

Lemma at_elem_end_app f rest :
  ~ In slash f -> at_elem_end (string_of_bytes f ++ rest)%string = true -> f = [].
Proof.
  destruct f as [|a f]; intros Hs H; [reflexivity|].
  simpl in H. apply Ascii.eqb_eq in H. subst. exfalso. apply Hs. now left.
Qed.

Lemma clean_loop_after_elem r rest o d :
  at_elem_end rest = true ->
  clean_loop r (after_elem rest) o d = clean_loop r rest o d.
Proof.
  destruct rest as [|a rest]; intros H; [reflexivity|].
  simpl in H. rewrite clean_loop_step. simpl. rewrite H. reflexivity.
Qed.

(** Reading the text of a real element appends that element. *)
Lemma replay_seg r s rest out dd :
  seg_ok s -> at_elem_end rest = true ->
  clean_loop r (string_of_lazybuf_acc s rest) out dd
  = clean_loop r rest (s ++ add_slash r out) dd.
Proof.
  intros (Hne & Hsl & Hd & Hdd) Hr.
  rewrite text_acc_rev.
  assert (Hrev : s = rev (rev s)) by (symmetry; apply rev_involutive).
  destruct (rev s) as [|c f] eqn:Ef.
  { simpl in Hrev. contradiction. }
  assert (Hslf : ~ In slash (c :: f)).
  { intros H. apply Hsl. rewrite Hrev. now apply -> in_rev. }
  assert (Hc : Ascii.eqb c slash = false).
  { apply Ascii.eqb_neq. intros ->. apply Hslf. now left. }
  assert (Hf : ~ In slash f) by (intros H; apply Hslf; now right).
  cbn [string_of_bytes string_of_list_ascii append]. fold (string_of_bytes f).
  rewrite clean_loop_step, Hc.
  destruct (Ascii.eqb c dot && at_elem_end (string_of_bytes f ++ rest)%string) eqn:E1.
  { apply andb_true_iff in E1 as [E1 E2]. apply Ascii.eqb_eq in E1. subst c.
    apply at_elem_end_app in E2; [|exact Hf]. subst f.
    simpl in Hrev. contradiction. }
  destruct (is_dotdot c (string_of_bytes f ++ rest)%string) eqn:E2.
  { exfalso. destruct f as [|c2 f2].
    - destruct rest as [|a rest']; [discriminate E2|].
      cbn [string_of_bytes string_of_list_ascii append is_dotdot] in E2.
      cbn [at_elem_end] in Hr. apply Ascii.eqb_eq in Hr. subst a.
      change (Ascii.eqb slash dot) with false in E2.
      rewrite andb_false_r in E2. discriminate E2.
    - cbn [string_of_bytes string_of_list_ascii append is_dotdot] in E2. fold (string_of_bytes f2) in E2.
      apply andb_true_iff in E2 as [E2 E3]. apply andb_true_iff in E2 as [E2 E4].
      apply Ascii.eqb_eq in E2, E4. subst c c2.
      apply at_elem_end_app in E3; [|intros H; apply Hf; now right]. subst f2.
      simpl in Hrev. contradiction. }
  rewrite elem_of_app, after_elem_app by assumption.
  rewrite clean_loop_after_elem by assumption.
  rewrite Hrev. cbn [rev]. rewrite <- app_assoc. reflexivity.
Qed.

Lemma replay_dotdot k rest :
  at_elem_end rest = true ->
  clean_loop false (String dot (String dot rest)) (dots k) (List.length (dots k))
  = clean_loop false rest (dots (S k)) (List.length (dots (S k))).
Proof.
  intros Hr. rewrite clean_loop_step.
  change (Ascii.eqb dot slash) with false. cbn [at_elem_end andb is_dotdot string_tail].
  rewrite Ascii.eqb_refl, Hr. cbn [andb].
  unfold dotdot_elem. rewrite Nat.ltb_irrefl. reflexivity.
Qed.

Lemma replay_dots k : forall rest,
  at_elem_end rest = true \/ k = 0 ->
  clean_loop false (string_of_lazybuf_acc (dots k) rest) [] 0
  = clean_loop false rest (dots k) (List.length (dots k)).
Proof.
  induction k as [|k IH]; intros rest Hr; [reflexivity|].
  destruct Hr as [Hr|Hr]; [|discriminate].
  rewrite dots_length_step at 1.
  cbn [string_of_lazybuf_acc].
  destruct (Nat.ltb 0 (List.length (dots k))) eqn:E.
  - cbn [string_of_lazybuf_acc]. rewrite IH by (left; reflexivity).
    rewrite clean_loop_step. rewrite Ascii.eqb_refl.
    now apply replay_dotdot.
  - apply Nat.ltb_ge in E. destruct k; [|simpl in E; lia].
    cbn [dots string_of_lazybuf_acc]. now apply (replay_dotdot 0).
Qed.

Section Replay.
Variables (r : bool) (base out0 : lazybuf) (dd0 : nat).
Hypothesis Hbase : forall rest,
  at_elem_end rest = true \/ add_slash r base = base ->
  clean_loop r (string_of_lazybuf_acc base rest) out0 dd0
  = clean_loop r rest base (List.length base).

Lemma add_slash_buf_cons s segs :
  s <> [] -> is_base r base ->
  add_slash r (buf r base (s :: segs)) = slash :: buf r base (s :: segs).
Proof.
  intros Hne Hb. unfold add_slash. cbn [buf].
  rewrite length_app.
  pose proof (add_slash_length r (buf r base segs)).
  pose proof (buf_length r base segs).
  destruct s as [|x s]; [contradiction|]. cbn [List.length].
  destruct r; cbn [andb orb negb].
  - apply is_base_length in Hb; [|reflexivity].
    replace (Nat.eqb _ 1) with false; [reflexivity|].
    symmetry. apply Nat.eqb_neq. simpl. lia.
  - reflexivity.
Qed.

(** Reading the text of a buffer of the shape rebuilds that buffer. *)
Lemma replay_segs : forall segs rest,
  is_base r base ->
  Forall seg_ok segs ->
  at_elem_end rest = true \/ add_slash r (buf r base segs) = buf r base segs ->
  clean_loop r (string_of_lazybuf_acc (buf r base segs) rest) out0 dd0
  = clean_loop r rest (buf r base segs) (List.length base).
Proof.
  induction segs as [|s segs IH]; intros rest Hb Hs Hr.
  - apply Hbase. exact Hr.
  - inversion Hs as [|? ? Hok Hs']; subst.
    assert (Hrest : at_elem_end rest = true).
    { destruct Hr as [Hr|Hr]; [exact Hr|].
      rewrite add_slash_buf_cons in Hr by (try apply Hok; assumption).
      exfalso. apply (f_equal (@List.length _)) in Hr. simpl in Hr. lia. }
    cbn [buf]. rewrite text_acc_app.
    unfold add_slash at 1.
    destruct ((r && negb (Nat.eqb (List.length (buf r base segs)) 1))
              || (negb r && negb (Nat.eqb (List.length (buf r base segs)) 0))) eqn:E.
    + cbn [string_of_lazybuf_acc].
      rewrite IH; [|assumption|assumption|left; reflexivity].
      rewrite clean_loop_step, Ascii.eqb_refl.
      now apply replay_seg.
    + rewrite IH; [|assumption|assumption|right; unfold add_slash; now rewrite E].
      now apply replay_seg.
Qed.

End Replay.

Lemma replay_rooted segs :
  Forall seg_ok segs ->
  clean_loop true (string_of_lazybuf (buf true [slash] segs)) [slash] 1
  = buf true [slash] segs.
Proof.
  intros Hs. unfold string_of_lazybuf.
  rewrite (replay_segs true [slash] [slash] 1); try assumption.
  - reflexivity.
  - intros rest _. cbn [string_of_lazybuf_acc]. rewrite clean_loop_step.
    rewrite Ascii.eqb_refl. reflexivity.
  - reflexivity.
  - left; reflexivity.
Qed.

Lemma replay_unrooted k segs :
  Forall seg_ok segs ->
  clean_loop false (string_of_lazybuf (buf false (dots k) segs)) [] 0
  = buf false (dots k) segs.
Proof.
  intros Hs. unfold string_of_lazybuf.
  rewrite (replay_segs false (dots k) [] 0); try assumption.
  - reflexivity.
  - intros rest Hr. apply replay_dots.
    destruct Hr as [Hr|Hr]; [now left|right].
    unfold add_slash in Hr. cbn [andb orb negb] in Hr.
    destruct (Nat.eqb (List.length (dots k)) 0) eqn:E.
    + apply Nat.eqb_eq in E. destruct k; [reflexivity|discriminate].
    + cbn [negb] in Hr. apply (f_equal (@List.length _)) in Hr. simpl in Hr. lia.
  - now exists k.
  - left; reflexivity.
Qed.

Lemma IsAbs_text_rooted segs : forall acc,
  IsAbs (string_of_lazybuf_acc (buf true [slash] segs) acc) = true.
Proof.
  induction segs as [|s segs IH]; intros acc; [reflexivity|].
  cbn [buf]. rewrite text_acc_app. unfold add_slash.
  destruct (_ || _); [cbn [string_of_lazybuf_acc]|]; apply IH.
Qed.

Lemma IsAbs_text_dots k : forall acc,
  0 < k \/ IsAbs acc = false ->
  IsAbs (string_of_lazybuf_acc (dots k) acc) = false.
Proof.
  induction k as [|k IH]; intros acc H.
  - destruct H as [H|H]; [lia|exact H].
  - rewrite dots_length_step. cbn [string_of_lazybuf_acc].
    destruct (Nat.ltb 0 (List.length (dots k))) eqn:E.
    + cbn [string_of_lazybuf_acc]. apply IH. left.
      apply Nat.ltb_lt in E. destruct k; [simpl in E; lia | lia].
    + apply IH. right. reflexivity.
Qed.

Lemma IsAbs_text_seg s acc :
  s <> [] -> ~ In slash s -> IsAbs (string_of_lazybuf_acc s acc) = false.
Proof.
  intros Hne Hs. rewrite text_acc_rev.
  destruct (rev s) as [|c f] eqn:E.
  - apply (f_equal (@rev _)) in E. rewrite rev_involutive in E. contradiction.
  - simpl. apply Ascii.eqb_neq. intros ->. apply Hs. apply in_rev. rewrite E. now left.
Qed.

Lemma IsAbs_text_unrooted k segs : forall acc,
  Forall seg_ok segs ->
  buf false (dots k) segs <> [] \/ IsAbs acc = false ->
  IsAbs (string_of_lazybuf_acc (buf false (dots k) segs) acc) = false.
Proof.
  induction segs as [|s segs IH]; intros acc Hs H.
  - cbn [buf] in *. apply IsAbs_text_dots.
    destruct H as [H|H]; [left|now right].
    destruct k; [contradiction|lia].
  - inversion Hs as [|? ? (Hne & Hsl & _) Hs']; subst.
    cbn [buf]. rewrite text_acc_app. unfold add_slash. cbn [andb orb negb].
    destruct (Nat.eqb (List.length (buf false (dots k) segs)) 0) eqn:E; cbn [negb].
    + apply IH; [assumption|]. right. now apply IsAbs_text_seg.
    + cbn [string_of_lazybuf_acc]. apply IH; [assumption|]. left.
      apply Nat.eqb_neq in E. intros H0. rewrite H0 in E. contradiction.
Qed.

Lemma Clean_unfold p :
  p <> EmptyString ->
  Clean p = match clean_out p with
            | [] => "."%string
            | _ => string_of_lazybuf (clean_out p)
            end.
Proof.
  intros Hne. destruct p as [|c rest]; [contradiction|].
  unfold Clean, clean_out. cbn [IsAbs].
  destruct (Ascii.eqb c slash) eqn:E; [|reflexivity].
  rewrite (clean_loop_step true c rest), E. reflexivity.
Qed.

Lemma clean_out_nf (A : ascii -> Prop) p :
  Forall A (list_ascii_of_string p) ->
  exists base segs,
    is_base (IsAbs p) base /\ Forall (good_seg A) segs
    /\ clean_out p = buf (IsAbs p) base segs.
Proof.
  intros HA. unfold clean_out.
  destruct (IsAbs p).
  - destruct (clean_loop_nf A (String.length p) p true [slash] 1 (le_n _) HA)
      as (dd' & base & segs & Hb & _ & Hs & Ho).
    + exists [slash], []. repeat split. constructor.
    + now exists base, segs.
  - destruct (clean_loop_nf A (String.length p) p false [] 0 (le_n _) HA)
      as (dd' & base & segs & Hb & _ & Hs & Ho).
    + exists (dots 0), []. repeat split; [now exists 0 | constructor].
    + now exists base, segs.
Qed.

Lemma good_seg_ok A segs : Forall (good_seg A) segs -> Forall seg_ok segs.
Proof. apply Forall_impl. now intros s [H _]. Qed.

Lemma text_nonempty out : out <> [] -> string_of_lazybuf out <> EmptyString.
Proof.
  intros H. unfold string_of_lazybuf. rewrite text_acc_rev.
  destruct (rev out) eqn:E; [|discriminate].
  apply (f_equal (@rev _)) in E. rewrite rev_involutive in E. contradiction.
Qed.

(** A cleaned path is a fixed point of [Clean]. *)
Lemma Clean_fixed r base segs :
  is_base r base -> Forall seg_ok segs -> buf r base segs <> [] ->
  Clean (string_of_lazybuf (buf r base segs)) = string_of_lazybuf (buf r base segs)
  /\ IsAbs (string_of_lazybuf (buf r base segs)) = r.
Proof.
  intros Hb Hs Hne.
  assert (Habs : IsAbs (string_of_lazybuf (buf r base segs)) = r).
  { destruct r.
    - simpl in Hb. subst base. apply IsAbs_text_rooted.
    - destruct Hb as [k ->]. apply IsAbs_text_unrooted; [assumption|now left]. }
  split; [|exact Habs].
  rewrite Clean_unfold by now apply text_nonempty.
  unfold clean_out. rewrite Habs.
  destruct r.
  - simpl in Hb. subst base. rewrite replay_rooted by assumption.
    destruct (buf true [slash] segs); [contradiction|reflexivity].
  - destruct Hb as [k ->]. rewrite replay_unrooted by assumption.
    destruct (buf false (dots k) segs); [contradiction|reflexivity].
Qed.

(** [path.Clean] is idempotent. *)
Theorem Clean_idempotent p : Clean (Clean p) = Clean p.
Proof.
  destruct p as [|c rest] eqn:Ep; [reflexivity|]. rewrite <- Ep.
  assert (Hne : p <> EmptyString) by (subst; discriminate).
  rewrite (Clean_unfold p Hne).
  destruct (clean_out_nf (fun _ => True) p) as (base & segs & Hb & Hs & Ho).
  { apply Forall_forall. auto. }
  destruct (clean_out p) as [|x o] eqn:E; [reflexivity|].
  rewrite Ho. apply Clean_fixed; [assumption|now apply good_seg_ok in Hs|].
  rewrite <- Ho. discriminate.
Qed.

Lemma Clean_IsAbs p : IsAbs (Clean p) = IsAbs p.
Proof.
  destruct p as [|c rest] eqn:Ep; [reflexivity|]. rewrite <- Ep.
  assert (Hne : p <> EmptyString) by (subst; discriminate).
  rewrite (Clean_unfold p Hne).
  destruct (clean_out_nf (fun _ => True) p) as (base & segs & Hb & Hs & Ho).
  { apply Forall_forall. auto. }
  destruct (clean_out p) as [|x o] eqn:E.
  - destruct (IsAbs p); [|reflexivity].
    simpl in Hb. subst base.
    pose proof (buf_length true [slash] segs) as Hl. rewrite <- Ho in Hl.
    simpl in Hl. lia.
  - rewrite Ho. apply Clean_fixed; [assumption|now apply good_seg_ok in Hs|].
    rewrite <- Ho. discriminate.
Qed.

Section Bytes.
Variable A : ascii -> Prop.
Hypothesis A_slash : A slash.
Hypothesis A_dot : A dot.

Lemma dots_bytes k : Forall A (dots k).
Proof.
  induction k as [|k IH]; [constructor|].
  rewrite dots_length_step. repeat constructor; try assumption.
  destruct (Nat.ltb 0 (List.length (dots k))); [constructor|]; assumption.
Qed.

Lemma buf_bytes r base segs :
  is_base r base -> Forall (good_seg A) segs -> Forall A (buf r base segs).
Proof.
  intros Hb Hs. induction Hs as [|s segs [_ Hs] _ IH]; cbn [buf].
  - destruct r; simpl in Hb.
    + subst. now repeat constructor.
    + destruct Hb as [k ->]. apply dots_bytes.
  - apply Forall_app. split; [exact Hs|].
    unfold add_slash. destruct (_ || _); [constructor|]; assumption.
Qed.

Lemma text_bytes out :
  list_ascii_of_string (string_of_lazybuf out) = rev out.
Proof.
  unfold string_of_lazybuf. rewrite text_acc_rev.
  generalize (rev out). intros l. induction l as [|x l IH]; simpl; [reflexivity|].
  now rewrite IH.
Qed.

(** [Clean] writes no byte other than a slash, a dot or a byte of its
    input. *)
Lemma Clean_bytes p :
  Forall A (list_ascii_of_string p) -> Forall A (list_ascii_of_string (Clean p)).
Proof.
  intros HA.
  destruct p as [|c rest] eqn:Ep; [now repeat constructor|]. rewrite <- Ep in *.
  assert (Hne : p <> EmptyString) by (subst; discriminate).
  rewrite (Clean_unfold p Hne).
  destruct (clean_out_nf A p HA) as (base & segs & Hb & Hs & Ho).
  destruct (clean_out p) as [|x o] eqn:E; [now repeat constructor|].
  rewrite text_bytes. apply Forall_rev. rewrite Ho. now apply buf_bytes.
Qed.

End Bytes.

Lemma count_byte_zero c s :
  count_byte c s = 0 <-> Forall (fun a => a <> c) (list_ascii_of_string s).
Proof.
  induction s as [|a s IH]; simpl; split; intros H; try constructor; try reflexivity.
  - intros ->. rewrite Ascii.eqb_refl in H. discriminate.
  - apply IH. destruct (Ascii.eqb a c); [discriminate|exact H].
  - inversion H; subst.
    replace (Ascii.eqb a c) with false by (symmetry; now apply Ascii.eqb_neq).
    now apply IH.
Qed.

Lemma Clean_count_byte c p :
  c <> slash -> c <> dot -> count_byte c p = 0 -> count_byte c (Clean p) = 0.
Proof.
  intros Hs Hd H. apply count_byte_zero. apply Clean_bytes; try congruence.
  now apply count_byte_zero.
Qed.

Lemma Clean_dot_slash c :
  c <> EmptyString -> IsAbs c = false ->
  Clean (String dot (String slash c)) = Clean c.
Proof.
  intros Hne Ha.
  rewrite (Clean_unfold c Hne), Clean_unfold by discriminate.
  assert (H : clean_out (String dot (String slash c)) = clean_out c).
  { unfold clean_out. rewrite Ha. reflexivity. }
  rewrite H. reflexivity.
Qed.

Lemma HasPrefix_slash s : strings.HasPrefix s "/" = IsAbs s.
Proof.
  destruct s as [|a s]; [reflexivity|].
  unfold strings.HasPrefix. apply prefix_byte.
Qed.

Lemma stored_local_path_IsAbs p : IsAbs (stored_local_path p) = IsAbs p.
Proof.
  unfold stored_local_path. destruct (IsAbs p) eqn:E.
  - now rewrite Clean_IsAbs.
  - cbv zeta. destruct (negb (strings.HasPrefix (Clean p) ".")); [reflexivity|].
    now rewrite Clean_IsAbs.
Qed.

Lemma stored_local_path_local p :
  strings.HasPrefix (stored_local_path p) "." || strings.HasPrefix (stored_local_path p) "/"
  = true.
Proof.
  rewrite HasPrefix_slash, stored_local_path_IsAbs.
  unfold stored_local_path. destruct (IsAbs p) eqn:E; [apply orb_true_r|].
  cbv zeta. destruct (strings.HasPrefix (Clean p) ".") eqn:E2; cbn [negb].
  - now rewrite E2.
  - reflexivity.
Qed.

Lemma stored_local_path_unfold p :
  stored_local_path p
  = if IsAbs p then Clean p
    else if strings.HasPrefix (Clean p) "." then Clean p
         else String dot (String slash (Clean p)).
Proof.
  unfold stored_local_path. destruct (IsAbs p); [reflexivity|].
  cbv zeta. destruct (strings.HasPrefix (Clean p) "."); reflexivity.
Qed.

(** The stored local path of a stored local path is itself. *)
Lemma stored_local_path_idempotent p :
  stored_local_path (stored_local_path p) = stored_local_path p.
Proof.
  rewrite (stored_local_path_unfold p).
  destruct (IsAbs p) eqn:E.
  - rewrite stored_local_path_unfold, Clean_IsAbs, E. apply Clean_idempotent.
  - destruct (strings.HasPrefix (Clean p) ".") eqn:E2.
    + rewrite stored_local_path_unfold, Clean_IsAbs, E, Clean_idempotent, E2.
      reflexivity.
    + rewrite stored_local_path_unfold. cbn [IsAbs].
      change (Ascii.eqb dot slash) with false. cbv iota.
      rewrite Clean_dot_slash; [|apply Clean_nonempty|now rewrite Clean_IsAbs].
      rewrite Clean_idempotent, E2. reflexivity.
Qed.

Lemma stored_local_path_count_byte c p :
  c <> slash -> c <> dot -> count_byte c p = 0 ->
  count_byte c (stored_local_path p) = 0.
Proof.
  intros Hs Hd H. unfold stored_local_path.
  destruct (IsAbs p); [now apply Clean_count_byte|].
  cbv zeta. destruct (negb (strings.HasPrefix (Clean p) ".")).
  - change ("./" ++ Clean p)%string with (String dot (String slash (Clean p))).
    cbn [count_byte].
    replace (Ascii.eqb dot c) with false by (symmetry; apply Ascii.eqb_neq; congruence).
    replace (Ascii.eqb slash c) with false by (symmetry; apply Ascii.eqb_neq; congruence).
    now apply Clean_count_byte.
  - now apply Clean_count_byte.
Qed.

(** Parsing the rendering of a parsed local reference gives the reference
    back. *)
Theorem parse_render_local (p n : string) (t : Target) :
  count_byte plus p = 0 ->
  ParseTarget (p ++ "+" ++ n)%string = Ok t ->
  IsRemote t = false ->
  ParseTarget (Target_String t) = Ok t.
Proof.
  intros Hp Hparse Hloc.
  destruct p as [|a p'] eqn:Ep.
  - change ("" ++ "+" ++ n)%string with ("+" ++ n)%string in Hparse.
    rewrite ParseTarget_local_internal in Hparse. injection Hparse as <-.
    apply ParseTarget_local_internal.
  - rewrite <- Ep in *.
    assert (Hne : p <> EmptyString) by (subst; discriminate).
    destruct (strings.HasPrefix p "." || strings.HasPrefix p "/") eqn:Hl.
    + rewrite ParseTarget_local_external in Hparse by assumption.
      injection Hparse as <-.
      unfold Target_String. cbn [LocalPath TargetName].
      destruct (IsLocalExternal (mkTarget "" "" "" (stored_local_path p) n)) eqn:He.
      * rewrite ParseTarget_local_external.
        -- now rewrite stored_local_path_idempotent.
        -- apply stored_local_path_count_byte; [discriminate|discriminate|exact Hp].
        -- apply stored_local_path_local.
      * rewrite Hloc.
        unfold IsRemote in Hloc. rewrite He in Hloc. cbn [negb andb] in Hloc.
        apply negb_false_iff in Hloc. unfold IsLocalInternal in Hloc.
        cbn [LocalPath] in Hloc. apply String.eqb_eq in Hloc. rewrite Hloc.
        apply ParseTarget_local_internal.
    + rewrite ParseTarget_remote in Hparse by assumption.
      cbv zeta in Hparse.
      destruct (parseGitURLandPath _) as [[g sp]| |]; try discriminate.
      simpl in Hparse. injection Hparse as <-. discriminate Hloc.
Qed.

End CleanFacts.

(** * Remote references: parse, then render *)

Section RemoteFacts.
Import domain.

Lemma slice_to_length n s : String.length (strings.slice_to n s) <= String.length s.
Proof.
  revert s; induction n as [|n IH]; intros [|a s]; simpl; try lia.
  specialize (IH s). lia.
Qed.

Lemma slice_to_count c n s : count_byte c (strings.slice_to n s) <= count_byte c s.
Proof.
  revert s; induction n as [|n IH]; intros [|a s]; simpl; try lia.
  specialize (IH s). lia.
Qed.

Lemma slice_from_length n s :
  String.length (strings.slice_from n s) = String.length s - n.
Proof. revert s; induction n as [|n IH]; intros [|a s]; simpl; try lia. apply IH. Qed.

Lemma slice_from_count c n s : count_byte c (strings.slice_from n s) <= count_byte c s.
Proof.
  revert s; induction n as [|n IH]; intros [|a s]; simpl; try lia.
  specialize (IH s). lia.
Qed.

Lemma FindString_from_length r rs s :
  String.length (regexp.FindString_from r rs s) <= String.length s.
Proof.
  revert s. induction rs as [|[c w] rs IH]; intros s; cbn [regexp.FindString_from].
  - destruct (regexp.match_here r []); [apply slice_to_length | simpl; lia].
  - destruct (regexp.match_here r ((c, w) :: rs)); [apply slice_to_length|].
    specialize (IH (strings.slice_from w s)). rewrite slice_from_length in IH. lia.
Qed.

Lemma FindString_from_count a r rs s :
  count_byte a (regexp.FindString_from r rs s) <= count_byte a s.
Proof.
  revert s. induction rs as [|[c w] rs IH]; intros s; cbn [regexp.FindString_from].
  - destruct (regexp.match_here r []); [apply slice_to_count | simpl; lia].
  - destruct (regexp.match_here r ((c, w) :: rs)); [apply slice_to_count|].
    specialize (IH (strings.slice_from w s)).
    pose proof (slice_from_count a w s). lia.
Qed.

Lemma FindString_length r s : String.length (regexp.FindString r s) <= String.length s.
Proof. apply FindString_from_length. Qed.

Lemma FindString_count c r s : count_byte c (regexp.FindString r s) <= count_byte c s.
Proof. apply FindString_from_count. Qed.

(** What [parseGitURLandPath] returns: the empty pair, or a match that is
    not empty and the bytes of the path from the length of the match on. *)
Lemma parseGitURLandPath_range_result ms p g sp :
  parseGitURLandPath_range ms p = Ok (g, sp) ->
  (g = "" /\ sp = "")
  \/ (g <> "" /\ String.length g <= String.length p
      /\ count_byte colon g <= count_byte colon p
      /\ sp = strings.slice_from (String.length g) p).
Proof.
  induction ms as [|m ms IH]; simpl; intros H.
  - injection H as <- <-. now left.
  - destruct (regexp.Compile (pattern m)) as [r|]; [|discriminate].
    destruct (String.eqb (regexp.FindString r p) "") eqn:E; simpl in H.
    + now apply IH.
    + injection H as <- <-. right. apply String.eqb_neq in E.
      repeat split; [exact E | apply FindString_length | apply FindString_count].
Qed.

Lemma render_remote (g sp tag n : string) :
  Target_String (mkTarget g sp tag "" n)
  = g ++ "/" ++ sp ++ (if String.eqb tag "" then "" else ":" ++ tag) ++ "+" ++ n.
Proof. reflexivity. Qed.

(** The rendering of a parsed Remote reference is never the string that
    was parsed. *)
Theorem remote_never_round_trips (p n : string) (t : Target) :
  count_byte plus p = 0 ->
  ParseTarget (p ++ "+" ++ n) = Ok t ->
  IsRemote t = true ->
  Target_String t <> p ++ "+" ++ n.
Proof.
  intros Hp Hparse Hrem Heq.
  destruct p as [|a p'] eqn:Ep.
  { change ("" ++ "+" ++ n) with ("+" ++ n) in Hparse.
    rewrite ParseTarget_local_internal in Hparse. injection Hparse as <-.
    discriminate Hrem. }
  rewrite <- Ep in *.
  assert (Hne : p <> "") by (subst; discriminate).
  destruct (strings.HasPrefix p "." || strings.HasPrefix p "/") eqn:Hl.
  { rewrite ParseTarget_local_external in Hparse by assumption.
    injection Hparse as <-. apply IsRemote_iff in Hrem. cbn [LocalPath] in Hrem.
    now apply stored_local_path_nonempty in Hrem. }
  apply orb_false_iff in Hl as [Hdot Hsl].
  assert (Hl : strings.HasPrefix p "." || strings.HasPrefix p "/" = false)
    by now rewrite Hdot, Hsl.
  assert (Hnoslash : forall x, p <> String "/" x).
  { intros x ->. unfold strings.HasPrefix in Hsl. rewrite prefix_byte in Hsl.
    discriminate Hsl. }
  rewrite ParseTarget_remote in Hparse by assumption. cbv zeta in Hparse.
  assert (Hsplit :
    (strings.SplitN p ":" 2 = [p] /\ count_byte colon p = 0)
    \/ exists pa tg, p = pa ++ ":" ++ tg /\ count_byte colon pa = 0
                     /\ strings.SplitN p ":" 2 = [pa; tg]).
  { destruct (count_byte colon p) eqn:Ec.
    - left. split; [now apply (SplitN_2_none colon)|reflexivity].
    - right. destruct (first_occurrence colon p) as (pa & tg & Hpe & Hpa & _); [lia|].
      exists pa, tg. repeat split; try assumption.
      rewrite Hpe. now apply (SplitN_2_first colon). }
  destruct Hsplit as [[Hs Hc]|(pa & tg & Hpe & Hpa & Hs)];
    rewrite Hs in Hparse; cbn [hd] in Hparse.
  - (* no colon in the prefix *)
    destruct (parseGitURLandPath p) as [[g sp]| |] eqn:Eg; try discriminate.
    cbn [bind fst snd] in Hparse. injection Hparse as <-.
    rewrite render_remote in Heq. cbn [String.eqb] in Heq.
    apply parseGitURLandPath_range_result in Eg.
    change (g ++ "/" ++ sp ++ "" ++ "+" ++ n) with (g ++ "/" ++ sp ++ "+" ++ n) in Heq.
    replace (g ++ "/" ++ sp ++ "+" ++ n) with ((g ++ "/" ++ sp) ++ "+" ++ n) in Heq
      by (rewrite !append_assoc; reflexivity).
    apply append_cancel_r in Heq.
    destruct Eg as [[-> ->]|(Hg & Hlen & _ & ->)].
    + symmetry in Heq. now apply Hnoslash in Heq.
    + apply (f_equal String.length) in Heq. rewrite !length_append in Heq.
      cbn [String.length] in Heq. rewrite slice_from_length in Heq. lia.
  - (* a colon: path [pa], tag [tg] *)
    destruct (parseGitURLandPath pa) as [[g sp]| |] eqn:Eg; try discriminate.
    cbn [bind fst snd] in Hparse. injection Hparse as <-.
    rewrite render_remote in Heq.
    apply parseGitURLandPath_range_result in Eg.
    replace (g ++ "/" ++ sp ++ (if String.eqb tg "" then "" else ":" ++ tg) ++ "+" ++ n)
      with ((g ++ "/" ++ sp ++ (if String.eqb tg "" then "" else ":" ++ tg)) ++ "+" ++ n)
      in Heq by (rewrite !append_assoc; reflexivity).
    apply append_cancel_r in Heq.
    destruct (String.eqb tg "") eqn:Et.
    + (* empty tag: the colon is not rendered *)
      apply String.eqb_eq in Et. subst tg.
      apply (f_equal (count_byte colon)) in Heq.
      rewrite Hpe, !count_byte_append in Heq. cbn [count_byte] in Heq.
      change (Ascii.eqb "/"%char colon) with false in Heq.
      change (Ascii.eqb ":"%char colon) with true in Heq.
      destruct Eg as [[-> ->]|(Hg & _ & Hcg & ->)].
      * simpl in Heq. lia.
      * pose proof (slice_from_count colon (String.length g) pa). lia.
    + replace (g ++ "/" ++ sp ++ ":" ++ tg) with ((g ++ "/" ++ sp) ++ ":" ++ tg) in Heq
        by (rewrite !append_assoc; reflexivity).
      rewrite Hpe in Heq. apply append_cancel_r in Heq.
      destruct Eg as [[-> ->]|(Hg & Hlen & _ & ->)].
      * subst pa. apply (Hnoslash (":" ++ tg)). exact Hpe.
      * apply (f_equal String.length) in Heq. rewrite !length_append in Heq.
        cbn [String.length] in Heq. rewrite slice_from_length in Heq. lia.
Qed.

End RemoteFacts.

(** * The claims on target references *)

Section TargetClaims.
Import domain Examples.

(** Under a remote caller every non-remote reference meets the
    [panic("TODO")]. *)
Lemma JoinTargets_remote_caller (target1 target2 : Target) :
  IsRemote target1 = true -> IsRemote target2 = false ->
  JoinTargets target1 target2 = Panicked "TODO".
Proof. intros H1 H2. unfold JoinTargets. rewrite H1, H2. reflexivity. Qed.

(** C1.  At the inputs of scenario S4 (a remote caller; a LocalExternal
    reference with the relative path [./sub], then with the absolute
    path [/sub]) [JoinTargets] neither returns the joined remote
    reference nor the error for the absolute path: it panics with
    ["TODO"]. *)
Theorem C1_join_under_remote_caller_panics :
  IsRemote s4_caller = true
  /\ IsLocalExternal s4_ref = true /\ path.IsAbs (LocalPath s4_ref) = false
  /\ JoinTargets s4_caller s4_ref = Panicked "TODO"
  /\ IsLocalExternal s4_ref_abs = true /\ path.IsAbs (LocalPath s4_ref_abs) = true
  /\ JoinTargets s4_caller s4_ref_abs = Panicked "TODO".
Proof. repeat split. Qed.

(** C3.  Parsing ["github.com/acme/widgets:v1.2+release"] gives the
    remote reference of the scenario, and its canonical rendering is
    ["github.com/acme/widgets/:v1.2+release"], with a slash before the
    colon, which is not the input. *)
Theorem C3_remote_parse_then_canonical :
  ParseTarget s3_input = Ok s3_ref
  /\ IsRemote s3_ref = true
  /\ StringCanonical s3_ref = "github.com/acme/widgets/:v1.2+release"
  /\ StringCanonical s3_ref <> s3_input.
Proof.
  split; [vm_compute; reflexivity|].
  split; [reflexivity|].
  split; [reflexivity|].
  vm_compute. discriminate.
Qed.

(** A remote path that no pattern accepts gives the empty pair and no
    error. *)
Lemma parseGitURLandPath_unmatched (p : string) :
  no_matcher_accepts p = true -> parseGitURLandPath p = Ok ("", "").
Proof.
  unfold no_matcher_accepts, parseGitURLandPath.
  induction matchers as [|m ms IH]; simpl; intros H; [reflexivity|].
  apply andb_true_iff in H as [Hm Hms].
  destruct (regexp.Compile (pattern m)) as [r|]; [|discriminate].
  rewrite Hm. simpl. apply IH, Hms.
Qed.

(** Every remote prefix that no pattern accepts parses to a reference
    whose remote fields, the tag apart, are empty. *)
Lemma ParseTarget_unmatched_remote (p n : string) :
  count_byte plus p = 0 ->
  p <> "" ->
  strings.HasPrefix p "." || strings.HasPrefix p "/" = false ->
  no_matcher_accepts (hd "" (strings.SplitN p ":" 2)) = true ->
  exists tag, ParseTarget (p ++ "+" ++ n) = Ok (mkTarget "" "" tag "" n).
Proof.
  intros Hp Hne Hl Hm.
  rewrite ParseTarget_remote by assumption. cbv zeta.
  rewrite (parseGitURLandPath_unmatched _ Hm). simpl. eauto.
Qed.

(** C4.  The prefix [example.org/foo/bar] is a remote path that no
    matcher pattern accepts, and [ParseTarget] returns a reference for
    it, with every remote field empty, instead of an error. *)
Theorem C4_unmatched_remote_prefix_parses :
  strings.HasPrefix "example.org/foo/bar" "." = false
  /\ strings.HasPrefix "example.org/foo/bar" "/" = false
  /\ no_matcher_accepts "example.org/foo/bar" = true
  /\ ParseTarget unknown_host_input = Ok (mkTarget "" "" "" "" "build").
Proof. repeat split; vm_compute; reflexivity. Qed.

(** C5.  Under a local caller [JoinTargets] returns the reference with
    only its local path changed: an absolute LocalExternal path is
    cleaned, a relative one is joined onto the caller's local path and
    gets [./] in front unless the join begins with a dot, a LocalInternal
    reference takes the caller's local path, and a Remote reference is
    returned as it is. *)
Theorem C5_join_under_local_caller (caller ref : Target) :
  IsRemote caller = false ->
  exists ret,
    JoinTargets caller ref = Ok ret
    /\ GitURL ret = GitURL ref /\ GitPath ret = GitPath ref
    /\ Tag ret = Tag ref /\ TargetName ret = TargetName ref
    /\ (IsLocalExternal ref = true -> path.IsAbs (LocalPath ref) = true ->
        LocalPath ret = path.Clean (LocalPath ref))
    /\ (IsLocalExternal ref = true -> path.IsAbs (LocalPath ref) = false ->
        let joined := path.Join [LocalPath caller; LocalPath ref] in
        LocalPath ret = if strings.HasPrefix joined "." then joined
                        else "./" ++ joined)
    /\ (IsLocalInternal ref = true -> LocalPath ret = LocalPath caller)
    /\ (IsRemote ref = true -> ret = ref).
Proof.
  intros Hc. unfold JoinTargets. rewrite Hc.
  destruct (origin_exclusive ref) as [(Hi & He & Hr)|[(Hi & He & Hr)|(Hi & He & Hr)]];
    rewrite He; try rewrite Hi.
  - eexists; split; [reflexivity|]. simpl.
    repeat split; intros; try congruence; reflexivity.
  - destruct (path.IsAbs (LocalPath ref)) eqn:Ha.
    + eexists; split; [reflexivity|]. simpl.
      repeat split; intros; try congruence; reflexivity.
    + cbn [LocalPath set_LocalPath].
      destruct (strings.HasPrefix (path.Join [LocalPath caller; LocalPath ref]) ".");
        simpl; eexists; (split; [reflexivity|]); simpl;
        repeat split; intros; try congruence; reflexivity.
  - eexists; split; [reflexivity|].
    repeat split; intros; try congruence; reflexivity.
Qed.

(** C5 at the caller [./a] and the reference [./sub+t]: the joined local
    path is [./a/sub]. *)
Lemma C5_join_under_local_caller_witness :
  IsRemote (mkTarget "" "" "" "./a" "x") = false
  /\ exists ret,
    JoinTargets (mkTarget "" "" "" "./a" "x") s4_ref = Ok ret
    /\ LocalPath ret = "./a/sub".
Proof.
  split; [reflexivity|].
  destruct (C5_join_under_local_caller (mkTarget "" "" "" "./a" "x") s4_ref eq_refl)
    as (ret & Hj & _ & _ & _ & _ & _ & Hrel & _).
  exists ret. split; [exact Hj|]. exact (Hrel eq_refl eq_refl).
Defined.

(** A remote path that some pattern accepts gives a [GitURL] that is not
    empty. *)
Lemma parseGitURLandPath_range_matched (ms : list gitMatcher) (p : string) :
  forallb (fun m => match regexp.Compile (pattern m) with Some _ => true | None => false end)
    ms = true ->
  forallb
    (fun m => match regexp.Compile (pattern m) with
              | Some r => String.eqb (regexp.FindString r p) ""
              | None => false
              end) ms = false ->
  exists gitURL gitPath,
    parseGitURLandPath_range ms p = Ok (gitURL, gitPath) /\ gitURL <> "".
Proof.
  induction ms as [|m ms IH]; simpl; intros Hc Hm; [discriminate|].
  apply andb_true_iff in Hc as [Hc Hcs].
  destruct (regexp.Compile (pattern m)) as [r|]; [|discriminate].
  destruct (String.eqb (regexp.FindString r p) "") eqn:E; simpl in *.
  - apply IH; assumption.
  - apply String.eqb_neq in E. eauto.
Qed.

(** The invariant of the data model on parsed references: the only
    parsed reference outside the three classes is the Remote one whose
    path no pattern accepts. *)
Lemma parsed_reference_classes (p n : string) (t : Target) :
  count_byte plus p = 0 ->
  ParseTarget (p ++ "+" ++ n) = Ok t ->
  IsLocalInternal t = true
  \/ (IsLocalExternal t = true /\ LocalPath t <> "" /\ LocalPath t <> ".")
  \/ (IsRemote t = true /\ GitURL t <> "")
  \/ (IsRemote t = true /\ GitURL t = ""
      /\ no_matcher_accepts (hd "" (strings.SplitN p ":" 2)) = true).
Proof.
  intros Hp Hparse.
  destruct p as [|a p'] eqn:Ep.
  - change ("" ++ "+" ++ n) with ("+" ++ n) in Hparse.
    rewrite ParseTarget_local_internal in Hparse. injection Hparse as <-. now left.
  - rewrite <- Ep in *.
    assert (Hne : p <> "") by (subst; discriminate).
    destruct (strings.HasPrefix p "." || strings.HasPrefix p "/") eqn:Hl.
    + rewrite ParseTarget_local_external in Hparse by assumption.
      injection Hparse as <-.
      unfold IsLocalInternal, IsLocalExternal. cbn [LocalPath].
      destruct (String.eqb (stored_local_path p) ".") eqn:E1; [now left|].
      right. left.
      pose proof (stored_local_path_nonempty p) as Hs.
      apply String.eqb_neq in E1.
      replace (String.eqb (stored_local_path p) "") with false
        by (symmetry; now apply String.eqb_neq).
      repeat split; assumption.
    + rewrite ParseTarget_remote in Hparse by assumption.
      cbv zeta in Hparse. right. right.
      destruct (no_matcher_accepts (hd "" (strings.SplitN p ":" 2))) eqn:Em.
      * rewrite (parseGitURLandPath_unmatched _ Em) in Hparse.
        simpl in Hparse. injection Hparse as <-. right. repeat split.
      * destruct (parseGitURLandPath_range_matched matchers
                    (hd "" (strings.SplitN p ":" 2)) matchers_compile Em)
          as (g & sp & Hg & Hgne).
        unfold parseGitURLandPath in Hparse. rewrite Hg in Hparse.
        simpl in Hparse. injection Hparse as <-. left. split; [reflexivity|exact Hgne].
Qed.

(** C6.  The reference parsed from ["example.org/foo/bar+build"] is of
    the Remote origin and its [GitURL] is empty: it is in none of the
    three classes of the invariant. *)
Theorem C6_parsed_remote_with_empty_git_url :
  exists t,
    ParseTarget unknown_host_input = Ok t
    /\ IsLocalInternal t = false
    /\ IsLocalExternal t = false
    /\ IsRemote t = true
    /\ GitURL t = "".
Proof.
  exists (mkTarget "" "" "" "" "build").
  repeat split; vm_compute; reflexivity.
Qed.

(** C9.  For the remote reference [r] of scenario S3 the canonical
    rendering is ["github.com/acme/widgets/:v1.2+release"]; parsing it
    and rendering again gives ["github.com/acme/widgets//:v1.2+release"],
    one slash longer. *)
Theorem C9_canonical_of_remote_not_stable :
  StringCanonical s3_ref = "github.com/acme/widgets/:v1.2+release"
  /\ ParseTarget (StringCanonical s3_ref)
     = Ok (mkTarget "github.com/acme/widgets" "/" "v1.2" "" "release")
  /\ StringCanonical (mkTarget "github.com/acme/widgets" "/" "v1.2" "" "release")
     = "github.com/acme/widgets//:v1.2+release"
  /\ StringCanonical (mkTarget "github.com/acme/widgets" "/" "v1.2" "" "release")
     <> StringCanonical s3_ref.
Proof.
  split; [reflexivity|].
  split; [vm_compute; reflexivity|].
  split; [reflexivity|].
  vm_compute. discriminate.
Qed.

(** C10.  A string with two or more [+] parses: it is cut at its first
    [+], and all that follows, further [+] included, is the target
    name. *)
Theorem C10_parse_splits_at_first_plus (s : string) :
  2 <= count_byte plus s ->
  exists p n t,
    s = p ++ "+" ++ n
    /\ count_byte plus p = 0
    /\ 1 <= count_byte plus n
    /\ ParseTarget s = Ok t
    /\ TargetName t = n.
Proof.
  intros H.
  destruct (first_occurrence plus s) as (p & n & -> & Hp & Hn); [lia|].
  destruct (ParseTarget_total p n Hp) as (t & Ht & Hname).
  exists p, n, t. repeat split; try assumption. lia.
Qed.

(** C10 at ["./a+b+c"]. *)
Lemma C10_parse_splits_at_first_plus_witness :
  2 <= count_byte plus "./a+b+c"
  /\ exists p n t,
    "./a+b+c" = p ++ "+" ++ n
    /\ count_byte plus p = 0
    /\ 1 <= count_byte plus n
    /\ ParseTarget "./a+b+c" = Ok t
    /\ TargetName t = n.
Proof.
  split; [vm_compute; lia|].
  apply (C10_parse_splits_at_first_plus "./a+b+c"). vm_compute; lia.
Defined.

(** Scenarios S1 and S2: parse, then render. *)
Example S1_local_internal :
  ParseTarget "+build" = Ok (mkTarget "" "" "" "." "build")
  /\ Target_String (mkTarget "" "" "" "." "build") = "+build".
Proof. split; vm_compute; reflexivity. Qed.

Example S2_local_external :
  ParseTarget "./sub/dir+test" = Ok (mkTarget "" "" "" "./sub/dir" "test")
  /\ Target_String (mkTarget "" "" "" "./sub/dir" "test") = "./sub/dir+test".
Proof. split; vm_compute; reflexivity. Qed.

(** C2, as stated, fails: ["./a/../b+t"] holds no whitespace and parses
    to a LocalExternal reference that renders as ["./b+t"]; squeezing
    whitespace changes neither string. *)
Lemma C2_render_parse_unclean_prefix :
  ParseTarget "./a/../b+t" = Ok (mkTarget "" "" "" "./b" "t")
  /\ IsLocalExternal (mkTarget "" "" "" "./b" "t") = true
  /\ Target_String (mkTarget "" "" "" "./b" "t") = "./b+t"
  /\ Spec.squeeze "./a/../b+t" = "./a/../b+t"
  /\ Spec.squeeze (Target_String (mkTarget "" "" "" "./b" "t"))
     <> Spec.squeeze "./a/../b+t".
Proof.
  split; [vm_compute; reflexivity|].
  split; [reflexivity|].
  split; [reflexivity|].
  split; [reflexivity|].
  vm_compute. discriminate.
Qed.

(** The remote fields of a parsed local reference are empty. *)
Lemma parsed_local_GitURL (p n : string) (t : Target) :
  count_byte plus p = 0 ->
  ParseTarget (p ++ "+" ++ n) = Ok t ->
  IsRemote t = false ->
  GitURL t = "".
Proof.
  intros Hp Hparse Hloc.
  destruct p as [|a p'] eqn:Ep.
  - change ("" ++ "+" ++ n) with ("+" ++ n) in Hparse.
    rewrite ParseTarget_local_internal in Hparse. now injection Hparse as <-.
  - rewrite <- Ep in *.
    assert (Hne : p <> "") by (subst; discriminate).
    destruct (strings.HasPrefix p "." || strings.HasPrefix p "/") eqn:Hl.
    + rewrite ParseTarget_local_external in Hparse by assumption.
      now injection Hparse as <-.
    + rewrite ParseTarget_remote in Hparse by assumption.
      cbv zeta in Hparse.
      destruct (parseGitURLandPath _) as [[g sp]| |]; try discriminate.
      simpl in Hparse. injection Hparse as <-. discriminate Hloc.
Qed.

(** On a parsed local reference the canonical rendering is the rendering,
    and parsing it gives the reference back: rendering it again gives the
    same string. *)
Lemma canonical_stable_on_parsed_local (p n : string) (t : Target) :
  count_byte plus p = 0 ->
  ParseTarget (p ++ "+" ++ n) = Ok t ->
  IsRemote t = false ->
  StringCanonical t = Target_String t
  /\ ParseTarget (StringCanonical t) = Ok t.
Proof.
  intros Hp Hparse Hloc.
  assert (Hc : StringCanonical t = Target_String t).
  { unfold StringCanonical.
    now rewrite (parsed_local_GitURL p n t Hp Hparse Hloc). }
  split; [exact Hc|]. rewrite Hc.
  exact (parse_render_local p n t Hp Hparse Hloc).
Qed.

(** C2, amended.  Let [s] be [p + "+" + n] with no [+] in [p], parsed to
    a local reference [t] (LocalInternal or LocalExternal).  The rendering
    of [t] parses back to [t]: it is the normal form of [s].  It is [s]
    itself, byte for byte, exactly when [p] is empty or [t] is
    LocalExternal and [p] already is the local path that parse stores; a
    LocalExternal [t] renders as the stored path, [+] and the name. *)
Theorem C2_render_parse_local (p n : string) (t : Target) :
  count_byte plus p = 0 ->
  ParseTarget (p ++ "+" ++ n) = Ok t ->
  IsRemote t = false ->
  ParseTarget (Target_String t) = Ok t
  /\ (Target_String t = p ++ "+" ++ n
      <-> p = "" \/ (IsLocalExternal t = true /\ LocalPath t = p))
  /\ (IsLocalExternal t = true ->
      LocalPath t = stored_local_path p
      /\ Target_String t = stored_local_path p ++ "+" ++ n).
Proof.
  intros Hp Hparse Hloc.
  split; [exact (parse_render_local p n t Hp Hparse Hloc)|].
  destruct p as [|a p'] eqn:Ep.
  - change ("" ++ "+" ++ n) with ("+" ++ n) in *.
    rewrite ParseTarget_local_internal in Hparse. injection Hparse as <-.
    split; [split; [auto | reflexivity] | discriminate].
  - rewrite <- Ep in *.
    assert (Hne : p <> "") by (subst; discriminate).
    destruct (strings.HasPrefix p "." || strings.HasPrefix p "/") eqn:Hl.
    + rewrite ParseTarget_local_external in Hparse by assumption.
      injection Hparse as <-.
      unfold Target_String. cbn [LocalPath TargetName].
      destruct (IsLocalExternal (mkTarget "" "" "" (stored_local_path p) n)) eqn:He.
      * split; [|auto]. split.
        -- intros H. right. split; [reflexivity|].
           now apply append_cancel_r in H.
        -- intros [H|[_ H]]; [contradiction | now rewrite H].
      * rewrite Hloc. split; [|discriminate]. split.
        -- intros H. left. symmetry.
           apply (append_cancel_r "" p ("+" ++ n)). exact H.
        -- intros [H|[H _]]; [contradiction | discriminate].
    + rewrite ParseTarget_remote in Hparse by assumption.
      cbv zeta in Hparse.
      destruct (parseGitURLandPath _) as [[g sp]| |]; try discriminate.
      simpl in Hparse. injection Hparse as <-.
      discriminate Hloc.
Qed.

(** C2, amended, at ["./a/../b+t"]: the rendering of the parsed reference
    parses back to it. *)
Lemma C2_render_parse_local_witness :
  count_byte plus "./a/../b" = 0
  /\ ParseTarget ("./a/../b" ++ "+" ++ "t") = Ok (mkTarget "" "" "" "./b" "t")
  /\ IsRemote (mkTarget "" "" "" "./b" "t") = false
  /\ ParseTarget (Target_String (mkTarget "" "" "" "./b" "t"))
     = Ok (mkTarget "" "" "" "./b" "t").
Proof.
  assert (Hparse : ParseTarget ("./a/../b" ++ "+" ++ "t")
                   = Ok (mkTarget "" "" "" "./b" "t"))
    by (vm_compute; reflexivity).
  split; [reflexivity|]. split; [exact Hparse|]. split; [reflexivity|].
  exact (proj1 (C2_render_parse_local "./a/../b" "t" _ eq_refl Hparse eq_refl)).
Defined.

End TargetClaims.

(** * The claims on the lexer *)

Section LexerClaims.
Import antlr earthfile2llb Examples.

(** The queue is first in, first out: what [flush] returns, followed by
    the queue it leaves, is the old queue followed by [peek]. *)
Lemma flush_fifo (l : lexer) (peek : Token) :
  fst (flush l peek peek) :: tokenQueue (snd (flush l peek peek))
  = (tokenQueue l ++ [peek])%list.
Proof.
  unfold flush. destruct (tokenQueue l) eqn:E; simpl; rewrite ?E; reflexivity.
Qed.


(** The here-document branch with an input whose 19 bytes after the
    opening line hold no ["EOF"]. *)
Lemma heredoc_branch_no_EOF (l : lexer) (peek : Token) (s : string) :
  GetText (input (EarthLexer l)) (int_add (start peek) 6)
    (int_add (int_add (start peek) 6) 18) = Ok s ->
  strings.Index s "EOF" = None ->
  heredoc_branch l peek = Panicked "EOF not found".
Proof.
  intros Hs Hi. unfold heredoc_branch.
  change (Z.of_nat (String.length ("<<" ++ "EOF" ++ nl))) with 6%Z.
  change (int_sub 19 1) with 18%Z.
  rewrite Hs. cbn [bind]. rewrite Hi. reflexivity.
Qed.

(** The branch at work: delimiter [EOF], a body within the window. *)
Example heredoc_EOF_short_body :
  exists ret l,
    NextToken (table_NextToken heredoc_table) (before_heredoc heredoc_EOF)
    = Ok (ret, l)
    /\ tokenType ret = EarthLexerAtom
    /\ text ret = "hello" ++ nl
    /\ index (input (EarthLexer l)) = 23%Z
    /\ mode (EarthLexer l) = 0%Z.
Proof. do 2 eexists. split; [vm_compute; reflexivity|]. repeat split. Qed.

(** C7.  With the delimiter [END] the wrapper hands out the four tokens
    before the atom [<<END] and then panics with ["EOF not found"]: no
    body token, no move of the cursor.  With the delimiter [EOF] and a
    body line of 20 bytes it panics in the same way. *)
Theorem C7_heredoc_other_tag_or_long_body_panics :
  tokens (table_NextToken heredoc_table) 4 (newLexer (mkInputStream heredoc_END 0))
  = Ok ([tk (Other 0) 0 2; tk EarthLexerWS 3 3; tk EarthLexerAtom 4 6;
         tk EarthLexerWS 7 7], before_heredoc heredoc_END)
  /\ Token_GetText (mkInputStream heredoc_END 13) (tk EarthLexerAtom 8 12)
     = Ok "<<END"
  /\ NextToken (table_NextToken heredoc_table) (before_heredoc heredoc_END)
     = Panicked "EOF not found"
  /\ tokens (table_NextToken heredoc_table) 5 (newLexer (mkInputStream heredoc_END 0))
     = Panicked "EOF not found"
  /\ Token_GetText (mkInputStream heredoc_EOF_long 13) (tk EarthLexerAtom 8 12)
     = Ok "<<EOF"
  /\ tokens (table_NextToken heredoc_table) 5
       (newLexer (mkInputStream heredoc_EOF_long 0))
     = Panicked "EOF not found".
Proof. repeat split; vm_compute; reflexivity. Qed.

(** Scenario S6 on the wrapper: a header at column 0 and two body lines
    at column 4. *)
Example S6_indentation :
  exists ts l,
    tokens
      (table_NextToken
         [ (tk EarthLexerAtom 0 5, [1%Z]); (tk EarthLexerNL 6 6, []);
           (tk EarthLexerWS 7 10, []); (tk EarthLexerAtom 11 11, []);
           (tk EarthLexerNL 12 12, []);
           (tk EarthLexerWS 13 16, []); (tk EarthLexerAtom 17 17, []);
           (tk EarthLexerNL 18 18, []) ])
      11
      (newLexer (mkInputStream
                   ("build:" ++ nl ++ "    x" ++ nl ++ "    y" ++ nl) 0))
    = Ok (ts, l)
    /\ map tokenType ts
       = [EarthLexerAtom; EarthLexerNL; EarthLexerWS; EarthLexerINDENT;
          EarthLexerAtom; EarthLexerNL; EarthLexerWS; EarthLexerAtom;
          EarthLexerNL; EarthLexerDEDENT; TokenEOF].
Proof. do 2 eexists. split; [vm_compute; reflexivity|]. reflexivity. Qed.


Section Step.

Variable next : BaseLexer -> Token * BaseLexer.
Variables (l : lexer) (peek : Token) (b : BaseLexer).
Hypothesis Hnext : next (EarthLexer l) = (peek, b).

(** On a token of the [default] case that opens no here-document the
    wrapper runs the indentation step and then the queue. *)
Lemma NextToken_plain_content :
  plain_content b peek = true ->
  NextToken next l
  = (l1 <- indentation (set_EarthLexer l b) ;; Ok (flush l1 peek peek)).
Proof.
  unfold plain_content, NextToken. rewrite Hnext. intros H.
  apply andb_true_iff in H as [Hc Ha].
  destruct (tokenType peek); try discriminate Hc; try reflexivity.
  cbn [is_Atom] in *. cbn [input EarthLexer set_EarthLexer].
  destruct (Token_GetText (input b) peek) as [s| |]; try discriminate Ha.
  cbn [bind]. apply negb_true_iff in Ha. rewrite Ha. reflexivity.
Qed.

Lemma NextToken_WS :
  tokenType peek = EarthLexerWS ->
  NextToken next l
  = Ok (flush
          (set_ws (if afterNewLine l
                   then set_indentLevel (set_EarthLexer l b)
                          (int_add (indentLevel l) 1)
                   else set_EarthLexer l b) peek) peek peek).
Proof. unfold NextToken. rewrite Hnext. intros ->. reflexivity. Qed.


End Step.




End LexerClaims.

(** * Further properties of the references *)

Section TargetExtras.
Import domain.

(** X1.  A reference has exactly one origin: it is LocalInternal,
    LocalExternal or Remote, and never two of them.  It is Remote exactly
    when its local path is empty and LocalInternal exactly when its local
    path is ["."]; it is external exactly when it is not LocalInternal. *)
Theorem X1_origins_partition (et : Target) :
  ((IsLocalInternal et = true /\ IsLocalExternal et = false /\ IsRemote et = false)
   \/ (IsLocalInternal et = false /\ IsLocalExternal et = true /\ IsRemote et = false)
   \/ (IsLocalInternal et = false /\ IsLocalExternal et = false /\ IsRemote et = true))
  /\ (IsRemote et = true <-> LocalPath et = "")
  /\ (IsLocalInternal et = true <-> LocalPath et = ".")
  /\ IsExternal et = negb (IsLocalInternal et).
Proof.
  split; [apply origin_exclusive|].
  split; [apply IsRemote_iff|].
  split; [apply String.eqb_eq|].
  unfold IsExternal.
  destruct (origin_exclusive et) as [(-> & -> & ->)|[(-> & -> & ->)|(-> & -> & ->)]];
    reflexivity.
Qed.

Lemma no_plus_not_Ok (s : string) :
  count_byte plus s = 0 -> ParseTarget s = Err ("Invalid target ref " ++ s).
Proof.
  intros H. unfold ParseTarget.
  change "+" with (String plus "").
  rewrite (SplitN_2_none plus s H). reflexivity.
Qed.

(** X2.  [ParseTarget] fails exactly on the strings that hold no [+],
    with the error ["Invalid target ref "] followed by the string; on
    every string that holds a [+] it returns a reference; it never
    panics. *)
Theorem X2_parse_fails_iff_no_plus (s : string) :
  (ParseTarget s = Err ("Invalid target ref " ++ s) <-> count_byte plus s = 0)
  /\ ((exists t, ParseTarget s = Ok t) <-> 1 <= count_byte plus s)
  /\ (forall msg, ParseTarget s <> Panicked msg).
Proof.
  assert (Hyes : 1 <= count_byte plus s -> exists t, ParseTarget s = Ok t).
  { intros H. destruct (first_occurrence plus s H) as (p & n & -> & Hp & _).
    destruct (ParseTarget_total p n Hp) as (t & Ht & _). now exists t. }
  split; [|split].
  - split; [|apply no_plus_not_Ok].
    intros H. destruct (count_byte plus s) eqn:E; [reflexivity|].
    destruct Hyes as [t Ht]; [lia|]. rewrite Ht in H. discriminate.
  - split; [|exact Hyes].
    intros [t Ht]. destruct (count_byte plus s) eqn:E; [|lia].
    rewrite (no_plus_not_Ok s E) in Ht. discriminate.
  - intros msg H. destruct (count_byte plus s) eqn:E.
    + rewrite (no_plus_not_Ok s E) in H. discriminate.
    + destruct Hyes as [t Ht]; [lia|]. rewrite Ht in H. discriminate.
Qed.


Lemma ends_with_slash_text (out : path.lazybuf) :
  ends_with_slash (path.string_of_lazybuf out)
  = match out with c :: _ => Ascii.eqb c path.slash | [] => false end.
Proof. unfold ends_with_slash. now rewrite text_bytes, rev_involutive. Qed.

Lemma Clean_trailing_slash (p : string) :
  ends_with_slash (path.Clean p) = true -> path.Clean p = "/".
Proof.
  destruct p as [|c0 rest] eqn:Ep; [discriminate|]. rewrite <- Ep.
  assert (Hne : p <> "") by (subst; discriminate).
  rewrite (Clean_unfold p Hne).
  destruct (clean_out_nf (fun _ => True) p) as (base & segs & Hb & Hs & Ho).
  { apply Forall_forall. auto. }
  destruct (clean_out p) as [|x o] eqn:E; [discriminate|].
  rewrite ends_with_slash_text. intros Hx. apply Ascii.eqb_eq in Hx. subst x.
  destruct segs as [|s segs].
  - cbn [buf] in Ho. destruct (path.IsAbs p); simpl in Hb.
    + subst base. injection Ho as ->. reflexivity.
    + destruct Hb as [k ->]. destruct k; [discriminate Ho|].
      cbn [dots] in Ho. injection Ho as H _. vm_compute in H. discriminate H.
  - exfalso. inversion Hs as [|? ? [(Hsne & Hsl & _) _] _]; subst.
    cbn [buf] in Ho. destruct s as [|y s]; [contradiction|].
    injection Ho as Hy _. apply Hsl. left. congruence.
Qed.

Lemma ends_with_slash_cons (a : ascii) (s : string) :
  s <> "" -> ends_with_slash (String a s) = ends_with_slash s.
Proof.
  intros Hne. unfold ends_with_slash. cbn [list_ascii_of_string rev].
  destruct (rev (list_ascii_of_string s)) eqn:E; [|reflexivity].
  apply (f_equal (@rev _)) in E. rewrite rev_involutive in E.
  destruct s; [contradiction|discriminate].
Qed.

(** X3.  A prefix without [+] that begins with [.] or [/] parses to a
    local reference named by all that follows the first [+].  The stored
    local path is absolute exactly when the prefix is; a stored path that
    is not absolute begins with [.]; a stored path ends in a slash only
    when it is the root ["/"]. *)
Theorem X3_parsed_local_path (p n : string) :
  count_byte plus p = 0 ->
  strings.HasPrefix p "." || strings.HasPrefix p "/" = true ->
  exists t,
    ParseTarget (p ++ "+" ++ n) = Ok t
    /\ TargetName t = n
    /\ IsRemote t = false
    /\ path.IsAbs (LocalPath t) = path.IsAbs p
    /\ (path.IsAbs p = false -> strings.HasPrefix (LocalPath t) "." = true)
    /\ (ends_with_slash (LocalPath t) = true -> LocalPath t = "/").
Proof.
  intros Hp Hl. exists (mkTarget "" "" "" (stored_local_path p) n).
  split; [now apply ParseTarget_local_external|]. split; [reflexivity|].
  cbn [LocalPath]. split.
  { destruct (IsRemote (mkTarget "" "" "" (stored_local_path p) n)) eqn:E; [|reflexivity].
    apply IsRemote_iff in E. now apply stored_local_path_nonempty in E. }
  split; [apply stored_local_path_IsAbs|].
  rewrite stored_local_path_unfold.
  destruct (path.IsAbs p) eqn:Ea.
  - split; [discriminate|apply Clean_trailing_slash].
  - destruct (strings.HasPrefix (path.Clean p) ".") eqn:Ed.
    + split; [intros _; exact Ed | apply Clean_trailing_slash].
    + split; [reflexivity|].
      rewrite !ends_with_slash_cons by (try discriminate; apply Clean_nonempty).
      intros H. apply Clean_trailing_slash in H.
      pose proof (Clean_IsAbs p) as Hc. rewrite H, Ea in Hc. discriminate.
Qed.

Lemma X3_parsed_local_path_witness :
  count_byte plus "./a//b/../c/" = 0
  /\ strings.HasPrefix "./a//b/../c/" "." || strings.HasPrefix "./a//b/../c/" "/" = true
  /\ exists t, ParseTarget ("./a//b/../c/" ++ "+" ++ "t") = Ok t /\ TargetName t = "t".
Proof.
  split; [reflexivity|]. split; [reflexivity|].
  destruct (X3_parsed_local_path "./a//b/../c/" "t" eq_refl eq_refl) as (t & H & Hn & _).
  exists t. split; assumption.
Defined.

(** X4.  Every reference that [ParseTarget] returns is LocalInternal, or
    LocalExternal with a local path other than the empty string and
    ["."], or Remote with a git URL, or Remote with neither a git URL nor
    a git path (no matcher found the host). *)
Theorem X4_parsed_reference_classes (s : string) (t : Target) :
  ParseTarget s = Ok t ->
  IsLocalInternal t = true
  \/ (IsLocalExternal t = true /\ LocalPath t <> "" /\ LocalPath t <> ".")
  \/ (IsRemote t = true /\ GitURL t <> "")
  \/ (IsRemote t = true /\ GitURL t = "" /\ GitPath t = "").
Proof.
  intros Hparse.
  assert (Hc : 1 <= count_byte plus s).
  { destruct (count_byte plus s) eqn:E; [|lia].
    rewrite (no_plus_not_Ok s E) in Hparse. discriminate. }
  destruct (first_occurrence plus s Hc) as (p & n & -> & Hp & _).
  destruct (parsed_reference_classes p n t Hp Hparse) as [H|[H|[H|(Hr & Hg & Hm)]]]; auto.
  right. right. right. repeat split; try assumption.
  destruct p as [|a p'] eqn:Ep.
  { change ("" ++ String plus n) with ("+" ++ n) in Hparse.
    rewrite ParseTarget_local_internal in Hparse. injection Hparse as <-. reflexivity. }
  rewrite <- Ep in *.
  destruct (strings.HasPrefix p "." || strings.HasPrefix p "/") eqn:Hl.
  { change (p ++ String plus n) with (p ++ "+" ++ n) in Hparse.
    rewrite ParseTarget_local_external in Hparse by assumption.
    injection Hparse as <-. reflexivity. }
  change (p ++ String plus n) with (p ++ "+" ++ n) in Hparse.
  rewrite ParseTarget_remote in Hparse by (subst; try assumption; discriminate).
  cbv zeta in Hparse. rewrite (parseGitURLandPath_unmatched _ Hm) in Hparse.
  simpl in Hparse. injection Hparse as <-. reflexivity.
Qed.

Lemma X4_parsed_reference_classes_witness :
  ParseTarget "example.org/foo/bar:v1+build" = Ok (mkTarget "" "" "v1" "" "build")
  /\ (IsRemote (mkTarget "" "" "v1" "" "build") = true
      /\ GitURL (mkTarget "" "" "v1" "" "build") = ""
      /\ GitPath (mkTarget "" "" "v1" "" "build") = "").
Proof.
  assert (H : ParseTarget "example.org/foo/bar:v1+build" = Ok (mkTarget "" "" "v1" "" "build"))
    by (vm_compute; reflexivity).
  split; [exact H|].
  destruct (X4_parsed_reference_classes _ _ H) as [E|[(E & _)|[(_ & E)|E]]];
    [discriminate E | discriminate E | exfalso; now apply E | exact E].
Defined.

(** X5.  Neither rendering of a parsed Remote reference, [String] or
    [StringCanonical], gives back the string that was parsed. *)
Theorem X5_remote_never_round_trips (s : string) (t : Target) :
  ParseTarget s = Ok t ->
  IsRemote t = true ->
  Target_String t <> s /\ StringCanonical t <> s.
Proof.
  intros Hparse Hrem.
  assert (Hc : 1 <= count_byte plus s).
  { destruct (count_byte plus s) eqn:E; [|lia].
    rewrite (no_plus_not_Ok s E) in Hparse. discriminate. }
  destruct (first_occurrence plus s Hc) as (p & n & -> & Hp & _).
  change (p ++ String plus n) with (p ++ "+" ++ n) in *.
  assert (H1 : Target_String t <> p ++ "+" ++ n)
    by now apply remote_never_round_trips.
  split; [exact H1|].
  unfold StringCanonical.
  destruct (negb (String.eqb (GitURL t) "")); [|exact H1].
  unfold Target_String in H1.
  assert (He : IsLocalExternal t = false).
  { destruct (origin_exclusive t) as [(_ & _ & E)|[(_ & _ & E)|(_ & E & _)]];
      congruence. }
  now rewrite He, Hrem in H1.
Qed.

Lemma X5_remote_never_round_trips_witness :
  ParseTarget "github.com/acme/widgets/examples/go:main+t"
  = Ok (mkTarget "github.com/acme/widgets" "/examples/go" "main" "" "t")
  /\ IsRemote (mkTarget "github.com/acme/widgets" "/examples/go" "main" "" "t") = true
  /\ Target_String (mkTarget "github.com/acme/widgets" "/examples/go" "main" "" "t")
     <> "github.com/acme/widgets/examples/go:main+t".
Proof.
  assert (H : ParseTarget "github.com/acme/widgets/examples/go:main+t"
              = Ok (mkTarget "github.com/acme/widgets" "/examples/go" "main" "" "t"))
    by (vm_compute; reflexivity).
  split; [exact H|]. split; [reflexivity|].
  exact (proj1 (X5_remote_never_round_trips _ _ H eq_refl)).
Defined.


Lemma JoinTargets_cases (target1 target2 : Target) :
  JoinTargets target1 target2
  = if IsRemote target1 then
      if IsRemote target2 then Ok target2 else Panicked "TODO"
    else Ok (set_LocalPath target2 (joined_local_path target1 target2)).
Proof.
  unfold JoinTargets, joined_local_path.
  destruct (IsRemote target1) eqn:E1.
  - destruct (IsRemote target2); reflexivity.
  - destruct (IsLocalExternal target2) eqn:E2.
    + destruct (path.IsAbs (LocalPath target2)); [reflexivity|].
      cbn [LocalPath set_LocalPath].
      destruct (strings.HasPrefix (path.Join [LocalPath target1; LocalPath target2]) ".");
        reflexivity.
    + destruct (IsLocalInternal target2); [reflexivity|].
      destruct target2; reflexivity.
Qed.

Lemma Join_two (c r : string) :
  c <> "" -> r <> "" -> path.Join [c; r] = path.Clean (c ++ "/" ++ r).
Proof.
  intros Hc Hr. unfold path.Join. cbn [fold_left].
  destruct c as [|a c]; [contradiction|]. destruct r as [|b r]; [contradiction|].
  cbn [String.length Nat.add Nat.eqb Nat.ltb Nat.leb append String.eqb orb negb].
  rewrite append_assoc. reflexivity.
Qed.

Lemma joined_local_path_nonempty (target1 target2 : Target) :
  IsRemote target1 = false -> IsRemote target2 = false ->
  joined_local_path target1 target2 <> "".
Proof.
  intros E1 E2. unfold joined_local_path.
  destruct (IsLocalExternal target2) eqn:Ee.
  - destruct (path.IsAbs (LocalPath target2)); [apply Clean_nonempty|].
    cbv zeta. rewrite Join_two.
    + destruct (strings.HasPrefix _ "."); [apply Clean_nonempty|discriminate].
    + intros H. apply IsRemote_iff in H. congruence.
    + intros H. apply IsRemote_iff in H. congruence.
  - destruct (IsLocalInternal target2) eqn:Ei.
    + intros H. apply IsRemote_iff in H. congruence.
    + unfold IsRemote in E2. rewrite Ee, Ei in E2. discriminate.
Qed.

(** X6.  [JoinTargets] never returns an error.  It panics, with
    ["TODO"], exactly when the caller is Remote and the reference is not.
    When it returns, the git URL, the git path, the tag and the target
    name are those of the reference, the result is Remote exactly when
    the reference is, and a Remote reference is returned as it is. *)
Theorem X6_join_outcomes (target1 target2 : Target) :
  (forall msg, JoinTargets target1 target2 <> Err msg)
  /\ (JoinTargets target1 target2 = Panicked "TODO"
      <-> IsRemote target1 = true /\ IsRemote target2 = false)
  /\ (forall ret, JoinTargets target1 target2 = Ok ret ->
      GitURL ret = GitURL target2 /\ GitPath ret = GitPath target2
      /\ Tag ret = Tag target2 /\ TargetName ret = TargetName target2
      /\ IsRemote ret = IsRemote target2
      /\ (IsRemote target2 = true -> ret = target2)).
Proof.
  rewrite JoinTargets_cases.
  destruct (IsRemote target1) eqn:E1; destruct (IsRemote target2) eqn:E2.
  - split; [discriminate|]. split; [split; [discriminate|intros [_ H]; discriminate]|].
    intros ret H. injection H as <-. repeat split; auto.
  - split; [discriminate|]. split; [split; auto|]. discriminate.
  - split; [discriminate|]. split; [split; [discriminate|intros [H _]; discriminate]|].
    intros ret H. injection H as <-. cbn [GitURL GitPath Tag TargetName].
    assert (Hj : joined_local_path target1 target2 = LocalPath target2).
    { unfold joined_local_path.
      unfold IsRemote in E2. apply andb_true_iff in E2 as [Ha Hb].
      apply negb_true_iff in Ha, Hb. now rewrite Ha, Hb. }
    rewrite Hj. destruct target2; cbn. repeat split; auto.
  - split; [discriminate|]. split; [split; [discriminate|intros [H _]; discriminate]|].
    intros ret H. injection H as <-. cbn [GitURL GitPath Tag TargetName].
    repeat split; try discriminate.
    destruct (IsRemote (set_LocalPath target2 (joined_local_path target1 target2))) eqn:E;
      [|reflexivity].
    apply IsRemote_iff in E. cbn [LocalPath set_LocalPath] in E.
    now apply joined_local_path_nonempty in E.
Qed.


Lemma Clean_stored_relative (p : string) :
  path.IsAbs p = false ->
  path.Clean (stored_local_path p) = path.Clean p.
Proof.
  intros Ha. rewrite stored_local_path_unfold, Ha.
  destruct (strings.HasPrefix (path.Clean p) "."); [apply Clean_idempotent|].
  rewrite Clean_dot_slash; [apply Clean_idempotent|apply Clean_nonempty|].
  now rewrite Clean_IsAbs.
Qed.

(** X7.  Under a caller whose local path is ["."], every reference that
    [ParseTarget] returns joins to itself. *)
Theorem X7_join_under_current_directory (s : string) (caller ref : Target) :
  LocalPath caller = "." ->
  ParseTarget s = Ok ref ->
  JoinTargets caller ref = Ok ref.
Proof.
  intros Hcaller Hparse.
  destruct caller as [cu cp ct lp name]. cbn [LocalPath] in Hcaller. subst lp.
  assert (Hc : 1 <= count_byte plus s).
  { destruct (count_byte plus s) eqn:E; [|lia].
    rewrite (no_plus_not_Ok s E) in Hparse. discriminate. }
  destruct (first_occurrence plus s Hc) as (p & n & -> & Hp & _).
  change (p ++ String plus n) with (p ++ "+" ++ n) in *.
  rewrite JoinTargets_cases. change (IsRemote (mkTarget cu cp ct "." name)) with false.
  cbv iota.
  assert (Hj : joined_local_path (mkTarget cu cp ct "." name) ref = LocalPath ref);
    [|rewrite Hj; destruct ref; reflexivity].
  unfold joined_local_path. cbn [LocalPath].
  destruct (origin_exclusive ref) as [(Hi & He & Hr)|[(Hi & He & Hr)|(Hi & He & Hr)]];
    rewrite He, ?Hi.
  - symmetry. now apply String.eqb_eq.
  - (* LocalExternal: the stored path of a local prefix *)
    destruct p as [|a p'] eqn:Ep.
    { change ("" ++ "+" ++ n) with ("+" ++ n) in Hparse.
      rewrite ParseTarget_local_internal in Hparse. injection Hparse as <-.
      discriminate He. }
    rewrite <- Ep in *.
    destruct (strings.HasPrefix p "." || strings.HasPrefix p "/") eqn:Hl.
    2:{ rewrite ParseTarget_remote in Hparse by (subst; try assumption; discriminate).
        cbv zeta in Hparse.
        destruct (parseGitURLandPath _) as [[g sp]| |]; try discriminate.
        simpl in Hparse. injection Hparse as <-. discriminate He. }
    rewrite ParseTarget_local_external in Hparse by assumption.
    injection Hparse as <-. cbn [LocalPath].
    rewrite stored_local_path_IsAbs.
    destruct (path.IsAbs p) eqn:Ea.
    + rewrite stored_local_path_unfold, Ea. apply Clean_idempotent.
    + cbv zeta. rewrite Join_two by (try discriminate; apply stored_local_path_nonempty).
      change ("." ++ "/" ++ stored_local_path p)
        with (String path.dot (String path.slash (stored_local_path p))).
      rewrite Clean_dot_slash;
        [|apply stored_local_path_nonempty|now rewrite stored_local_path_IsAbs].
      rewrite Clean_stored_relative by exact Ea.
      rewrite (stored_local_path_unfold p), Ea.
      destruct (strings.HasPrefix (path.Clean p) "."); reflexivity.
  - reflexivity.
Qed.

Lemma X7_join_under_current_directory_witness :
  ParseTarget "./a/../b+t" = Ok (mkTarget "" "" "" "./b" "t")
  /\ JoinTargets (mkTarget "" "" "" "." "caller") (mkTarget "" "" "" "./b" "t")
     = Ok (mkTarget "" "" "" "./b" "t").
Proof.
  assert (H : ParseTarget "./a/../b+t" = Ok (mkTarget "" "" "" "./b" "t"))
    by (vm_compute; reflexivity).
  split; [exact H|].
  exact (X7_join_under_current_directory _ (mkTarget "" "" "" "." "caller") _ eq_refl H).
Defined.

(** X8.  Under a caller with an absolute local path, a LocalExternal
    reference with a relative path joins to the cleaned concatenation of
    the two paths with ["./"] put in front: the joined path begins with
    [".//"] and is not absolute. *)
Theorem X8_join_under_absolute_caller (caller ref : Target) :
  path.IsAbs (LocalPath caller) = true ->
  IsLocalExternal ref = true ->
  path.IsAbs (LocalPath ref) = false ->
  exists ret,
    JoinTargets caller ref = Ok ret
    /\ LocalPath ret = "./" ++ path.Clean (LocalPath caller ++ "/" ++ LocalPath ref)
    /\ strings.HasPrefix (LocalPath ret) ".//" = true
    /\ path.IsAbs (LocalPath ret) = false.
Proof.
  intros Hc He Hr.
  assert (Hcne : LocalPath caller <> "") by (intros H; rewrite H in Hc; discriminate).
  assert (Hrne : LocalPath ref <> "").
  { intros H. unfold IsLocalExternal in He. rewrite H in He. discriminate. }
  assert (Hloc : IsRemote caller = false).
  { destruct (IsRemote caller) eqn:E; [|reflexivity].
    apply IsRemote_iff in E. contradiction. }
  rewrite JoinTargets_cases, Hloc.
  eexists. split; [reflexivity|]. cbn [LocalPath set_LocalPath].
  unfold joined_local_path. rewrite He, Hr. cbv zeta.
  rewrite Join_two by assumption.
  assert (Habs : path.IsAbs (path.Clean (LocalPath caller ++ "/" ++ LocalPath ref)) = true).
  { rewrite Clean_IsAbs. destruct (LocalPath caller); [discriminate|exact Hc]. }
  destruct (path.Clean (LocalPath caller ++ "/" ++ LocalPath ref)) as [|x q] eqn:Eq;
    [discriminate|].
  cbn [path.IsAbs] in Habs. apply Ascii.eqb_eq in Habs. subst x.
  destruct (strings.HasPrefix (String path.slash q) ".") eqn:Ed; [discriminate Ed|].
  repeat split. destruct q; reflexivity.
Qed.

Lemma X8_join_under_absolute_caller_witness :
  path.IsAbs (LocalPath (mkTarget "" "" "" "/a" "x")) = true
  /\ IsLocalExternal (mkTarget "" "" "" "./b" "t") = true
  /\ path.IsAbs (LocalPath (mkTarget "" "" "" "./b" "t")) = false
  /\ exists ret,
       JoinTargets (mkTarget "" "" "" "/a" "x") (mkTarget "" "" "" "./b" "t") = Ok ret
       /\ strings.HasPrefix (LocalPath ret) ".//" = true.
Proof.
  split; [reflexivity|]. split; [reflexivity|]. split; [reflexivity|].
  destruct (X8_join_under_absolute_caller (mkTarget "" "" "" "/a" "x")
              (mkTarget "" "" "" "./b" "t") eq_refl eq_refl eq_refl)
    as (ret & Hj & _ & Hp & _).
  exists ret. split; assumption.
Defined.

(** X9.  In a remote reference the tag is all that lies between the
    first [:] and the first [+], further colons included; the git URL and
    the git path are read from the part before the first colon. *)
Theorem X9_tag_is_all_after_first_colon (pa tg n : string) :
  count_byte plus pa = 0 -> count_byte plus tg = 0 -> count_byte colon pa = 0 ->
  pa <> "" ->
  strings.HasPrefix pa "." || strings.HasPrefix pa "/" = false ->
  exists t,
    ParseTarget (pa ++ ":" ++ tg ++ "+" ++ n) = Ok t
    /\ Tag t = tg /\ TargetName t = n /\ IsRemote t = true
    /\ parseGitURLandPath pa = Ok (GitURL t, GitPath t).
Proof.
  intros Hpa Htg Hc Hne Hl.
  assert (Hp : count_byte plus (pa ++ ":" ++ tg) = 0).
  { rewrite !count_byte_append. cbn. lia. }
  assert (Hne' : pa ++ ":" ++ tg <> "") by (destruct pa; [contradiction|discriminate]).
  assert (Hl' : strings.HasPrefix (pa ++ ":" ++ tg) "."
                || strings.HasPrefix (pa ++ ":" ++ tg) "/" = false).
  { destruct pa as [|a pa']; [contradiction|].
    unfold strings.HasPrefix in *. cbn [append].
    change "." with (String path.dot "") in *. change "/" with (String path.slash "") in *.
    rewrite !prefix_byte in *. exact Hl. }
  replace (pa ++ ":" ++ tg ++ "+" ++ n) with ((pa ++ ":" ++ tg) ++ "+" ++ n)
    by (rewrite !append_assoc; reflexivity).
  rewrite ParseTarget_remote by assumption. cbv zeta.
  change (pa ++ ":" ++ tg) with (pa ++ String colon tg).
  change ":" with (String colon "").
  rewrite (SplitN_2_first colon pa tg Hc). cbn [hd].
  destruct (parseGitURLandPath_total pa) as (g & sp & Hg). rewrite Hg.
  cbn [bind fst snd]. eexists. split; [reflexivity|]. repeat split.
Qed.

Lemma X9_tag_is_all_after_first_colon_witness :
  count_byte plus "github.com/a/b" = 0 /\ count_byte plus "v1:x" = 0
  /\ count_byte colon "github.com/a/b" = 0 /\ "github.com/a/b" <> ""
  /\ exists t, ParseTarget ("github.com/a/b" ++ ":" ++ "v1:x" ++ "+" ++ "n") = Ok t
               /\ Tag t = "v1:x".
Proof.
  split; [reflexivity|]. split; [reflexivity|]. split; [reflexivity|].
  split; [discriminate|].
  destruct (X9_tag_is_all_after_first_colon "github.com/a/b" "v1:x" "n"
              eq_refl eq_refl eq_refl) as (t & H & Ht & _);
    [discriminate|reflexivity|].
  exists t. split; assumption.
Defined.


Lemma take_elem_no_slash (l : list ascii) : Forall (fun a => a <> path.slash) (path.take_elem l).
Proof.
  induction l as [|c l IH]; cbn [path.take_elem]; [constructor|].
  destruct (Ascii.eqb c path.slash) eqn:E; [constructor|].
  constructor; [|exact IH]. now apply Ascii.eqb_neq.
Qed.

(** [path.Base] is never empty, and it holds a slash only when it is ["/"]. *)
Lemma Base_shape (p : string) :
  path.Base p <> "" /\ (count_byte path.slash (path.Base p) = 0 \/ path.Base p = "/").
Proof.
  unfold path.Base. destruct p as [|a p]; [split; [discriminate|now left]|].
  destruct (path.take_elem _) as [|x l] eqn:E; [split; [discriminate|now right]|].
  split.
  - apply string_of_lazybuf_acc_nonempty. left. discriminate.
  - left. apply count_byte_zero. rewrite text_bytes. apply Forall_rev.
    rewrite <- E. apply take_elem_no_slash.
Qed.

(** X10.  For a reference with a git URL, and for a LocalInternal one,
    the canonical rendering is the canonical project, a [+] and the
    target name. *)
Theorem X10_canonical_is_project_plus_name (et : Target) :
  negb (String.eqb (GitURL et) "") || IsLocalInternal et = true ->
  StringCanonical et = ProjectCanonical et ++ "+" ++ TargetName et.
Proof.
  unfold StringCanonical, ProjectCanonical.
  destruct (negb (String.eqb (GitURL et) "")) eqn:Eg; cbn [orb].
  - intros _. cbv zeta. rewrite !append_assoc. reflexivity.
  - intros Hi. unfold Target_String.
    destruct (origin_exclusive et) as [(_ & He & Hr)|[(Hi' & _)|(Hi' & _)]];
      try congruence.
    rewrite He, Hr. unfold IsLocalInternal in Hi. rewrite Hi. reflexivity.
Qed.

Lemma X10_canonical_is_project_plus_name_witness :
  negb (String.eqb (GitURL (mkTarget "github.com/a/b" "/c" "v1" "" "t")) "")
  || IsLocalInternal (mkTarget "github.com/a/b" "/c" "v1" "" "t") = true
  /\ StringCanonical (mkTarget "github.com/a/b" "/c" "v1" "" "t")
     = ProjectCanonical (mkTarget "github.com/a/b" "/c" "v1" "" "t") ++ "+" ++ "t".
Proof.
  split; [reflexivity|].
  exact (X10_canonical_is_project_plus_name (mkTarget "github.com/a/b" "/c" "v1" "" "t") eq_refl).
Defined.

(** X11.  Without a git URL, the canonical project of a LocalInternal
    reference is empty; that of a LocalExternal reference is the last
    element of its local path, which is never empty and holds no slash
    unless it is the root ["/"]; that of a Remote reference is ["."]. *)
Theorem X11_project_of_local_reference (et : Target) :
  GitURL et = "" ->
  (IsLocalInternal et = true -> ProjectCanonical et = "")
  /\ (IsLocalExternal et = true ->
      ProjectCanonical et = path.Base (LocalPath et)
      /\ ProjectCanonical et <> ""
      /\ (count_byte path.slash (ProjectCanonical et) = 0 \/ ProjectCanonical et = "/"))
  /\ (IsRemote et = true -> ProjectCanonical et = ".").
Proof.
  intros Hg. unfold ProjectCanonical. rewrite Hg. cbn [String.eqb negb].
  split; [|split].
  - unfold IsLocalInternal. now intros ->.
  - intros He.
    destruct (origin_exclusive et) as [(_ & He' & _)|[(Hi & _ & _)|(_ & He' & _)]];
      try congruence.
    unfold IsLocalInternal in Hi. rewrite Hi.
    split; [reflexivity|]. apply Base_shape.
  - intros Hr. apply IsRemote_iff in Hr. rewrite Hr. reflexivity.
Qed.

Lemma X11_project_of_local_reference_witness :
  GitURL (mkTarget "" "" "" "./sub/dir" "t") = ""
  /\ ProjectCanonical (mkTarget "" "" "" "./sub/dir" "t") = "dir".
Proof.
  split; [reflexivity|].
  destruct (X11_project_of_local_reference (mkTarget "" "" "" "./sub/dir" "t") eq_refl)
    as (_ & H & _).
  destruct (H eq_refl) as (-> & _). reflexivity.
Defined.

End TargetExtras.

(** * Further properties of the lexer *)

Section LexerExtras.
Import antlr earthfile2llb Examples.

Lemma prefix_slice_to (p : string) (k : nat) (s : string) :
  String.prefix p (strings.slice_to k s) = true -> String.prefix p s = true.
Proof.
  revert k s. induction p as [|a p IH]; intros k s H; [now destruct s|].
  destruct k as [|k]; destruct s as [|c s]; cbn [strings.slice_to] in H;
    try discriminate H.
  cbn [String.prefix] in *. destruct (Ascii.ascii_dec a c); [|discriminate H].
  now apply IH with k.
Qed.

Lemma prefix_split (p s : string) :
  String.prefix p s = true -> s = p ++ strings.slice_from (String.length p) s.
Proof.
  revert s. induction p as [|a p IH]; intros s H; [reflexivity|].
  destruct s as [|c s]; [discriminate H|].
  cbn [String.prefix] in H. destruct (Ascii.ascii_dec a c) as [->|]; [|discriminate H].
  cbn [append String.length strings.slice_from]. f_equal. now apply IH.
Qed.

(** [strings.Index] finds the first occurrence: the string splits around
    it, and the part before it holds no occurrence. *)
Lemma Index_Some (sub s : string) (n : nat) :
  sub <> "" ->
  strings.Index s sub = Some n ->
  String.length (strings.slice_to n s) = n
  /\ s = strings.slice_to n s ++ sub ++ strings.slice_from (n + String.length sub) s
  /\ strings.Index (strings.slice_to n s) sub = None.
Proof.
  intros Hsub. revert n. induction s as [|c s IH]; intros n H.
  - cbn [strings.Index] in H. destruct sub; [contradiction|discriminate H].
  - cbn [strings.Index] in H.
    destruct (String.prefix sub (String c s)) eqn:Ep.
    + injection H as <-. cbn [strings.slice_to String.length append Nat.add].
      split; [reflexivity|]. split; [now apply prefix_split|].
      destruct sub; [contradiction|reflexivity].
    + destruct (strings.Index s sub) as [m|] eqn:Ei; [|discriminate H].
      injection H as <-. destruct (IH m eq_refl) as (Hl & Hs & Hn).
      cbn [strings.slice_to String.length append Nat.add strings.slice_from].
      split; [now rewrite Hl|]. split; [now rewrite <- Hs|].
      cbn [strings.Index]. rewrite Hn.
      destruct (String.prefix sub (String c (strings.slice_to m s))) eqn:Eq;
        [|reflexivity].
      apply (prefix_slice_to sub (S m) (String c s)) in Eq. congruence.
Qed.

Lemma slice_to_length_n n s : String.length (strings.slice_to n s) <= n.
Proof.
  revert s; induction n as [|n IH]; intros [|a s]; simpl; try lia.
  specialize (IH s). lia.
Qed.

Lemma int_wrap_le (z : Z) : (- 2 ^ 63 <= z -> int_wrap z <= z)%Z.
Proof.
  intros H. unfold int_wrap.
  assert ((z + 2 ^ 63) mod 2 ^ 64 <= z + 2 ^ 63)%Z by (apply Z.mod_le; lia).
  lia.
Qed.

Lemma int_wrap_small (z : Z) : (- 2 ^ 63 <= z < 2 ^ 63 -> int_wrap z = z)%Z.
Proof.
  intros H. unfold int_wrap. rewrite Z.mod_small by lia. lia.
Qed.

(** On a text of bytes below 128 the runes are the bytes. *)
Lemma runes_from_ascii (s : string) :
  is_ascii s = true ->
  utf8.runes_from 0 s = map (fun c => (N_of_ascii c, 1)) (list_ascii_of_string s).
Proof.
  unfold is_ascii. induction s as [|c s IH]; intros H; [reflexivity|].
  cbn [list_ascii_of_string forallb] in H. apply andb_true_iff in H as [Hc Hs].
  cbn [utf8.runes_from utf8.DecodeRuneInString list_ascii_of_string map].
  rewrite Hc. cbn [snd Nat.sub]. now rewrite IH.
Qed.

Lemma runes_ascii (s : string) :
  is_ascii s = true -> utf8.runes s = map N_of_ascii (list_ascii_of_string s).
Proof.
  intros H. unfold utf8.runes. rewrite runes_from_ascii by exact H.
  rewrite map_map. reflexivity.
Qed.

Lemma string_of_runes_ascii (cs : list ascii) :
  forallb (fun b => (N_of_ascii b <? 128)%N) cs = true ->
  utf8.string_of_runes (map N_of_ascii cs) = string_of_list_ascii cs.
Proof.
  induction cs as [|c cs IH]; intros H; [reflexivity|].
  cbn [forallb] in H. apply andb_true_iff in H as [Hc Hs].
  cbn [map utf8.string_of_runes string_of_list_ascii]. unfold utf8.EncodeRune.
  apply N.ltb_lt in Hc.
  assert (Hle : (N_of_ascii c <=? 127)%N = true) by (apply N.leb_le; lia).
  rewrite Hle, ascii_N_embedding. cbn [append]. now rewrite IH.
Qed.

Lemma forallb_firstn {A : Type} (p : A -> bool) (k : nat) (xs : list A) :
  forallb p xs = true -> forallb p (firstn k xs) = true.
Proof.
  revert xs. induction k as [|k IH]; intros [|x xs] H; try reflexivity.
  cbn [forallb firstn] in *. apply andb_true_iff in H as [H1 H2].
  now rewrite H1, IH.
Qed.

Lemma forallb_skipn {A : Type} (p : A -> bool) (k : nat) (xs : list A) :
  forallb p xs = true -> forallb p (skipn k xs) = true.
Proof.
  revert xs. induction k as [|k IH]; intros [|x xs] H; try reflexivity; try exact H.
  cbn [forallb skipn] in *. apply andb_true_iff in H as [H1 H2]. now apply IH.
Qed.

Lemma slice_to_bytes (k : nat) (s : string) :
  strings.slice_to k s = string_of_list_ascii (firstn k (list_ascii_of_string s)).
Proof.
  revert s. induction k as [|k IH]; intros [|c s]; try reflexivity.
  cbn [strings.slice_to list_ascii_of_string firstn string_of_list_ascii].
  now rewrite IH.
Qed.

Lemma slice_from_bytes (k : nat) (s : string) :
  list_ascii_of_string (strings.slice_from k s) = skipn k (list_ascii_of_string s).
Proof.
  revert s. induction k as [|k IH]; intros [|c s]; try reflexivity.
  cbn [strings.slice_from list_ascii_of_string skipn]. apply IH.
Qed.

Lemma length_bytes (s : string) :
  List.length (list_ascii_of_string s) = String.length s.
Proof. induction s as [|c s IH]; [reflexivity|]. cbn. now rewrite IH. Qed.

(** On a stream of bytes below 128 the positions count bytes and the
    text of an interval is the slice of the bytes. *)
Lemma GetText_ascii (is_ : InputStream) (a b : Z) :
  is_ascii (data is_) = true ->
  Size is_ = Z.of_nat (String.length (data is_))
  /\ GetText is_ a b
     = (let stop := if (Size is_ <=? b)%Z then (Size is_ - 1)%Z else b in
        if (Size is_ <=? a)%Z then Ok ""
        else if (a <? 0)%Z || (stop + 1 <? a)%Z
        then Panicked "slice bounds out of range"
        else Ok (strings.slice_to (Z.to_nat (stop + 1 - a))
                   (strings.slice_from (Z.to_nat a) (data is_)))).
Proof.
  intros H. split.
  - unfold Size. rewrite runes_ascii by exact H. now rewrite length_map, length_bytes.
  - unfold GetText. cbv zeta.
    destruct (Size is_ <=? a)%Z; [reflexivity|].
    destruct (_ || _); [reflexivity|]. f_equal.
    rewrite runes_ascii by exact H.
    rewrite skipn_map, firstn_map, string_of_runes_ascii.
    + now rewrite slice_to_bytes, slice_from_bytes.
    + apply forallb_firstn, forallb_skipn. exact H.
Qed.

(** The text read from a stream of bytes below 128 lies inside the stream
    and is no longer than the interval asked for. *)
Lemma GetText_window (is_ : InputStream) (a b : Z) (w : string) :
  is_ascii (data is_) = true ->
  GetText is_ a b = Ok w -> w <> "" ->
  (0 <= a)%Z
  /\ (a + Z.of_nat (String.length w) <= Size is_)%Z
  /\ (Z.of_nat (String.length w) <= b + 1 - a)%Z.
Proof.
  intros Hascii H Hw. destruct (GetText_ascii is_ a b Hascii) as (Hsize & Hget).
  rewrite Hget in H. cbv zeta in H.
  destruct (Size is_ <=? a)%Z eqn:Ea; [injection H as <-; contradiction|].
  apply Z.leb_gt in Ea.
  destruct ((a <? 0)%Z || _) eqn:Eb; [discriminate H|].
  apply orb_false_iff in Eb as [E1 E2]. apply Z.ltb_ge in E1, E2.
  injection H as <-.
  split; [exact E1|].
  pose proof (slice_to_length
                (Z.to_nat ((if (Size is_ <=? b)%Z then Size is_ - 1 else b) + 1 - a))
                (strings.slice_from (Z.to_nat a) (data is_))) as H1.
  pose proof (slice_to_length_n
                (Z.to_nat ((if (Size is_ <=? b)%Z then Size is_ - 1 else b) + 1 - a))
                (strings.slice_from (Z.to_nat a) (data is_))) as H2.
  rewrite slice_from_length in H1.
  destruct (Size is_ <=? b)%Z eqn:Ec;
    [apply Z.leb_le in Ec | apply Z.leb_gt in Ec]; lia.
Qed.

(** [Seek] puts the cursor where it is asked to, or at the end of the
    stream when that lies before. *)
Lemma Seek_cases (is_ : InputStream) (i : Z) :
  data (Seek is_ i) = data is_
  /\ (index (Seek is_ i) = i
      \/ (index (Seek is_ i) = Size is_ /\ (Size is_ < i)%Z))
  /\ ((i <= Size is_)%Z -> index (Seek is_ i) = i).
Proof.
  unfold Seek. destruct (i <=? index is_)%Z; cbn [index data].
  - split; [reflexivity|]. split; [now left|reflexivity].
  - split; [reflexivity|]. split; [|lia].
    destruct (Z.min_spec i (Size is_)) as [(H1 & ->)|(H1 & ->)]; [now left|].
    destruct (Z.eq_dec i (Size is_)) as [->|Hne]; [now left|right; lia].
Qed.

(** The text of a token is read from the text of the stream, wherever the
    cursor is. *)
Lemma Token_GetText_data (i1 i2 : InputStream) (t : Token) :
  data i1 = data i2 -> Token_GetText i1 t = Token_GetText i2 t.
Proof.
  intros H. unfold Token_GetText, GetText, Size. now rewrite H.
Qed.

Section HereDoc.

Variable next : BaseLexer -> Token * BaseLexer.
Variables (l : lexer) (peek : Token) (b : BaseLexer) (s w : string) (n : nat).
Hypothesis Hnext : next (EarthLexer l) = (peek, b).
Hypothesis Hatom : tokenType peek = EarthLexerAtom.
Hypothesis Htext : Token_GetText (input b) peek = Ok s.
Hypothesis Hopen : strings.HasPrefix s "<<" = true.
Hypothesis Hwin :
  GetText (input b) (int_add (start peek) 6)
    (int_add (int_add (start peek) 6) 18) = Ok w.
Hypothesis Hidx : strings.Index w "EOF" = Some n.

Lemma NextToken_heredoc :
  NextToken next l
  = (b' <- PopMode
             (set_input
                (set_TokenStartCharIndex b
                   (int_add (int_add (start peek) 6) (int_add (Z.of_nat n) 3)))
                (Seek (input b)
                   (int_add (int_add (start peek) 6) (int_add (Z.of_nat n) 3)))) ;;
     Ok (SetText peek (strings.slice_to n w), set_EarthLexer l b')).
Proof.
  unfold NextToken. rewrite Hnext, Hatom. cbn [is_Atom EarthLexer set_EarthLexer].
  rewrite Htext. cbn [bind andb]. rewrite Hopen.
  unfold heredoc_branch. cbn [EarthLexer set_EarthLexer].
  change (Z.of_nat (String.length ("<<" ++ "EOF" ++ nl))) with 6%Z.
  change (int_sub 19 1) with 18%Z.
  rewrite Hwin. cbn [bind]. rewrite Hidx.
  change (Z.of_nat (String.length "EOF")) with 3%Z.
  cbn [input set_TokenStartCharIndex set_input TokenStartCharIndex mode modeStack].
  unfold PopMode. cbn [modeStack]. destruct (modeStack b); reflexivity.
Qed.

(** On a stream of bytes below 128 the body is at most 16 bytes long and
    the place behind the delimiter lies inside the stream. *)
Lemma heredoc_body_bounds :
  is_ascii (data (input b)) = true ->
  n <= 16
  /\ (int_add (int_add (start peek) 6) (int_add (Z.of_nat n) 3) <= Size (input b))%Z.
Proof.
  intros Hascii.
  destruct (Index_Some "EOF" w n ltac:(discriminate) Hidx) as (Hl & Hs & _).
  assert (Hlen : String.length w = n + 3 + String.length (strings.slice_from (n + 3) w)).
  { rewrite Hs at 1. rewrite !length_append, Hl. cbn [String.length]. lia. }
  assert (Hw : w <> "") by (intros ->; cbn in Hlen; lia).
  destruct (GetText_window _ _ _ _ Hascii Hwin Hw) as (H0 & H1 & H2).
  assert (Hst : (int_add (start peek) 6 < 2 ^ 63)%Z).
  { unfold int_add, int_wrap.
    pose proof (Z.mod_pos_bound (start peek + 6 + 2 ^ 63) (2 ^ 64) ltac:(lia)). lia. }
  assert (H18 : (int_add (int_add (start peek) 6) 18 <= int_add (start peek) 6 + 18)%Z)
    by (apply int_wrap_le; lia).
  assert (Hn : n <= 16) by lia.
  split; [exact Hn|].
  assert (H3 : int_add (Z.of_nat n) 3 = (Z.of_nat n + 3)%Z)
    by (apply int_wrap_small; lia).
  rewrite H3.
  assert (int_add (int_add (start peek) 6) (Z.of_nat n + 3)
          <= int_add (start peek) 6 + (Z.of_nat n + 3))%Z by (apply int_wrap_le; lia).
  lia.
Qed.

End HereDoc.

(** X12.  An atom whose text begins with [<<], with ["EOF"] in the text of
    the 19 runes after the opening line (the opening line is taken to be
    6 runes long, the length of ["<<EOF"] and a newline).  The body is
    the bytes of that text before the first ["EOF"], with no ["EOF"]
    inside.  With an empty mode stack the call panics with
    ["Empty Stack"].  Otherwise the atom is returned at once, ahead of
    every queued token: the queue, both indent levels and the newline
    flag stay as they are and one mode is popped.  The body is set as the
    text of the atom; an empty body leaves the text unset, so that the
    atom still reads as its text in the stream.  The token start is put
    at the start of the window plus the number of bytes of the body and
    of the delimiter, and the cursor at the same place or, when the
    stream ends before it, at the end of the stream.  When every byte of
    the stream is below 128 the body is at most 16 bytes long and the
    cursor and the token start are right behind the delimiter. *)
Theorem X12_heredoc_body_skips_queue (next : BaseLexer -> Token * BaseLexer)
  (l : lexer) (peek : Token) (b : BaseLexer) (s w : string) (n : nat) :
  next (EarthLexer l) = (peek, b) ->
  tokenType peek = EarthLexerAtom ->
  Token_GetText (input b) peek = Ok s ->
  strings.HasPrefix s "<<" = true ->
  GetText (input b) (int_add (start peek) 6)
    (int_add (int_add (start peek) 6) 18) = Ok w ->
  strings.Index w "EOF" = Some n ->
  let body := strings.slice_to n w in
  let cursor := int_add (int_add (start peek) 6) (int_add (Z.of_nat n) 3) in
  String.length body = n
  /\ w = body ++ "EOF" ++ strings.slice_from (n + 3) w
  /\ strings.Index body "EOF" = None
  /\ (is_ascii (data (input b)) = true ->
      n <= 16 /\ (cursor <= Size (input b))%Z)
  /\ (modeStack b = [] -> NextToken next l = Panicked "Empty Stack")
  /\ (forall m st, modeStack b = m :: st ->
      exists l',
        NextToken next l = Ok (SetText peek body, l')
        /\ (body <> "" ->
            Token_GetText (input (EarthLexer l')) (SetText peek body) = Ok body)
        /\ (body = "" -> text peek = "" ->
            Token_GetText (input (EarthLexer l')) (SetText peek body) = Ok s)
        /\ tokenQueue l' = tokenQueue l
        /\ prevIndentLevel l' = prevIndentLevel l
        /\ indentLevel l' = indentLevel l
        /\ afterNewLine l' = afterNewLine l
        /\ mode (EarthLexer l') = m /\ modeStack (EarthLexer l') = st
        /\ TokenStartCharIndex (EarthLexer l') = cursor
        /\ data (input (EarthLexer l')) = data (input b)
        /\ (index (input (EarthLexer l')) = cursor
            \/ (index (input (EarthLexer l')) = Size (input b)
                /\ (Size (input b) < cursor)%Z))
        /\ (is_ascii (data (input b)) = true ->
            index (input (EarthLexer l')) = cursor)).
Proof.
  intros Hnext Hatom Htext Hopen Hwin Hidx body cursor.
  destruct (Index_Some "EOF" w n ltac:(discriminate) Hidx) as (Hl & Hsplit & Hnone).
  pose proof (heredoc_body_bounds peek b w n Hwin Hidx) as Hbounds.
  pose proof (NextToken_heredoc next l peek b s w n Hnext Hatom Htext Hopen Hwin Hidx)
    as Hstep.
  fold cursor in Hstep, Hbounds. fold body in Hstep.
  destruct (Seek_cases (input b) cursor) as (Hdata & Hidx' & Hin).
  split; [exact Hl|]. split; [exact Hsplit|]. split; [exact Hnone|].
  split; [exact Hbounds|]. split.
  - intros Hst. rewrite Hstep. unfold PopMode.
    cbn [modeStack set_input set_TokenStartCharIndex]. rewrite Hst. reflexivity.
  - intros m st Hst. rewrite Hstep. unfold PopMode.
    cbn [modeStack set_input set_TokenStartCharIndex]. rewrite Hst. cbn [bind].
    eexists. split; [reflexivity|].
    cbn [set_EarthLexer tokenQueue prevIndentLevel indentLevel afterNewLine
         EarthLexer mode modeStack input TokenStartCharIndex set_input
         set_TokenStartCharIndex].
    split; [|split].
    + intros Hne. unfold Token_GetText. cbn [text SetText].
      destruct (String.eqb body "") eqn:E; [|reflexivity].
      apply String.eqb_eq in E. contradiction.
    + intros He Ht. rewrite He.
      replace (SetText peek "") with peek by (destruct peek; cbn in Ht; now subst).
      rewrite (Token_GetText_data _ (input b) peek Hdata). exact Htext.
    + repeat split; try assumption.
      intros Ha. apply Hin. now apply Hbounds.
Qed.

Lemma X12_heredoc_body_skips_queue_witness :
  exists l',
    NextToken (table_NextToken heredoc_table) (before_heredoc heredoc_EOF)
    = Ok (SetText (tk EarthLexerAtom 8 12) ("hello" ++ nl), l')
    /\ tokenQueue l' = []
    /\ index (input (EarthLexer l')) = 23%Z.
Proof.
  destruct (X12_heredoc_body_skips_queue (table_NextToken heredoc_table)
              (before_heredoc heredoc_EOF) (tk EarthLexerAtom 8 12)
              (mkBaseLexer (mkInputStream heredoc_EOF 13) 8 2 [0%Z])
              "<<EOF" ("hello" ++ nl ++ "EOF" ++ nl) 6
              eq_refl eq_refl eq_refl eq_refl eq_refl eq_refl)
    as (_ & _ & _ & _ & _ & H).
  destruct (H 0%Z [] eq_refl)
    as (l' & H1 & _ & _ & H2 & _ & _ & _ & _ & _ & _ & _ & _ & H3).
  exists l'. split; [exact H1|]. split; [exact H2|]. apply H3. reflexivity.
Defined.

(** The same command with a body of two-byte letters: the window holds 14
    runes in 23 bytes, the body is 19 bytes long, the token start is put
    at 36, past the 28 runes of the stream, and the cursor at the end of
    the stream. *)
Example heredoc_body_of_two_byte_letters :
  Size (mkInputStream heredoc_accents 13) = 28%Z
  /\ String.length heredoc_accents = 37
  /\ exists ret l',
       NextToken (table_NextToken heredoc_table) (before_heredoc heredoc_accents)
       = Ok (ret, l')
       /\ String.length (text ret) = 19
       /\ TokenStartCharIndex (EarthLexer l') = 36%Z
       /\ index (input (EarthLexer l')) = 28%Z.
Proof.
  split; [vm_compute; reflexivity|]. split; [reflexivity|].
  do 2 eexists. split; [vm_compute; reflexivity|]. repeat split.
Qed.

Lemma flush_queue_length (l : lexer) (peek ret : Token) :
  List.length (tokenQueue (snd (flush l peek ret))) = List.length (tokenQueue l).
Proof.
  unfold flush. destruct (tokenQueue l) as [|q0 q] eqn:E; cbn [snd]; [now rewrite E|].
  cbn [set_tokenQueue tokenQueue]. rewrite length_app. cbn [List.length]. lia.
Qed.

Lemma indentation_queue_length (l l1 : lexer) :
  indentation l = Ok l1 ->
  List.length (tokenQueue l) <= List.length (tokenQueue l1).
Proof.
  unfold indentation. destruct (afterNewLine l).
  - destruct (prevIndentLevel l <? indentLevel l)%Z.
    + cbn [bind]. intros H. injection H as <-.
      cbn [set_afterNewLine set_prevIndentLevel set_tokenQueue tokenQueue].
      rewrite length_app. lia.
    + destruct (indentLevel l <? prevIndentLevel l)%Z.
      * cbn [set_tokenQueue EarthLexer]. destruct (PopMode (EarthLexer l)) as [b'| |];
          cbn [bind]; try discriminate. intros H. injection H as <-.
        cbn [set_afterNewLine set_prevIndentLevel set_tokenQueue set_EarthLexer tokenQueue].
        rewrite length_app. lia.
      * cbn [bind]. intros H. injection H as <-. cbn. lia.
  - cbn [bind]. intros H. injection H as <-. cbn. lia.
Qed.

Lemma heredoc_branch_queue (l : lexer) (peek ret : Token) (l' : lexer) :
  heredoc_branch l peek = Ok (ret, l') -> tokenQueue l' = tokenQueue l.
Proof.
  unfold heredoc_branch.
  destruct (GetText _ _ _) as [w| |]; cbn [bind]; try discriminate.
  destruct (strings.Index w "EOF") as [n|]; try discriminate.
  destruct (PopMode _) as [b'| |]; cbn [bind]; try discriminate.
  intros H. injection H as _ <-. reflexivity.
Qed.

Lemma NextToken_queue_length (next : BaseLexer -> Token * BaseLexer)
  (l : lexer) (ret : Token) (l' : lexer) :
  NextToken next l = Ok (ret, l') ->
  List.length (tokenQueue l) <= List.length (tokenQueue l').
Proof.
  unfold NextToken. destruct (next (EarthLexer l)) as [peek b].
  assert (Hdefault :
    (s <- (if is_Atom (tokenType peek)
           then Token_GetText (input (EarthLexer (set_EarthLexer l b))) peek
           else Ok "") ;;
     if is_Atom (tokenType peek) && strings.HasPrefix s "<<"
     then heredoc_branch (set_EarthLexer l b) peek
     else l0 <- indentation (set_EarthLexer l b) ;; Ok (flush l0 peek peek))
    = Ok (ret, l') ->
    List.length (tokenQueue l) <= List.length (tokenQueue l')).
  { destruct (if is_Atom (tokenType peek) then _ else _) as [s| |]; cbn [bind];
      try discriminate.
    destruct (is_Atom (tokenType peek) && strings.HasPrefix s "<<").
    - intros H. apply heredoc_branch_queue in H. rewrite H. cbn. lia.
    - destruct (indentation (set_EarthLexer l b)) as [l0| |] eqn:E; cbn [bind];
        try discriminate.
      intros H. injection H as H. apply (f_equal snd) in H. cbn [snd] in H.
      subst l'. rewrite flush_queue_length.
      apply indentation_queue_length in E. exact E. }
  destruct (tokenType peek) eqn:Ety; try exact Hdefault.
  - intros H. injection H as H. apply (f_equal snd) in H. cbn [snd] in H.
    subst l'. rewrite flush_queue_length.
    cbn [set_ws tokenQueue].
    destruct (afterNewLine l); cbn [set_indentLevel set_EarthLexer tokenQueue]; lia.
  - intros H. injection H as H. apply (f_equal snd) in H. cbn [snd] in H.
    subst l'. rewrite flush_queue_length.
    cbn [set_afterNewLine set_indentLevel set_EarthLexer tokenQueue]. lia.
  - cbn. discriminate.
Qed.

Lemma indentation_adds (l l1 : lexer) :
  indentation l = Ok l1 ->
  exists syn,
    tokenQueue l1 = (tokenQueue l ++ syn)%list /\ filter is_generated syn = [].
Proof.
  unfold indentation. destruct (afterNewLine l).
  - destruct (prevIndentLevel l <? indentLevel l)%Z.
    + cbn [bind]. intros H. injection H as <-.
      exists [synthetic l EarthLexerINDENT]. split; reflexivity.
    + destruct (indentLevel l <? prevIndentLevel l)%Z.
      * cbn [set_tokenQueue EarthLexer]. destruct (PopMode (EarthLexer l)) as [b'| |];
          cbn [bind]; try discriminate. intros H. injection H as <-.
        exists [synthetic l EarthLexerDEDENT]. split; reflexivity.
      * cbn [bind]. intros H. injection H as <-. exists []. split; [|reflexivity].
        cbn [set_afterNewLine set_prevIndentLevel tokenQueue]. now rewrite app_nil_r.
  - cbn [bind]. intros H. injection H as <-. exists []. split; [|reflexivity].
    cbn [set_afterNewLine set_prevIndentLevel tokenQueue]. now rewrite app_nil_r.
Qed.


Lemma heredoc_branch_type (l : lexer) (peek ret : Token) (l' : lexer) :
  heredoc_branch l peek = Ok (ret, l') -> tokenType ret = tokenType peek.
Proof.
  unfold heredoc_branch.
  destruct (GetText _ _ _) as [w| |]; cbn [bind]; try discriminate.
  destruct (strings.Index w "EOF") as [n|]; try discriminate.
  destruct (PopMode _) as [b'| |]; cbn [bind]; try discriminate.
  intros H. injection H as <- _. reflexivity.
Qed.

Lemma synthetic_count_app (xs ys : list Token) :
  synthetic_count (xs ++ ys) = synthetic_count xs + synthetic_count ys.
Proof. unfold synthetic_count. now rewrite filter_app, length_app. Qed.

Lemma synthetic_count_all (xs : list Token) :
  filter is_generated xs = [] -> synthetic_count xs = List.length xs.
Proof.
  unfold synthetic_count. induction xs as [|x xs IH]; intros H; [reflexivity|].
  cbn [filter] in H |- *. destruct (is_generated x); [discriminate H|].
  cbn [negb List.length]. now rewrite IH.
Qed.

Lemma synthetic_count_generated (x : Token) :
  is_generated x = true -> synthetic_count [x] = 0.
Proof. intros H. unfold synthetic_count. cbn [filter]. now rewrite H. Qed.

(** One call: the queue is longer by the number of tokens of the wrapper's
    own that joined it. *)
Lemma NextToken_queue_growth (next : BaseLexer -> Token * BaseLexer)
  (l : lexer) (peek : Token) (b : BaseLexer) (ret : Token) (l' : lexer) :
  next (EarthLexer l) = (peek, b) ->
  is_generated peek = true ->
  NextToken next l = Ok (ret, l') ->
  List.length (tokenQueue l') + synthetic_count (tokenQueue l)
  = List.length (tokenQueue l) + synthetic_count (ret :: tokenQueue l').
Proof.
  intros Hnext Hg H.
  assert (Hfifo : forall l0 syn,
            tokenQueue l0 = (tokenQueue l ++ syn)%list ->
            filter is_generated syn = [] ->
            flush l0 peek peek = (ret, l') ->
            List.length (tokenQueue l') + synthetic_count (tokenQueue l)
            = List.length (tokenQueue l) + synthetic_count (ret :: tokenQueue l')).
  { intros l0 syn Hq Hs Hf. pose proof (flush_fifo l0 peek) as F.
    rewrite Hf in F. cbn [fst snd] in F. rewrite Hq in F.
    pose proof (f_equal (@List.length Token) F) as Flen.
    rewrite !length_app in Flen. cbn [List.length] in Flen.
    rewrite F, !synthetic_count_app, (synthetic_count_all syn Hs),
      (synthetic_count_generated peek Hg). lia. }
  unfold NextToken in H. rewrite Hnext in H.
  assert (Hdefault :
    (s <- (if is_Atom (tokenType peek)
           then Token_GetText (input (EarthLexer (set_EarthLexer l b))) peek
           else Ok "") ;;
     if is_Atom (tokenType peek) && strings.HasPrefix s "<<"
     then heredoc_branch (set_EarthLexer l b) peek
     else l0 <- indentation (set_EarthLexer l b) ;; Ok (flush l0 peek peek))
    = Ok (ret, l') ->
    List.length (tokenQueue l') + synthetic_count (tokenQueue l)
    = List.length (tokenQueue l) + synthetic_count (ret :: tokenQueue l')).
  { destruct (if is_Atom (tokenType peek) then _ else _) as [s| |]; cbn [bind];
      try discriminate.
    destruct (is_Atom (tokenType peek) && strings.HasPrefix s "<<").
    - intros Hh. pose proof (heredoc_branch_queue _ _ _ _ Hh) as Hq.
      pose proof (heredoc_branch_type _ _ _ _ Hh) as Ht.
      rewrite Hq. cbn [set_EarthLexer tokenQueue].
      change (ret :: tokenQueue l) with ([ret] ++ tokenQueue l)%list.
      rewrite synthetic_count_app, synthetic_count_generated; [lia|].
      unfold is_generated in *. now rewrite Ht.
    - destruct (indentation (set_EarthLexer l b)) as [l0| |] eqn:E; cbn [bind];
        try discriminate.
      intros Hf. injection Hf as Hf.
      destruct (indentation_adds _ _ E) as (syn & Hq & Hs).
      apply (Hfifo l0 syn); [exact Hq | exact Hs | exact Hf]. }
  destruct (tokenType peek) eqn:Ety; try exact (Hdefault H).
  - injection H as H. refine (Hfifo _ [] _ eq_refl H).
    cbn [set_ws tokenQueue]. rewrite app_nil_r.
    now destruct (afterNewLine l).
  - injection H as H. refine (Hfifo _ [] _ eq_refl H).
    cbn [set_afterNewLine set_indentLevel set_EarthLexer tokenQueue].
    now rewrite app_nil_r.
  - cbn in H. discriminate H.
Qed.

(** X13.  A run of [n] calls that succeeds hands out [n] tokens, and the
    queue is no shorter after it than before.  When none of the tokens
    the generated lexer handed to the wrapper during the run has the type
    INDENT or DEDENT, the queue has grown by the number of INDENT and
    DEDENT tokens that the wrapper created during the run: those among
    the tokens handed out and the tokens left in the queue, less those in
    the queue at the start. *)
Theorem X13_queue_grows_by_synthetic_tokens (next : BaseLexer -> Token * BaseLexer)
  (n : nat) (l : lexer) (ts : list Token) (l' : lexer) :
  tokens next n l = Ok (ts, l') ->
  List.length ts = n
  /\ List.length (tokenQueue l) <= List.length (tokenQueue l')
  /\ (forallb (fun pb => is_generated (fst pb)) (generated next n l) = true ->
      List.length (tokenQueue l') + synthetic_count (tokenQueue l)
      = List.length (tokenQueue l) + synthetic_count (ts ++ tokenQueue l')).
Proof.
  revert l ts l'. induction n as [|n IH]; intros l ts l' H.
  - cbn in H. injection H as <- <-. split; [reflexivity|]. split; [lia|].
    intros _. cbn [app]. lia.
  - cbn [tokens] in H.
    destruct (NextToken next l) as [[ret l1]| |] eqn:E1; cbn [bind] in H;
      try discriminate H.
    cbn [snd fst] in H.
    destruct (tokens next n l1) as [[ts1 l2]| |] eqn:E2; cbn [bind] in H;
      try discriminate H.
    cbn [snd fst] in H. injection H as <- <-.
    pose proof (NextToken_queue_length _ _ _ _ E1) as Hlen.
    destruct (IH _ _ _ E2) as (H1 & H2 & H3).
    split; [cbn; now rewrite H1|]. split; [lia|].
    intros Hall. cbn [generated forallb] in Hall. rewrite E1 in Hall.
    apply andb_true_iff in Hall as [Hg Hall].
    destruct (next (EarthLexer l)) as [peek b] eqn:Hnext. cbn [fst] in Hg.
    pose proof (NextToken_queue_growth next l peek b ret l1 Hnext Hg E1) as Hstep.
    specialize (H3 Hall).
    change ((ret :: ts1) ++ tokenQueue l2)%list
      with ([ret] ++ (ts1 ++ tokenQueue l2))%list.
    change (ret :: tokenQueue l1) with ([ret] ++ tokenQueue l1)%list in Hstep.
    rewrite synthetic_count_app in Hstep |- *. lia.
Qed.

Lemma X13_queue_grows_by_synthetic_tokens_witness :
  exists ts l',
    tokens (table_NextToken recipe_table) 6 (newLexer (mkInputStream recipe 0))
    = Ok (ts, l')
    /\ List.length ts = 6
    /\ List.length (tokenQueue l') = 1
    /\ synthetic_count (ts ++ tokenQueue l') = 1.
Proof.
  eexists. eexists. split; [vm_compute; reflexivity|].
  match goal with
  | |- List.length ?ts = 6 /\ List.length (tokenQueue ?l') = 1 /\ _ =>
      assert (E : tokens (table_NextToken recipe_table) 6
                    (newLexer (mkInputStream recipe 0)) = Ok (ts, l'))
        by (vm_compute; reflexivity)
  end.
  destruct (X13_queue_grows_by_synthetic_tokens _ _ _ _ _ E) as (H1 & _ & _).
  split; [exact H1|]. split; vm_compute; reflexivity.
Defined.





(** Before the first newline token: no token queued, nothing counted. *)
Lemma NextToken_first_line (next : BaseLexer -> Token * BaseLexer)
  (l : lexer) (peek : Token) (b : BaseLexer) :
  next (EarthLexer l) = (peek, b) ->
  passes_through (peek, b) = true ->
  tokenType peek <> EarthLexerNL ->
  afterNewLine l = false -> tokenQueue l = [] ->
  indentLevel l = 0%Z -> prevIndentLevel l = 0%Z ->
  exists l1,
    NextToken next l = Ok (peek, l1)
    /\ afterNewLine l1 = false /\ tokenQueue l1 = []
    /\ indentLevel l1 = 0%Z /\ prevIndentLevel l1 = 0%Z.
Proof.
  intros Hnext Hp Hne Hnl Hq Hi Hpi.
  assert (Hplain : plain_content b peek = true ->
                   exists l1,
                     NextToken next l = Ok (peek, l1)
                     /\ afterNewLine l1 = false /\ tokenQueue l1 = []
                     /\ indentLevel l1 = 0%Z /\ prevIndentLevel l1 = 0%Z).
  { intros Hc. rewrite (NextToken_plain_content next l peek b Hnext Hc).
    unfold indentation. cbn [afterNewLine set_EarthLexer]. rewrite Hnl. cbn [bind].
    unfold flush.
    cbn [tokenQueue set_afterNewLine set_prevIndentLevel set_EarthLexer indentLevel].
    rewrite Hq. eexists. split; [reflexivity|]. cbn. auto. }
  unfold passes_through in Hp. cbn [fst snd] in Hp.
  destruct (tokenType peek) eqn:Ety; try discriminate Hp; try (now apply Hplain).
  rewrite (NextToken_WS next l peek b Hnext Ety), Hnl.
  unfold flush. cbn [tokenQueue set_ws set_EarthLexer]. rewrite Hq.
  eexists. split; [reflexivity|]. cbn. auto.
Qed.

Lemma tokens_first_line (next : BaseLexer -> Token * BaseLexer) (n : nat) (l : lexer) :
  Forall (fun pb => passes_through pb = true /\ tokenType (fst pb) <> EarthLexerNL)
    (generated next n l) ->
  afterNewLine l = false -> tokenQueue l = [] ->
  indentLevel l = 0%Z -> prevIndentLevel l = 0%Z ->
  exists l',
    tokens next n l = Ok (map fst (generated next n l), l')
    /\ afterNewLine l' = false /\ tokenQueue l' = []
    /\ indentLevel l' = 0%Z /\ prevIndentLevel l' = 0%Z.
Proof.
  revert l. induction n as [|n IH]; intros l Hall Hnl Hq Hi Hpi.
  - exists l. cbn. auto.
  - cbn [generated] in Hall |- *. inversion Hall as [|pb rest [Hp Hne] Hrest]; subst.
    destruct (next (EarthLexer l)) as [peek b] eqn:Hnext. cbn [fst] in Hne.
    destruct (NextToken_first_line next l peek b Hnext Hp Hne Hnl Hq Hi Hpi)
      as (l1 & H1 & Hnl1 & Hq1 & Hi1 & Hpi1).
    cbn [tokens]. rewrite H1 in Hrest |- *. cbn [bind snd fst].
    destruct (IH l1 Hrest Hnl1 Hq1 Hi1 Hpi1) as (l' & H2 & Hinv).
    rewrite H2. cbn [bind snd fst map]. exists l'. split; [reflexivity|exact Hinv].
Qed.

(** X16.  From a new lexer, as long as every token of the generated lexer
    goes through the queue (it is whitespace, or a content token that has
    not the type HereDoc, INDENT or DEDENT and, when it is an atom, has a
    text that does not begin with [<<]) and none is a newline token, the
    wrapper hands out the generated tokens as they are: the whitespace
    that leads the first line is not counted, no token is queued and both
    levels stay 0.  An atom that opens a here-document or a token of the
    type HereDoc on the first line is not covered: there the wrapper
    rewrites the atom or panics. *)
Theorem X16_first_line_passed_unchanged (next : BaseLexer -> Token * BaseLexer)
  (i : InputStream) (n : nat) :
  Forall (fun pb => passes_through pb = true /\ tokenType (fst pb) <> EarthLexerNL)
    (generated next n (newLexer i)) ->
  exists l',
    tokens next n (newLexer i) = Ok (map fst (generated next n (newLexer i)), l')
    /\ afterNewLine l' = false /\ tokenQueue l' = []
    /\ indentLevel l' = 0%Z /\ prevIndentLevel l' = 0%Z.
Proof.
  intros Hall. apply tokens_first_line; [exact Hall | reflexivity..].
Qed.

Lemma X16_first_line_passed_unchanged_witness :
  exists l',
    tokens (table_NextToken heredoc_table) 4 (newLexer (mkInputStream heredoc_END 0))
    = Ok ([tk (Other 0) 0 2; tk EarthLexerWS 3 3; tk EarthLexerAtom 4 6;
           tk EarthLexerWS 7 7], l')
    /\ afterNewLine l' = false /\ tokenQueue l' = []
    /\ indentLevel l' = 0%Z /\ prevIndentLevel l' = 0%Z.
Proof.
  apply (X16_first_line_passed_unchanged (table_NextToken heredoc_table)
           (mkInputStream heredoc_END 0) 4).
  let g := eval vm_compute in
             (generated (table_NextToken heredoc_table) 4
                (newLexer (mkInputStream heredoc_END 0))) in
  assert (Hg : generated (table_NextToken heredoc_table) 4
                 (newLexer (mkInputStream heredoc_END 0)) = g)
    by (vm_compute; reflexivity);
  rewrite Hg.
  repeat (constructor; [split; [vm_compute; reflexivity | discriminate]|]).
  constructor.
Defined.

Lemma GetText_panic (is_ : InputStream) (a b : Z) (msg : string) :
  GetText is_ a b = Panicked msg -> msg = "slice bounds out of range".
Proof.
  unfold GetText. destruct (Size is_ <=? a)%Z; [discriminate|].
  destruct (_ || _); [|discriminate]. intros H. now injection H.
Qed.

Lemma GetText_no_Err (is_ : InputStream) (a b : Z) (msg : string) :
  GetText is_ a b <> Err msg.
Proof.
  unfold GetText. destruct (Size is_ <=? a)%Z; [discriminate|].
  destruct (_ || _); discriminate.
Qed.

Lemma heredoc_branch_failures (l : lexer) (peek : Token) :
  (forall msg, heredoc_branch l peek <> Err msg)
  /\ (forall msg, heredoc_branch l peek = Panicked msg ->
      In msg ["EOF not found"; "Empty Stack"; "slice bounds out of range"]).
Proof.
  unfold heredoc_branch.
  destruct (GetText _ _ _) as [w|e|e] eqn:Eg; cbn [bind].
  - destruct (strings.Index w "EOF") as [n|].
    + unfold PopMode. cbn [modeStack set_input set_TokenStartCharIndex EarthLexer
                           set_EarthLexer].
      destruct (modeStack (EarthLexer l)); cbn [bind]; split; intros msg H;
        try discriminate H.
      injection H as <-. cbn. auto.
    + split; intros msg H; [discriminate H|]. injection H as <-. cbn. auto.
  - exfalso. exact (GetText_no_Err _ _ _ _ Eg).
  - split; intros msg H; [discriminate H|]. injection H as <-.
    apply GetText_panic in Eg. subst e. cbn. auto.
Qed.

Lemma indentation_failures (l : lexer) :
  (forall msg, indentation l <> Err msg)
  /\ (forall msg, indentation l = Panicked msg -> msg = "Empty Stack").
Proof.
  unfold indentation. destruct (afterNewLine l); [|split; discriminate].
  destruct (prevIndentLevel l <? indentLevel l)%Z; [split; discriminate|].
  destruct (indentLevel l <? prevIndentLevel l)%Z; [|split; discriminate].
  unfold PopMode. cbn [EarthLexer set_tokenQueue modeStack].
  destruct (modeStack (EarthLexer l)); cbn [bind]; split; intros msg H;
    try discriminate H.
  now injection H.
Qed.

(** X17.  [NextToken] never returns an error.  Its panics are ["TODO"],
    ["EOF not found"], ["Empty Stack"] and ["slice bounds out of range"],
    and it panics with ["TODO"] exactly when the generated token has the
    type HereDoc.  On a whitespace or a newline token it always
    returns. *)
Theorem X17_failure_modes (next : BaseLexer -> Token * BaseLexer) (l : lexer) :
  (forall msg, NextToken next l <> Err msg)
  /\ (forall msg, NextToken next l = Panicked msg -> In msg ["TODO"; "EOF not found"; "Empty Stack"; "slice bounds out of range"])
  /\ (NextToken next l = Panicked "TODO"
      <-> tokenType (fst (next (EarthLexer l))) = EarthLexerHereDoc)
  /\ (tokenType (fst (next (EarthLexer l))) = EarthLexerWS
      \/ tokenType (fst (next (EarthLexer l))) = EarthLexerNL ->
      exists ret l', NextToken next l = Ok (ret, l')).
Proof.
  assert (Hdefault : forall peek b,
    let r :=
      (s <- (if is_Atom (tokenType peek)
             then Token_GetText (input (EarthLexer (set_EarthLexer l b))) peek
             else Ok "") ;;
       if is_Atom (tokenType peek) && strings.HasPrefix s "<<"
       then heredoc_branch (set_EarthLexer l b) peek
       else l0 <- indentation (set_EarthLexer l b) ;; Ok (flush l0 peek peek)) in
    (forall msg, r <> Err msg)
    /\ (forall msg, r = Panicked msg -> In msg ["EOF not found"; "Empty Stack"; "slice bounds out of range"])).
  { intros peek b r. subst r.
    destruct (if is_Atom (tokenType peek) then _ else _) as [s|e|e] eqn:Et;
      cbn [bind].
    - destruct (is_Atom (tokenType peek) && strings.HasPrefix s "<<").
      + apply heredoc_branch_failures.
      + destruct (indentation_failures (set_EarthLexer l b)) as (H1 & H2).
        destruct (indentation (set_EarthLexer l b)) as [l0|e|e]; cbn [bind].
        * split; discriminate.
        * exfalso. now apply (H1 e).
        * split; intros msg H; [discriminate H|]. injection H as <-.
          rewrite (H2 e eq_refl). cbn. auto.
    - exfalso. destruct (is_Atom (tokenType peek)); [|discriminate Et].
      unfold Token_GetText in Et.
      destruct (negb _); [discriminate Et|].
      destruct (_ && _); [|discriminate Et].
      exact (GetText_no_Err _ _ _ _ Et).
    - split; intros msg H; [discriminate H|]. injection H as <-.
      destruct (is_Atom (tokenType peek)); [|discriminate Et].
      unfold Token_GetText in Et.
      destruct (negb _); [discriminate Et|].
      destruct (_ && _); [|discriminate Et].
      apply GetText_panic in Et. subst e. cbn. auto. }
  unfold NextToken. destruct (next (EarthLexer l)) as [peek b]. cbn [fst].
  specialize (Hdefault peek b). cbv zeta in Hdefault.
  destruct Hdefault as (Hd1 & Hd2).
  assert (Hd3 : forall msg, In msg ["EOF not found"; "Empty Stack"; "slice bounds out of range"] -> msg <> "TODO").
  { intros msg [<-|[<-|[<-|[]]]]; discriminate. }
  destruct (tokenType peek) eqn:Ety;
    try (split; [exact Hd1|]; split; [intros msg H; right; exact (Hd2 msg H)|];
         split; [split; [intros H; apply Hd2 in H; now apply Hd3 in H | discriminate]
                |intros [H|H]; discriminate H]).
  - split; [discriminate|]. split; [discriminate|]. split; [split; discriminate|].
    intros _. destruct (flush _ _ _) as [ret l']. now exists ret, l'.
  - split; [discriminate|]. split; [discriminate|]. split; [split; discriminate|].
    intros _. destruct (flush _ _ _) as [ret l']. now exists ret, l'.
  - cbn. split; [discriminate|]. split; [intros msg H; injection H as <-; auto|].
    split; [split; reflexivity|]. intros [H|H]; discriminate H.
Qed.

End LexerExtras.

(** * Properties of the build flags and of the secrets *)

Section MainExtras.
Import main.

(** X18.  The checks of [actionBuild] on the mode flags.  The error on
    both modes is returned exactly when image and artifact mode are both
    set; the error on [--no-output] exactly when one mode is set together
    with [noOutput] and without [ci]; there is no panic.  On success the
    modes, [push], [ci] and [remoteCache] are as given, the two modes are
    not both set, and [noOutput] is not set together with a mode.
    Without [ci] the flags are returned as they are.  With [ci],
    [useInlineCache] is set, [noOutput] is set exactly when no mode is,
    and [saveInlineCache] is set in addition when [push] is set and no
    remote cache is named. *)
Theorem X18_build_flags_outcomes (app : cliFlags) :
  (actionBuild_flags app
   = Err "both image and artifact modes cannot be active at the same time"
   <-> imageMode app && artifactMode app = true)
  /\ (actionBuild_flags app
      = Err "cannot use --no-output with image or artifact modes"
      <-> xorb (imageMode app) (artifactMode app) && noOutput app && negb (ci app)
          = true)
  /\ (forall msg, actionBuild_flags app <> Panicked msg)
  /\ (forall app', actionBuild_flags app = Ok app' ->
      imageMode app' = imageMode app /\ artifactMode app' = artifactMode app
      /\ push app' = push app /\ ci app' = ci app
      /\ remoteCache app' = remoteCache app
      /\ imageMode app' && artifactMode app' = false
      /\ (imageMode app' || artifactMode app') && noOutput app' = false
      /\ (ci app = false -> app' = app)
      /\ (ci app = true ->
          useInlineCache app' = true
          /\ noOutput app' = negb (imageMode app || artifactMode app)
          /\ saveInlineCache app'
             = saveInlineCache app
               || (String.eqb (remoteCache app) "" && push app))).
Proof.
  destruct app as [am im pu c no rc si ui]. unfold actionBuild_flags.
  cbn [artifactMode imageMode push ci noOutput remoteCache saveInlineCache
       useInlineCache].
  destruct (String.eqb rc "") eqn:Erc;
    destruct am, im, pu, c, no, si, ui; cbn;
    (split; [split; intros H; (discriminate H || reflexivity)|]);
    (split; [split; intros H; (discriminate H || reflexivity)|]);
    (split; [intros msg H; discriminate H|]);
    intros app' H; try discriminate H; injection H as <-; cbn;
    rewrite ?Erc; repeat split; intros; try reflexivity; try discriminate.
Qed.

Lemma get_set (m : Map) (k v k' : string) :
  get (set m k v) k' = if String.eqb k k' then Some v else get m k'.
Proof. reflexivity. Qed.

(** What [SplitN(secret, "=", 2)] gives: the argument itself when it has no
    [=], else the parts before and after the first [=]. *)
Lemma SplitN_equals (s : string) :
  (count_byte equals s = 0 /\ strings.SplitN s "=" 2 = [s])
  \/ (exists k v, s = k ++ "=" ++ v /\ count_byte equals k = 0
                  /\ strings.SplitN s "=" 2 = [k; v]).
Proof.
  destruct (count_byte equals s) eqn:E.
  - left. split; [reflexivity|]. now apply SplitN_2_none.
  - right. destruct (first_occurrence equals s ltac:(lia)) as (p & n' & Hs & Hp & _).
    exists p, n'. subst s. split; [reflexivity|]. split; [exact Hp|].
    now apply SplitN_2_first.
Qed.

Lemma SplitN_equals_first (k v : string) :
  count_byte equals k = 0 -> strings.SplitN (k ++ "=" ++ v) "=" 2 = [k; v].
Proof. intros H. exact (SplitN_2_first equals k v H). Qed.

Lemma SplitN_equals_none (s : string) :
  count_byte equals s = 0 -> strings.SplitN s "=" 2 = [s].
Proof. intros H. exact (SplitN_2_none equals s H). Qed.

Section Secrets.

Variable LookupEnv : string -> option string.
Variable ReadFile : string -> string + string.

Lemma get_copy_dotEnv_other (d m0 : Map) (k : string) :
  ~ In k (map fst d) -> get (copy_dotEnv d m0) k = get m0 k.
Proof.
  unfold copy_dotEnv. revert m0. induction d as [|[k1 v1] d IH]; intros m0 Hn;
    [reflexivity|].
  cbn [fold_left fst snd]. rewrite IH by (intros H; apply Hn; now right).
  rewrite get_set. destruct (String.eqb k1 k) eqn:E; [|reflexivity].
  apply String.eqb_eq in E. subst. exfalso. apply Hn. now left.
Qed.

Lemma get_copy_dotEnv (d m0 : Map) (k v : string) :
  NoDup (map fst d) -> In (k, v) d -> get (copy_dotEnv d m0) k = Some v.
Proof.
  revert m0. induction d as [|[k1 v1] d IH]; intros m0 Hnd Hin; [destruct Hin|].
  cbn [map fst] in Hnd. inversion Hnd as [|? ? Hnot Hnd']; subst.
  destruct Hin as [Heq|Hin].
  - injection Heq as -> ->. unfold copy_dotEnv. cbn [fold_left fst snd].
    fold (copy_dotEnv d (set m0 k v)). rewrite get_copy_dotEnv_other by exact Hnot.
    rewrite get_set, String.eqb_refl. reflexivity.
  - unfold copy_dotEnv. cbn [fold_left fst snd]. now apply IH.
Qed.

Lemma get_copy_dotEnv_inv (d m0 : Map) (k v : string) :
  get (copy_dotEnv d m0) k = Some v -> In (k, v) d \/ get m0 k = Some v.
Proof.
  unfold copy_dotEnv. revert m0. induction d as [|[k1 v1] d IH]; intros m0 H;
    [now right|].
  cbn [fold_left fst snd] in H. apply IH in H as [H|H]; [left; now right|].
  rewrite get_set in H. destruct (String.eqb k1 k) eqn:E; [|now right].
  apply String.eqb_eq in E. injection H as ->. subst. left. now left.
Qed.

Lemma from_secret_key (secret k v : string) :
  from_secret LookupEnv secret k v -> hd "" (strings.SplitN secret "=" 2) = k.
Proof.
  intros [(Hc & ->)|(Hc & -> & _)].
  - now rewrite SplitN_equals_first.
  - now rewrite SplitN_equals_none.
Qed.

Lemma from_secretFile_key (secret k v : string) :
  from_secretFile ReadFile secret k v -> hd "" (strings.SplitN secret "=" 2) = k.
Proof.
  intros (file & Hc & -> & _). now rewrite SplitN_equals_first.
Qed.

Lemma range_secrets_spec (secrets : list string) (m0 m : Map) :
  range_secrets LookupEnv secrets m0 = inl m ->
  (forall k v, get m0 k = Some v -> get m k = Some v)
  /\ (forall secret, In secret secrets ->
      exists k v, from_secret LookupEnv secret k v /\ get m0 k = None /\ get m k = Some v)
  /\ (forall k v, get m k = Some v ->
      get m0 k = Some v \/ exists secret, In secret secrets /\ from_secret LookupEnv secret k v)
  /\ NoDup (secret_keys secrets).
Proof.
  revert m0. induction secrets as [|secret secrets IH]; intros m0 H.
  - cbn in H. injection H as <-. repeat split; auto; try (intros ? []).
    constructor.
  - cbn [range_secrets] in H.
    assert (Hstep : exists k v,
              from_secret LookupEnv secret k v
              /\ get m0 k = None
              /\ range_secrets LookupEnv secrets (set m0 k v) = inl m).
    { destruct (SplitN_equals secret) as [(Hc & Hs)|(k & v & Hs & Hc & Hsp)].
      - rewrite Hs in H. cbn [hd] in H.
        destruct (LookupEnv secret) as [value|] eqn:El; [|discriminate H].
        destruct (get m0 secret) eqn:Eg; [discriminate H|].
        exists secret, value. split; [right; auto|]. auto.
      - rewrite Hsp in H. cbn [hd] in H.
        destruct (get m0 k) eqn:Eg; [discriminate H|].
        exists k, v. split; [left; auto|]. auto. }
    destruct Hstep as (k & v & Hfrom & Hnone & Hrest).
    destruct (IH _ Hrest) as (Hkeep & Hbound & Horigin & Hnd).
    assert (Hk : get m k = Some v).
    { apply Hkeep. rewrite get_set, String.eqb_refl. reflexivity. }
    split; [|split; [|split]].
    + intros k' v' Hg. apply Hkeep. rewrite get_set.
      destruct (String.eqb k k') eqn:E; [|exact Hg].
      apply String.eqb_eq in E. congruence.
    + intros s [<-|Hin].
      * exists k, v. auto.
      * destruct (Hbound s Hin) as (k' & v' & Hf & Hn & Hg).
        exists k', v'. split; [exact Hf|]. split; [|exact Hg].
        rewrite get_set in Hn. destruct (String.eqb k k'); [discriminate Hn|exact Hn].
    + intros k' v' Hg. destruct (Horigin k' v' Hg) as [Hg0|(s & Hin & Hf)].
      * rewrite get_set in Hg0. destruct (String.eqb k k') eqn:E.
        -- apply String.eqb_eq in E. injection Hg0 as <-. subst k'.
           right. exists secret. split; [now left|exact Hfrom].
        -- now left.
      * right. exists s. split; [now right|exact Hf].
    + unfold secret_keys in *. cbn [map]. rewrite (from_secret_key _ _ _ Hfrom).
      constructor; [|exact Hnd].
      intros Hin. apply in_map_iff in Hin as (s & Hs & Hin).
      destruct (Hbound s Hin) as (k1 & v1 & Hf1 & Hn1 & _).
      rewrite (from_secret_key _ _ _ Hf1) in Hs. subst k1.
      rewrite get_set, String.eqb_refl in Hn1. discriminate Hn1.
Qed.

Lemma range_secretFiles_spec (secretFiles : list string) (m0 m : Map) :
  range_secretFiles ReadFile secretFiles m0 = inl m ->
  (forall k v, get m0 k = Some v -> get m k = Some v)
  /\ (forall secret, In secret secretFiles ->
      exists k v, from_secretFile ReadFile secret k v /\ get m0 k = None /\ get m k = Some v)
  /\ (forall k v, get m k = Some v ->
      get m0 k = Some v
      \/ exists secret, In secret secretFiles /\ from_secretFile ReadFile secret k v)
  /\ NoDup (secret_keys secretFiles).
Proof.
  revert m0. induction secretFiles as [|secret secrets IH]; intros m0 H.
  - cbn in H. injection H as <-. repeat split; auto; try (intros ? []).
    constructor.
  - cbn [range_secretFiles] in H.
    assert (Hstep : exists k v,
              from_secretFile ReadFile secret k v
              /\ get m0 k = None
              /\ range_secretFiles ReadFile secrets (set m0 k v) = inl m).
    { destruct (SplitN_equals secret) as [(Hc & Hs)|(k & file & Hs & Hc & Hsp)].
      - rewrite Hs in H. discriminate H.
      - rewrite Hsp in H. destruct (ReadFile file) as [data|err] eqn:Er;
          [|discriminate H].
        destruct (get m0 k) eqn:Eg; [discriminate H|].
        exists k, data. split; [exists file; auto|]. auto. }
    destruct Hstep as (k & v & Hfrom & Hnone & Hrest).
    destruct (IH _ Hrest) as (Hkeep & Hbound & Horigin & Hnd).
    assert (Hk : get m k = Some v).
    { apply Hkeep. rewrite get_set, String.eqb_refl. reflexivity. }
    split; [|split; [|split]].
    + intros k' v' Hg. apply Hkeep. rewrite get_set.
      destruct (String.eqb k k') eqn:E; [|exact Hg].
      apply String.eqb_eq in E. congruence.
    + intros s [<-|Hin].
      * exists k, v. auto.
      * destruct (Hbound s Hin) as (k' & v' & Hf & Hn & Hg).
        exists k', v'. split; [exact Hf|]. split; [|exact Hg].
        rewrite get_set in Hn. destruct (String.eqb k k'); [discriminate Hn|exact Hn].
    + intros k' v' Hg. destruct (Horigin k' v' Hg) as [Hg0|(s & Hin & Hf)].
      * rewrite get_set in Hg0. destruct (String.eqb k k') eqn:E.
        -- apply String.eqb_eq in E. injection Hg0 as <-. subst k'.
           right. exists secret. split; [now left|exact Hfrom].
        -- now left.
      * right. exists s. split; [now right|exact Hf].
    + unfold secret_keys in *. cbn [map]. rewrite (from_secretFile_key _ _ _ Hfrom).
      constructor; [|exact Hnd].
      intros Hin. apply in_map_iff in Hin as (s & Hs & Hin).
      destruct (Hbound s Hin) as (k1 & v1 & Hf1 & Hn1 & _).
      rewrite (from_secretFile_key _ _ _ Hf1) in Hs. subst k1.
      rewrite get_set, String.eqb_refl in Hn1. discriminate Hn1.
Qed.


Lemma get_copy_dotEnv_in (d m0 : Map) (k : string) :
  In k (map fst d) -> get (copy_dotEnv d m0) k <> None.
Proof.
  unfold copy_dotEnv. revert m0. induction d as [|[k1 v1] d IH]; intros m0 Hin;
    [destruct Hin|].
  cbn [fold_left fst snd].
  destruct (in_dec string_dec k (map fst d)) as [Hd|Hd]; [now apply IH|].
  fold (copy_dotEnv d (set m0 k1 v1)). rewrite get_copy_dotEnv_other by exact Hd.
  destruct Hin as [Heq|Hin]; [|contradiction]. cbn [fst] in Heq. subst k1.
  rewrite get_set, String.eqb_refl. discriminate.
Qed.

Lemma range_secrets_accepts (secrets : list string) (m0 : Map) :
  (forall secret, In secret secrets -> count_byte equals secret = 0 ->
                  LookupEnv secret <> None) ->
  NoDup (secret_keys secrets) ->
  (forall k, In k (secret_keys secrets) -> get m0 k = None) ->
  exists m, range_secrets LookupEnv secrets m0 = inl m.
Proof.
  revert m0. induction secrets as [|secret secrets IH]; intros m0 Henv Hnd Hfree.
  - now exists m0.
  - unfold secret_keys in Hnd, Hfree. cbn [map] in Hnd, Hfree.
    apply NoDup_cons_iff in Hnd as [Hnot Hnd'].
    cbn [range_secrets].
    assert (Hnext : forall data,
              exists m, range_secrets LookupEnv secrets
                          (set m0 (hd "" (strings.SplitN secret "=" 2)) data) = inl m).
    { intros data. apply IH.
      - intros s Hin. apply Henv. now right.
      - exact Hnd'.
      - intros k Hin. rewrite get_set.
        destruct (String.eqb _ k) eqn:E.
        + apply String.eqb_eq in E. subst k. contradiction.
        + apply Hfree. now right. }
    rewrite (Hfree _ (or_introl eq_refl)).
    destruct (SplitN_equals secret) as [(Hc & Hs)|(k & v & Hs & Hc & Hsp)].
    + rewrite Hs in Hnext |- *. cbn [hd] in Hnext |- *.
      destruct (LookupEnv secret) as [value|] eqn:El.
      * apply Hnext.
      * exfalso. apply (Henv secret (or_introl eq_refl) Hc El).
    + rewrite Hsp in Hnext |- *. cbn [hd] in Hnext |- *. apply Hnext.
Qed.

Lemma range_secretFiles_accepts (secretFiles : list string) (m0 : Map) :
  (forall secret, In secret secretFiles ->
                  exists k v, from_secretFile ReadFile secret k v) ->
  NoDup (secret_keys secretFiles) ->
  (forall k, In k (secret_keys secretFiles) -> get m0 k = None) ->
  exists m, range_secretFiles ReadFile secretFiles m0 = inl m.
Proof.
  revert m0. induction secretFiles as [|secret secrets IH]; intros m0 Hsrc Hnd Hfree.
  - now exists m0.
  - unfold secret_keys in Hnd, Hfree. cbn [map] in Hnd, Hfree.
    apply NoDup_cons_iff in Hnd as [Hnot Hnd'].
    cbn [range_secretFiles].
    destruct (Hsrc secret (or_introl eq_refl)) as (k & v & file & Hc & -> & Hr).
    pose proof (SplitN_equals_first k file Hc) as Hsp.
    rewrite Hsp in *.
    cbn [hd] in Hnot, Hfree. rewrite Hr, (Hfree k (or_introl eq_refl)).
    apply IH.
    + intros s Hin. apply Hsrc. now right.
    + exact Hnd'.
    + intros k' Hin. rewrite get_set. destruct (String.eqb k k') eqn:E.
      * apply String.eqb_eq in E. subst k'. contradiction.
      * apply Hfree. now right.
Qed.

End Secrets.

(** X19.  When [processSecrets] returns a map from a dotenv map with
    distinct keys, every dotenv binding is in it unchanged, every
    [--secret] argument is bound (to the text after its first [=], or,
    without [=], to the value of the environment variable of its name),
    and every [--secret-file] argument [k=file] binds [k] to the content
    of the file. *)
Theorem X19_secrets_all_bound (LookupEnv : string -> option string)
  (ReadFile : string -> string + string)
  (secrets secretFiles : list string) (dotEnvMap m : Map) :
  NoDup (map fst dotEnvMap) ->
  processSecrets LookupEnv ReadFile secrets secretFiles dotEnvMap = inl m ->
  (forall k v, In (k, v) dotEnvMap -> get m k = Some v)
  /\ (forall secret, In secret secrets ->
      exists k v, from_secret LookupEnv secret k v /\ get m k = Some v)
  /\ (forall secret, In secret secretFiles ->
      exists k v, from_secretFile ReadFile secret k v /\ get m k = Some v).
Proof.
  intros Hnd H. unfold processSecrets in H.
  destruct (range_secrets LookupEnv secrets (copy_dotEnv dotEnvMap [])) as [m1|e] eqn:E1;
    [|discriminate H].
  destruct (range_secrets_spec LookupEnv _ _ _ E1) as (Hk1 & Hb1 & _ & _).
  destruct (range_secretFiles_spec ReadFile _ _ _ H) as (Hk2 & Hb2 & _ & _).
  split; [|split].
  - intros k v Hin. apply Hk2, Hk1. now apply get_copy_dotEnv.
  - intros s Hin. destruct (Hb1 s Hin) as (k & v & Hf & _ & Hg).
    exists k, v. split; [exact Hf|]. now apply Hk2.
  - intros s Hin. destruct (Hb2 s Hin) as (k & v & Hf & _ & Hg).
    exists k, v. split; [exact Hf|exact Hg].
Qed.

Lemma X19_secrets_all_bound_witness :
  exists m,
    processSecrets MainExamples.env MainExamples.files MainExamples.secrets
      MainExamples.secretFiles MainExamples.dotEnvMap = inl m
    /\ get m "region" = Some "eu".
Proof.
  eexists. split; [vm_compute; reflexivity|].
  apply (X19_secrets_all_bound MainExamples.env MainExamples.files
           MainExamples.secrets MainExamples.secretFiles MainExamples.dotEnvMap).
  - repeat constructor. intros [].
  - vm_compute. reflexivity.
  - left. reflexivity.
Defined.

(** X20.  When [processSecrets] returns a map, every binding of the map
    comes from the dotenv map, from a [--secret] argument or from a
    [--secret-file] argument; the keys of all arguments are pairwise
    distinct, and none of them is a key of the dotenv map. *)
Theorem X20_secrets_sources_and_distinct_keys (LookupEnv : string -> option string)
  (ReadFile : string -> string + string)
  (secrets secretFiles : list string) (dotEnvMap m : Map) :
  processSecrets LookupEnv ReadFile secrets secretFiles dotEnvMap = inl m ->
  (forall k v, get m k = Some v ->
     In (k, v) dotEnvMap
     \/ (exists secret, In secret secrets /\ from_secret LookupEnv secret k v)
     \/ (exists secret, In secret secretFiles /\ from_secretFile ReadFile secret k v))
  /\ NoDup (secret_keys secrets ++ secret_keys secretFiles)%list
  /\ (forall k, In k (secret_keys secrets ++ secret_keys secretFiles)%list ->
      ~ In k (map fst dotEnvMap)).
Proof.
  intros H. unfold processSecrets in H.
  destruct (range_secrets LookupEnv secrets (copy_dotEnv dotEnvMap [])) as [m1|e] eqn:E1;
    [|discriminate H].
  destruct (range_secrets_spec LookupEnv _ _ _ E1) as (Hk1 & Hb1 & Ho1 & Hn1).
  destruct (range_secretFiles_spec ReadFile _ _ _ H) as (Hk2 & Hb2 & Ho2 & Hn2).
  assert (Hkey1 : forall k, In k (secret_keys secrets) ->
                  get (copy_dotEnv dotEnvMap []) k = None /\ get m1 k <> None).
  { intros k Hin. apply in_map_iff in Hin as (s & Hs & Hin).
    destruct (Hb1 s Hin) as (k' & v' & Hf & Hn & Hg).
    rewrite (from_secret_key _ _ _ _ Hf) in Hs. subst k'. split; congruence. }
  assert (Hkey2 : forall k, In k (secret_keys secretFiles) -> get m1 k = None).
  { intros k Hin. apply in_map_iff in Hin as (s & Hs & Hin).
    destruct (Hb2 s Hin) as (k' & v' & Hf & Hn & Hg).
    rewrite (from_secretFile_key _ _ _ _ Hf) in Hs. now subst k'. }
  split; [|split].
  - intros k v Hg. destruct (Ho2 k v Hg) as [Hg1|Hsrc]; [|now right; right].
    destruct (Ho1 k v Hg1) as [Hg0|Hsrc]; [|now right; left].
    apply get_copy_dotEnv_inv in Hg0 as [Hin|Hg0]; [now left|discriminate Hg0].
  - apply NoDup_app; [exact Hn1 | exact Hn2 |].
    intros k Hin1 Hin2. apply (proj2 (Hkey1 k Hin1)). now apply Hkey2.
  - intros k Hin Hd. apply (get_copy_dotEnv_in dotEnvMap [] k Hd).
    apply in_app_or in Hin as [Hin|Hin]; [now apply Hkey1|].
    destruct (get (copy_dotEnv dotEnvMap []) k) as [v|] eqn:Eg; [|reflexivity].
    apply Hk1 in Eg. rewrite (Hkey2 k Hin) in Eg. discriminate Eg.
Qed.

Lemma X20_secrets_sources_and_distinct_keys_witness :
  exists m,
    processSecrets MainExamples.env MainExamples.files MainExamples.secrets
      MainExamples.secretFiles MainExamples.dotEnvMap = inl m
    /\ NoDup (secret_keys MainExamples.secrets
              ++ secret_keys MainExamples.secretFiles)%list.
Proof.
  eexists. split; [vm_compute; reflexivity|].
  refine (proj1 (proj2 (X20_secrets_sources_and_distinct_keys MainExamples.env
                          MainExamples.files MainExamples.secrets
                          MainExamples.secretFiles MainExamples.dotEnvMap _ _))).
  vm_compute. reflexivity.
Defined.

(** X21.  [processSecrets] returns a map whenever every [--secret]
    argument without [=] names a variable that is set, every
    [--secret-file] argument has the form [k=file] with a readable file,
    the keys of the arguments are pairwise distinct and none of them is a
    key of the dotenv map. *)
Theorem X21_secrets_accepted (LookupEnv : string -> option string)
  (ReadFile : string -> string + string)
  (secrets secretFiles : list string) (dotEnvMap : Map) :
  (forall secret, In secret secrets -> count_byte equals secret = 0 ->
                  LookupEnv secret <> None) ->
  (forall secret, In secret secretFiles ->
                  exists k v, from_secretFile ReadFile secret k v) ->
  NoDup (secret_keys secrets ++ secret_keys secretFiles)%list ->
  (forall k, In k (secret_keys secrets ++ secret_keys secretFiles)%list ->
             ~ In k (map fst dotEnvMap)) ->
  exists m, processSecrets LookupEnv ReadFile secrets secretFiles dotEnvMap = inl m.
Proof.
  intros Henv Hsrc Hnd Hfree. unfold processSecrets.
  assert (Hfree0 : forall k, In k (secret_keys secrets ++ secret_keys secretFiles)%list ->
                   get (copy_dotEnv dotEnvMap []) k = None).
  { intros k Hin. rewrite get_copy_dotEnv_other by now apply Hfree. reflexivity. }
  destruct (range_secrets_accepts LookupEnv secrets (copy_dotEnv dotEnvMap []) Henv)
    as (m1 & E1).
  { now apply NoDup_app_remove_r in Hnd. }
  { intros k Hin. apply Hfree0, in_or_app. now left. }
  rewrite E1.
  destruct (range_secrets_spec LookupEnv _ _ _ E1) as (_ & _ & Ho1 & _).
  apply range_secretFiles_accepts; [exact Hsrc | now apply NoDup_app_remove_l in Hnd |].
  intros k Hin. destruct (get m1 k) as [v|] eqn:Eg; [|reflexivity].
  destruct (Ho1 k v Eg) as [Hg0|(s & Hs & Hf)].
  - rewrite Hfree0 in Hg0 by (apply in_or_app; now right). discriminate Hg0.
  - exfalso. apply from_secret_key in Hf.
    assert (Hin1 : In k (secret_keys secrets))
      by (apply in_map_iff; exists s; split; assumption).
    clear - Hnd Hin Hin1. induction (secret_keys secrets) as [|x xs IH];
      [destruct Hin1|].
    cbn [app] in Hnd. inversion Hnd as [|? ? Hx Hnd']; subst.
    destruct Hin1 as [->|Hin1]; [|now apply IH].
    apply Hx, in_or_app. now right.
Qed.

Lemma X21_secrets_accepted_witness :
  exists m,
    processSecrets MainExamples.env MainExamples.files MainExamples.secrets
      MainExamples.secretFiles MainExamples.dotEnvMap = inl m.
Proof.
  apply (X21_secrets_accepted MainExamples.env MainExamples.files
           MainExamples.secrets MainExamples.secretFiles MainExamples.dotEnvMap).
  - intros s [<-|[<-|[]]] Hc; [discriminate Hc|discriminate].
  - intros s [<-|[]]. exists "token", "s3cr3t", "/run/token". repeat split.
  - vm_compute. repeat constructor; cbn; intuition discriminate.
  - vm_compute. intros k [<-|[<-|[<-|[]]]] [H|[]]; discriminate H.
Defined.

End MainExtras.

(** * The first matcher of [parseGitURLandPath] *)

Section MatcherExtras.
Import domain regexp.

(** *** The bits of the bytes of an encoding *)












(** *** The runes of a path element *)








(** *** The matcher on the runes *)









(** [.] takes a whole rune: a host written with the two-byte letter
    U+00E9 in the place of the dot is matched by the first pattern. *)
Example dot_takes_a_rune :
  parseGitURLandPath ("github" ++ e_acute ++ "com/a/b")
  = Ok ("github" ++ e_acute ++ "com/a/b", "").
Proof. vm_compute. reflexivity. Qed.



End MatcherExtras.
